(** * Browserbase plugin: configuration resolver and skill synchronizer

    A shallow embedding of [src/config.ts], [src/config-store.ts] and
    [src/skills-sync.ts] (both revisions of the synchronizer), with the
    properties of the configuration merge, the secret masking, the dotenv
    escaping and the skill installation procedure.

    JavaScript strings are sequences of UTF-16 code units; they are modelled
    as lists of code units ([N]).  A thrown [Error] is modelled by its
    message. *)

From Stdlib Require Import String Ascii NArith ZArith List Lia DecimalString Sorted.
From stdpp Require Import base list option gmap.

Local Open Scope N_scope.
#[local] Set Warnings "-register-all".

(** ** Strings *)

Abbreviation jsstring := (list N).

(** A literal: the code units of an ASCII string. *)
Definition js (s : string) : jsstring :=
  (fun a => N_of_ascii a) <$> list_ascii_of_string s.

Definition DOLLAR : N := 36.
Definition LBRACE : N := 123.
Definition RBRACE : N := 125.
Definition STAR : N := 42.
Definition DQUOTE : N := 34.
Definition SQUOTE : N := 39.
Definition HASH : N := 35.
Definition EQUALS : N := 61.
Definition BACKSLASH : N := 92.
Definition LF : N := 10.
Definition CR : N := 13.

(** ECMAScript WhiteSpace and LineTerminator code points: what
    [String.prototype.trim] strips and what the regular expression class
    [\s] matches. *)
Definition isWhiteSpace (c : N) : bool :=
  (c =? 9) || (c =? 10) || (c =? 11) || (c =? 12) || (c =? 13) || (c =? 32)
  || (c =? 160) || (c =? 5760) || ((8192 <=? c) && (c <=? 8202))
  || (c =? 8232) || (c =? 8233) || (c =? 8239) || (c =? 8287)
  || (c =? 12288) || (c =? 65279).

Fixpoint trimStart (s : jsstring) : jsstring :=
  match s with
  | [] => []
  | c :: t => if isWhiteSpace c then trimStart t else s
  end.

Definition trimEnd (s : jsstring) : jsstring := rev (trimStart (rev s)).

Definition trim (s : jsstring) : jsstring := trimEnd (trimStart s).

(** [Array.prototype.join] on an array of strings. *)
Fixpoint join (sep : jsstring) (xs : list jsstring) : jsstring :=
  match xs with
  | [] => []
  | [x] => x
  | x :: rest => x ++ sep ++ join sep rest
  end.

(** [Array.prototype.includes] on an array of strings. *)
Definition includes (xs : list jsstring) (k : jsstring) : bool :=
  bool_decide (k ∈ xs).

(** [String.prototype.includes]: [needle] occurs in [s] as a contiguous run. *)
Definition occursIn (needle s : jsstring) : Prop :=
  exists pre post, s = pre ++ needle ++ post.

(** Decimal rendering of a non-negative integer, as a template literal
    renders a number. *)
Definition decimal (n : N) : jsstring :=
  js (NilEmpty.string_of_uint (N.to_uint n)).

(** ** Values and thrown errors *)

Inductive JsValue : Type :=
  | JsUndefined
  | JsNull
  | JsBoolean (b : bool)
  | JsNumber (n : Z)
  | JsString (s : jsstring)
  | JsFunction
  | JsArray (items : list JsValue)
  | JsObject (props : list (jsstring * JsValue)).

Inductive JsType : Type :=
  TyUndefined | TyObject | TyBoolean | TyNumber | TyString | TyFunction.

#[global] Instance JsType_eq_dec : EqDecision JsType.
Proof. solve_decision. Defined.

Definition typeof (v : JsValue) : JsType :=
  match v with
  | JsUndefined => TyUndefined
  | JsNull => TyObject
  | JsBoolean _ => TyBoolean
  | JsNumber _ => TyNumber
  | JsString _ => TyString
  | JsFunction => TyFunction
  | JsArray _ => TyObject
  | JsObject _ => TyObject
  end.

Definition isNull (v : JsValue) : bool :=
  match v with JsNull => true | _ => false end.

Definition Array_isArray (v : JsValue) : bool :=
  match v with JsArray _ => true | _ => false end.

(** The own enumerable properties of a record, in [Object.keys] order. *)
Abbreviation Record := (list (jsstring * JsValue)).

Definition Object_keys (r : Record) : list jsstring := fst <$> r.

(** A value read as a record: its own properties. *)
Definition asRecord (v : JsValue) : Record :=
  match v with
  | JsObject props => props
  | _ => []
  end.

(** Property read [r.key]; a missing property reads as [undefined]. *)
Fixpoint getProp (r : Record) (key : jsstring) : JsValue :=
  match r with
  | [] => JsUndefined
  | (k, v) :: rest => if bool_decide (k = key) then v else getProp rest key
  end.

(** The outcome of a call that may throw [new Error(message)]. *)
Inductive Result (A : Type) : Type :=
  | Ok (value : A)
  | Throw (message : jsstring).
Arguments Ok {A} value.
Arguments Throw {A} message.

Definition bindR {A B} (r : Result A) (k : A -> Result B) : Result B :=
  match r with
  | Ok a => k a
  | Throw m => Throw m
  end.

Definition mapR {A B} (f : A -> B) (r : Result A) : Result B :=
  bindR r (fun a => Ok (f a)).

Notation "x <-! r ; k" := (bindR r (fun x => k))
  (at level 100, r at next level, right associativity, only parsing).

(** [a ?? b] *)
Definition nullish {A} (a b : option A) : option A :=
  match a with
  | Some x => Some x
  | None => b
  end.

(** ** config.ts *)

(** The process environment as the code reads it: the lookup
    [process.env[name]], which gives [undefined] or something that the
    replacement puts into a string.  It is the lookup, not the table of the
    variables: a name that is no variable is looked up in the prototype of
    [process.env], see [processEnv]. *)
Abbreviation Env := (jsstring -> option jsstring).

(** [Function.prototype.toString] of a built-in function. *)
Definition nativeFunctionText (name : jsstring) : jsstring :=
  js "function " ++ name ++ js "() { [native code] }".

Definition OBJECT_PROTOTYPE_METHODS : list jsstring :=
  [ js "__defineGetter__"; js "__defineSetter__"; js "hasOwnProperty";
    js "__lookupGetter__"; js "__lookupSetter__"; js "isPrototypeOf";
    js "propertyIsEnumerable"; js "toString"; js "valueOf"; js "toLocaleString" ].

(** What [process.env] inherits from [Object.prototype], as the text that
    the member becomes in a string: the members are functions, and
    [__proto__] reads as the prototype object itself.  All of them are
    truthy. *)
Definition inheritedText (name : jsstring) : option jsstring :=
  if bool_decide (name = js "constructor") then Some (nativeFunctionText (js "Object"))
  else if bool_decide (name = js "__proto__") then Some (js "[object Object]")
  else if bool_decide (name ∈ OBJECT_PROTOTYPE_METHODS) then Some (nativeFunctionText name)
  else None.

(** The lookup of a process whose environment variables are [variables]:
    the variable of that name if there is one, the inherited member
    otherwise. *)
Definition processEnv (variables : jsstring -> option jsstring) : Env :=
  fun name =>
    match variables name with
    | Some value => Some value
    | None => inheritedText name
    end.

Definition DEFAULT_BASE_URL : jsstring := js "https://api.browserbase.com".

Definition ALLOWED_KEYS : list jsstring :=
  [js "apiKey"; js "projectId"; js "baseUrl"; js "promptOnStart"; js "autoSyncSkills"].

Definition isRecord (value : JsValue) : bool :=
  bool_decide (typeof value = TyObject) && negb (isNull value)
  && negb (Array_isArray value).

Definition unknownKeys (value : Record) : list jsstring :=
  filter (fun key => includes ALLOWED_KEYS key = false) (Object_keys value).

Definition unknownKeysMessage (label : jsstring) (unknown : list jsstring) : jsstring :=
  label ++ js " has unknown keys: " ++ join (js ", ") unknown.

Definition assertAllowedKeys (value : Record) (label : jsstring) : Result unit :=
  let unknown := unknownKeys value in
  if (0 <? length unknown)%nat
  then Throw (unknownKeysMessage label unknown)
  else Ok tt.

(** The maximal run of code units different from [}] at the head of [s],
    and what follows it. *)
Fixpoint spanName (s : jsstring) : jsstring * jsstring :=
  match s with
  | [] => ([], [])
  | c :: t =>
      if c =? RBRACE then ([], s)
      else let '(name, rest) := spanName t in (c :: name, rest)
  end.

(** One match of [/\$\{([^}]+)\}/] anchored at the head of [s]: the captured
    name and the text after the closing brace. *)
Definition matchPlaceholder (s : jsstring) : option (jsstring * jsstring) :=
  match s with
  | c1 :: c2 :: t =>
      if (c1 =? DOLLAR) && (c2 =? LBRACE) then
        match spanName t with
        | ((_ :: _) as name, c3 :: rest) => Some (name, rest)
        | _ => None
        end
      else None
  | _ => None
  end.

Definition envNotSetMessage (envVar : jsstring) : jsstring :=
  js "Environment variable " ++ envVar ++ js " is not set".

(** The replacement callback of [resolveEnvVars]: a lookup that gives
    [undefined] or the empty string is falsy and throws. *)
Definition lookupEnvVar (env : Env) (envVar : jsstring) : Result jsstring :=
  match env envVar with
  | Some ((_ :: _) as envValue) => Ok envValue
  | _ => Throw (envNotSetMessage envVar)
  end.

(** The global replace, scanning left to right; each step consumes at least
    one code unit, so [length value] steps always suffice. *)
Fixpoint resolveFrom (env : Env) (fuel : nat) (s : jsstring) : Result jsstring :=
  match fuel with
  | O => Ok s
  | S fuel' =>
      match s with
      | [] => Ok []
      | c :: t =>
          match matchPlaceholder s with
          | Some (envVar, rest) =>
              envValue <-! lookupEnvVar env envVar;
              mapR (app envValue) (resolveFrom env fuel' rest)
          | None => mapR (cons c) (resolveFrom env fuel' t)
          end
      end
  end.

Definition resolveEnvVars (env : Env) (value : jsstring) : Result jsstring :=
  resolveFrom env (length value) value.

Definition parseOptionalString (env : Env) (value : JsValue) : Result (option jsstring) :=
  match value with
  | JsString s =>
      let trimmed := trim s in
      match trimmed with
      | [] => Ok None
      | _ => mapR Some (resolveEnvVars env trimmed)
      end
  | _ => Ok None
  end.

Definition parseBaseUrl (env : Env) (value : JsValue) : Result jsstring :=
  match value with
  | JsString s =>
      let trimmed := trim s in
      match trimmed with
      | [] => Ok DEFAULT_BASE_URL
      | _ => resolveEnvVars env trimmed
      end
  | _ => Ok DEFAULT_BASE_URL
  end.

Record BrowserbaseConfig : Type := mkConfig {
  apiKey : option jsstring;
  projectId : option jsstring;
  baseUrl : jsstring;
  promptOnStart : option bool;
  autoSyncSkills : option bool
}.

Definition asBoolean (v : JsValue) : option bool :=
  match v with
  | JsBoolean b => Some b
  | _ => None
  end.

(** [try { x = parseOptionalString(v) ?? process.env.NAME } catch { x = process.env.NAME }] *)
Definition credential (env : Env) (v : JsValue) (name : jsstring) : option jsstring :=
  match parseOptionalString env v with
  | Ok parsed => nullish parsed (env name)
  | Throw _ => env name
  end.

Definition parseConfig (env : Env) (raw : JsValue) : Result BrowserbaseConfig :=
  let cfg : Record := if isRecord raw then asRecord raw else [] in
  _ <-! (if (0 <? length (Object_keys cfg))%nat
         then assertAllowedKeys cfg (js "browserbase config")
         else Ok tt);
  let apiKey := credential env (getProp cfg (js "apiKey")) (js "BROWSERBASE_API_KEY") in
  let projectId :=
    credential env (getProp cfg (js "projectId")) (js "BROWSERBASE_PROJECT_ID") in
  url <-! parseBaseUrl env (getProp cfg (js "baseUrl"));
  Ok {| apiKey := apiKey;
        projectId := projectId;
        baseUrl := url;
        promptOnStart := asBoolean (getProp cfg (js "promptOnStart"));
        autoSyncSkills := asBoolean (getProp cfg (js "autoSyncSkills")) |}.

(** [primary.baseUrl ?? fallback.baseUrl] on a field whose type has no
    [undefined]. *)
Definition nullishTotal {A} (a : option A) (b : A) : A :=
  match a with
  | Some x => x
  | None => b
  end.

Definition mergeConfig (primary fallback : BrowserbaseConfig) : BrowserbaseConfig :=
  {| apiKey := nullish (apiKey primary) (apiKey fallback);
     projectId := nullish (projectId primary) (projectId fallback);
     baseUrl := nullishTotal (Some (baseUrl primary)) (baseUrl fallback);
     promptOnStart := nullish (promptOnStart primary) (promptOnStart fallback);
     autoSyncSkills := nullish (autoSyncSkills primary) (autoSyncSkills fallback) |}.

(** The names captured by the successive matches of the placeholder pattern
    in [s], in scan order. *)
Fixpoint placeholdersFrom (fuel : nat) (s : jsstring) : list jsstring :=
  match fuel with
  | O => []
  | S fuel' =>
      match s with
      | [] => []
      | c :: t =>
          match matchPlaceholder s with
          | Some (envVar, rest) => envVar :: placeholdersFrom fuel' rest
          | None => placeholdersFrom fuel' t
          end
      end
  end.

Definition placeholders (s : jsstring) : list jsstring :=
  placeholdersFrom (length s) s.

(** [process.env[name]] is truthy. *)
Definition isSet (env : Env) (name : jsstring) : bool :=
  match env name with
  | Some (_ :: _) => true
  | _ => false
  end.

(** [s] holds a placeholder whose lookup is falsy. *)
Definition unresolved (env : Env) (s : jsstring) : Prop :=
  exists name, name ∈ placeholders s /\ isSet env name = false.

(** The string value of a field has an unresolved placeholder. *)
Definition fieldUnresolved (env : Env) (v : JsValue) : Prop :=
  match v with
  | JsString s => unresolved env s
  | _ => False
  end.

(** Only white space. *)
Definition blank (s : jsstring) : Prop :=
  Forall (fun c => isWhiteSpace c = true) s.

(** ** config-store.ts *)

(** [s.repeat(n)] *)
Definition repeatStr (s : jsstring) (n : nat) : jsstring :=
  concat (replicate n s).

(** [s.slice(start, end)]: a negative index counts from the end of the
    string, and both indices are clamped to the string. *)
Definition sliceIndex (len : nat) (i : Z) : nat :=
  if (i <? 0)%Z then Z.to_nat (Z.max (Z.of_nat len + i) 0)
  else Nat.min (Z.to_nat i) len.

Definition slice (s : jsstring) (start : Z) (stop : option Z) : jsstring :=
  let len := length s in
  let from := sliceIndex len start in
  let to := match stop with
            | Some e => sliceIndex len e
            | None => len
            end in
  take (to - from)%nat (drop from s).

(** [!value] for [value : string | undefined]. *)
Definition isFalsy (value : option jsstring) : bool :=
  match value with
  | None => true
  | Some [] => true
  | Some (_ :: _) => false
  end.

Definition maskSecret (value : option jsstring) : jsstring :=
  if isFalsy value then js "not set"
  else
    let v := default [] value in
    if (length v <=? 8)%nat then repeatStr [STAR] (Nat.max 4 (length v))
    else slice v 0 (Some 4%Z) ++ js "..." ++ slice v (-4) None.

(** [s.replace(/c/g, by)] for a pattern that is one literal code unit. *)
Definition replaceAllUnit (c : N) (by_ : jsstring) (s : jsstring) : jsstring :=
  flat_map (fun x => if x =? c then by_ else [x]) s.

(** The test of the character class: white space, double quote, single
    quote, hash, equals sign, backslash. *)
Definition hasSpecialUnit (value : jsstring) : bool :=
  existsb (fun c => isWhiteSpace c || (c =? DQUOTE) || (c =? SQUOTE)
                    || (c =? HASH) || (c =? EQUALS) || (c =? BACKSLASH)) value.

(** [value.includes(c)] for a one-unit needle. *)
Definition includesUnit (c : N) (value : jsstring) : bool :=
  existsb (fun x => x =? c) value.

Definition dotenvEscape (value : jsstring) : jsstring :=
  if hasSpecialUnit value || includesUnit LF value || includesUnit CR value then
    [DQUOTE]
    ++ replaceAllUnit CR [BACKSLASH; 114]
         (replaceAllUnit LF [BACKSLASH; 110]
            (replaceAllUnit DQUOTE [BACKSLASH; DQUOTE]
               (replaceAllUnit BACKSLASH [BACKSLASH; BACKSLASH] value)))
    ++ [DQUOTE]
  else value.

(** The escaping as the specification words it: every code unit of the
    value is escaped on its own, once. *)
Definition spec_mustQuote (c : N) : bool :=
  isWhiteSpace c || (c =? SQUOTE) || (c =? DQUOTE) || (c =? HASH)
  || (c =? EQUALS) || (c =? BACKSLASH) || (c =? LF) || (c =? CR).

Definition spec_escapeUnit (c : N) : jsstring :=
  if c =? BACKSLASH then [BACKSLASH; BACKSLASH]
  else if c =? DQUOTE then [BACKSLASH; DQUOTE]
  else if c =? LF then [BACKSLASH; 110]
  else if c =? CR then [BACKSLASH; 114]
  else [c].

Definition spec_dotenvEscape (value : jsstring) : jsstring :=
  if existsb spec_mustQuote value
  then [DQUOTE] ++ flat_map spec_escapeUnit value ++ [DQUOTE]
  else value.

(** ** The host: Node's [path], [os] and [process], and the clock *)

Record Host : Type := mkHost {
  path_join : list jsstring -> jsstring;
  path_resolve : jsstring -> jsstring -> jsstring;
  path_dirname : jsstring -> jsstring;
  os_homedir : jsstring;
  os_tmpdir : jsstring;
  process_cwd : jsstring;
  process_pid : N;
  (** [Date.now()] as read during the n-th file write of a call *)
  Date_now : nat -> N
}.

(** ** The file system and the fetch capability *)

(** What lies at a path: a regular file with its text, or a directory. *)
Inductive FileNode : Type :=
  | RegularFile (content : jsstring)
  | DirectoryNode.

(** The tree of the host, by path. *)
Abbreviation Files := (gmap jsstring FileNode).

(** An asynchronous action on the file system that may reject. *)
Definition IO (A : Type) : Type := Files -> Files * Result A.

Definition ioRet {A} (a : A) : IO A := fun fs => (fs, Ok a).

Definition ioThrow {A} (message : jsstring) : IO A := fun fs => (fs, Throw message).

Definition ioLift {A} (r : Result A) : IO A := fun fs => (fs, r).

Definition ioBind {A B} (m : IO A) (k : A -> IO B) : IO B :=
  fun fs =>
    match m fs with
    | (fs', Ok a) => k a fs'
    | (fs', Throw message) => (fs', Throw message)
    end.

Notation "x <-$ m ; k" := (ioBind m (fun x => k))
  (at level 100, m at next level, right associativity, only parsing).

(** [try { body } catch (err) { handler; throw err }] *)
Definition ioOnError {A} (body : IO A) (handler : IO unit) : IO A :=
  fun fs =>
    match body fs with
    | (fs', Ok a) => (fs', Ok a)
    | (fs', Throw message) => (fst (handler fs'), Throw message)
    end.

(** Node's [fs] and [fs/promises], as far as the plugin calls them.  The
    calls are the host's: each one may throw, with the message of its error
    (a directory where a file is meant, a file where a directory is meant, no
    permission, no space), and each one that writes changes the tree as the
    host does.  [mkdir] is called with [recursive: true], files are read and
    written as UTF-8. *)
Record FsHost : Type := mkFsHost {
  fs_existsSync : jsstring -> Files -> bool;
  fs_readFileSync : jsstring -> Files -> Result jsstring;
  fs_mkdirSync : jsstring -> IO unit;
  fs_writeFileSync : jsstring -> jsstring -> IO unit;
  fsp_mkdir : jsstring -> IO unit;
  fsp_writeFile : jsstring -> jsstring -> IO unit;
  fsp_rename : jsstring -> jsstring -> IO unit
}.

(** The text of the file at a path, when it can be read. *)
Definition fileText (f : FsHost) (fs : Files) (path : jsstring) : option jsstring :=
  match fs_readFileSync f path fs with
  | Ok content => Some content
  | Throw _ => None
  end.

Definition isLeadSurrogate (c : N) : bool := (55296 <=? c) && (c <=? 56319).

Definition isTrailSurrogate (c : N) : bool := (56320 <=? c) && (c <=? 57343).

(** A string after it went through UTF-8: a surrogate without its partner
    comes back as U+FFFD. *)
Fixpoint toWellFormed (s : jsstring) : jsstring :=
  match s with
  | [] => []
  | c :: t =>
      if isLeadSurrogate c then
        match t with
        | d :: t' =>
            if isTrailSurrogate d then c :: d :: toWellFormed t'
            else 65533 :: toWellFormed t
        | [] => [65533]
        end
      else if isTrailSurrogate c then 65533 :: toWellFormed t
      else c :: toWellFormed t
  end.

(** What the properties of the synchronizer ask from the host.  Paths name
    files one to one (no links, no two spellings of one path): creating
    directories changes the text of no file; writing a file, and renaming a
    file that can be read, change the text of no file but the ones named in
    the call, whether the call succeeds or throws.  A file that was written
    can be read, as the text written; a file that was renamed reads under its
    new name as it read under the old one; and a file that can be read
    exists. *)
Record FsLaws (f : FsHost) : Prop := mkFsLaws {
  mkdir_keeps : forall dir fs p,
    fileText f (fst (fsp_mkdir f dir fs)) p = fileText f fs p;
  writeFile_writes : forall p content fs fs',
    fsp_writeFile f p content fs = (fs', Ok tt) ->
    fileText f fs' p = Some (toWellFormed content);
  writeFile_keeps : forall p content fs q,
    q <> p -> fileText f (fst (fsp_writeFile f p content fs)) q = fileText f fs q;
  rename_moves : forall from to fs fs',
    fsp_rename f from to fs = (fs', Ok tt) -> fileText f fs' to = fileText f fs from;
  rename_keeps : forall from to fs q,
    is_Some (fileText f fs from) -> q <> from -> q <> to ->
    fileText f (fst (fsp_rename f from to fs)) q = fileText f fs q;
  read_exists : forall p fs content,
    fs_readFileSync f p fs = Ok content -> fs_existsSync f p fs = true
}.

Record Response : Type := mkResponse {
  ok : bool;
  status : N;
  text : jsstring;
  body : option jsstring
}.

Inductive FetchImpl : Type :=
  | FetchFunction (call : jsstring -> Result Response)
  | NotAFunction.

Record SyncOptions : Type := mkOptions {
  targetRoot : option jsstring;
  ref : option jsstring;
  fetchImpl : option FetchImpl
}.

Record SkillSyncResult : Type := mkSyncResult {
  resultRoot : jsstring;
  resultRef : jsstring;
  filesWritten : list jsstring
}.

Definition DEFAULT_SKILLS_REF : jsstring := js "main".

Definition defaultSkillsRoot (h : Host) : jsstring :=
  path_join h [os_homedir h; js ".openclaw"; js "skills"].

Definition resolveSkillsRoot (h : Host) (explicitPath : option jsstring) : jsstring :=
  match explicitPath with
  | Some p =>
      match trim p with
      | [] => defaultSkillsRoot h
      | trimmed => path_resolve h (process_cwd h) trimmed
      end
  | None => defaultSkillsRoot h
  end.

Definition normalizeRef (r : option jsstring) : jsstring :=
  match r with
  | Some s =>
      match trim s with
      | [] => DEFAULT_SKILLS_REF
      | trimmed => trimmed
      end
  | None => DEFAULT_SKILLS_REF
  end.

Definition httpErrorMessage (st : N) (url : jsstring) : jsstring :=
  js "HTTP " ++ decimal st ++ js " for " ++ url.

Definition fetchUnavailableMessage : jsstring :=
  js "Global fetch is not available in this runtime.".

(** [options?.fetchImpl ?? fetch], then the [typeof] check. *)
Definition selectFetch (globalFetch : FetchImpl) (options : option SyncOptions)
  : Result (jsstring -> Result Response) :=
  match nullishTotal (options ≫= fetchImpl) globalFetch with
  | FetchFunction call => Ok call
  | NotAFunction => Throw fetchUnavailableMessage
  end.

(** ** skills-sync.ts, per-file revision *)

Module PerFile.

Definition SKILLS_REPO_RAW_BASE : jsstring :=
  js "https://raw.githubusercontent.com/browserbase/skills".

Record SkillFile : Type := mkSkillFile {
  sourcePath : jsstring;
  destinationPath : jsstring
}.

Definition SKILL_FILE_MAP (h : Host) : list SkillFile :=
  [ mkSkillFile (js "skills/browser-automation/SKILL.md")
      (path_join h [js "browser-automation"; js "SKILL.md"]);
    mkSkillFile (js "skills/browser-automation/EXAMPLES.md")
      (path_join h [js "browser-automation"; js "EXAMPLES.md"]);
    mkSkillFile (js "skills/browser-automation/REFERENCE.md")
      (path_join h [js "browser-automation"; js "REFERENCE.md"]);
    mkSkillFile (js "skills/browser-automation/setup.json")
      (path_join h [js "browser-automation"; js "setup.json"]);
    mkSkillFile (js "skills/functions/SKILL.md")
      (path_join h [js "functions"; js "SKILL.md"]) ].

Definition expectedSkillFiles (h : Host) (root : option jsstring) : list jsstring :=
  let targetRoot := default (defaultSkillsRoot h) root in
  (fun entry => path_join h [targetRoot; destinationPath entry]) <$> SKILL_FILE_MAP h.

Definition hasBrowserbaseSkills (h : Host) (existsSync : jsstring -> bool)
  (root : option jsstring) : bool :=
  forallb existsSync (expectedSkillFiles h root).

Definition downloadText (call : jsstring -> Result Response) (url : jsstring)
  : Result jsstring :=
  response <-! call url;
  if negb (ok response) then Throw (httpErrorMessage (status response) url)
  else Ok (text response).

Definition tempPathOf (h : Host) (tick : nat) (filePath : jsstring) : jsstring :=
  filePath ++ js ".tmp-" ++ decimal (process_pid h) ++ js "-" ++ decimal (Date_now h tick).

Definition writeFileAtomic (f : FsHost) (h : Host) (tick : nat)
  (filePath content : jsstring) : IO unit :=
  _ <-$ fsp_mkdir f (path_dirname h filePath);
  let tempPath := tempPathOf h tick filePath in
  _ <-$ fsp_writeFile f tempPath content;
  fsp_rename f tempPath filePath.

Definition sourceUrlOf (r : jsstring) (entry : SkillFile) : jsstring :=
  SKILLS_REPO_RAW_BASE ++ js "/" ++ r ++ js "/" ++ sourcePath entry.

Definition emptyContentMessage (url : jsstring) : jsstring :=
  js "Received empty content for " ++ url.

(** The [for ... of SKILL_FILE_MAP] loop, from the entries still to do and
    the destinations written so far. *)
Fixpoint syncEntries (f : FsHost) (h : Host) (call : jsstring -> Result Response)
  (root r : jsstring) (entries : list SkillFile) (written : list jsstring)
  : IO (list jsstring) :=
  match entries with
  | [] => ioRet written
  | entry :: rest =>
      let sourceUrl := sourceUrlOf r entry in
      content <-$ ioLift (downloadText call sourceUrl);
      match trim content with
      | [] => ioThrow (emptyContentMessage sourceUrl)
      | _ =>
          let destination := path_join h [root; destinationPath entry] in
          _ <-$ writeFileAtomic f h (length written) destination content;
          syncEntries f h call root r rest (written ++ [destination])
      end
  end.

Definition syncBrowserbaseSkills (f : FsHost) (h : Host) (globalFetch : FetchImpl)
  (options : option SyncOptions) : IO SkillSyncResult :=
  let root := resolveSkillsRoot h (options ≫= targetRoot) in
  let r := normalizeRef (options ≫= ref) in
  call <-$ ioLift (selectFetch globalFetch options);
  written <-$ syncEntries f h call root r (SKILL_FILE_MAP h) [];
  ioRet (mkSyncResult root r written).

Definition destinationOf (h : Host) (root : jsstring) (entry : SkillFile) : jsstring :=
  path_join h [root; destinationPath entry].

(** No destination path is continued by another one, so that neither the
    file of an entry nor its temporary file is the file of another entry. *)
Definition separateDestinations (h : Host) (root : jsstring) : Prop :=
  forall a b, a ∈ SKILL_FILE_MAP h -> b ∈ SKILL_FILE_MAP h -> a <> b ->
    ~ destinationOf h root b `prefix_of` destinationOf h root a.

(** The entry was fetched and its file holds the text fetched. *)
Definition installed (f : FsHost) (h : Host) (call : jsstring -> Result Response)
  (root r : jsstring) (fs : Files) (entry : SkillFile) : Prop :=
  exists response,
    call (sourceUrlOf r entry) = Ok response /\ ok response = true /\
    trim (text response) <> [] /\
    fileText f fs (destinationOf h root entry) = Some (toWellFormed (text response)).

End PerFile.

(** ** skills-sync.ts, archive revision *)

Module Archive.

Definition TARBALL_BASE : jsstring :=
  js "https://codeload.github.com/browserbase/skills/tar.gz".

Definition SKILLS_SOURCE_PREFIX : jsstring := js "skills/".

Definition REQUIRED_SKILL_DIRS : list jsstring := [js "browser"; js "functions"].

Definition SLASH : N := 47.

(** The primitives of [node:fs/promises] and of the [tar] package that the
    swap relies on; [listFiles] is the sorted recursive listing that
    [installedSkillFiles] computes with [readdirSync]. *)
Record TarHost : Type := mkTarHost {
  fsp_mkdtemp : jsstring -> IO jsstring;
  tar_x : jsstring -> nat -> (jsstring -> bool) -> jsstring -> IO unit;
  listFiles : jsstring -> Files -> list jsstring;
  fsp_rm : jsstring -> IO unit;
  fsp_mkdir : jsstring -> IO unit;
  fsp_rename : jsstring -> jsstring -> IO unit
}.

Definition hasBrowserbaseSkills (h : Host) (existsSync : jsstring -> bool)
  (root : option jsstring) : bool :=
  let targetRoot := default (defaultSkillsRoot h) root in
  forallb (fun dir => existsSync (path_join h [targetRoot; dir; js "SKILL.md"]))
    REQUIRED_SKILL_DIRS.

Definition installedSkillFiles (t : TarHost) (dir : jsstring) : IO (list jsstring) :=
  fun fs => (fs, Ok (listFiles t dir fs)).

Fixpoint spanSegment (s : jsstring) : jsstring * jsstring :=
  match s with
  | [] => ([], [])
  | c :: rest =>
      if c =? SLASH then ([], s)
      else let '(seg, after) := spanSegment rest in (c :: seg, after)
  end.

(** [entryPath.replace(/^[^/]+\//, ...)] with the empty replacement *)
Definition dropRootSegment (entryPath : jsstring) : jsstring :=
  match spanSegment entryPath with
  | (_ :: _, _ :: after) => after
  | _ => entryPath
  end.

Fixpoint startsWith (s prefix : jsstring) : bool :=
  match prefix, s with
  | [], _ => true
  | p :: prefix', c :: s' => (c =? p) && startsWith s' prefix'
  | _ :: _, [] => false
  end.

Definition entryFilter (entryPath : jsstring) : bool :=
  startsWith (dropRootSegment entryPath) SKILLS_SOURCE_PREFIX.

Definition emptyBodyMessage (url : jsstring) : jsstring :=
  js "Empty response body for " ++ url.

Definition nothingExtractedMessage : jsstring :=
  js "Tarball extracted zero files under the skills/ prefix.".

(** The [try] block: extract to the scratch directory, verify, swap. *)
Definition extractAndSwap (h : Host) (t : TarHost) (root r tmpDir archive : jsstring)
  : IO SkillSyncResult :=
  _ <-$ tar_x t tmpDir 2 entryFilter archive;
  extracted <-$ installedSkillFiles t tmpDir;
  match extracted with
  | [] => ioThrow nothingExtractedMessage
  | _ =>
      _ <-$ fsp_rm t root;
      _ <-$ fsp_mkdir t (path_dirname h root);
      _ <-$ fsp_rename t tmpDir root;
      written <-$ installedSkillFiles t root;
      ioRet (mkSyncResult root r written)
  end.

Definition syncBrowserbaseSkills (h : Host) (t : TarHost) (globalFetch : FetchImpl)
  (options : option SyncOptions) : IO SkillSyncResult :=
  let root := resolveSkillsRoot h (options ≫= targetRoot) in
  let r := normalizeRef (options ≫= ref) in
  call <-$ ioLift (selectFetch globalFetch options);
  let tarballUrl := TARBALL_BASE ++ js "/" ++ r in
  response <-$ ioLift (call tarballUrl);
  if negb (ok response) then ioThrow (httpErrorMessage (status response) tarballUrl)
  else
    match body response with
    | None => ioThrow (emptyBodyMessage tarballUrl)
    | Some archive =>
        tmpDir <-$ fsp_mkdtemp t (path_join h [os_tmpdir h; js "bb-skills-sync-"]);
        ioOnError (extractAndSwap h t root r tmpDir archive) (fsp_rm t tmpDir)
    end.

End Archive.

(** ** Records as objects that are updated *)

Definition isDigit (c : N) : bool := (48 <=? c) && (c <=? 57).

Fixpoint digitsValue (acc : N) (s : jsstring) : N :=
  match s with
  | [] => acc
  | c :: t => digitsValue (acc * 10 + (c - 48)) t
  end.

(** An array index: the canonical decimal text of an integer below
    [2^32 - 1].  The keys of an object list its array indices first, in
    ascending order, then its other string keys in creation order. *)
Definition arrayIndex (key : jsstring) : option N :=
  match key with
  | [] => None
  | c :: t =>
      if forallb isDigit key && (negb (c =? 48) || bool_decide (t = [])) then
        let v := digitsValue 0 key in
        if v <=? 4294967294 then Some v else None
      else None
  end.

Definition hasOwn (r : Record) (key : jsstring) : bool :=
  bool_decide (key ∈ Object_keys r).

(** Overwrite the value of a key that is present; the key keeps its place. *)
Fixpoint updateProp (r : Record) (key : jsstring) (v : JsValue) : Record :=
  match r with
  | [] => []
  | (k, w) :: rest =>
      if bool_decide (k = key) then (k, v) :: rest
      else (k, w) :: updateProp rest key v
  end.

(** Place a new array-index key after the smaller indices. *)
Fixpoint insertIndexed (i : N) (key : jsstring) (v : JsValue) (r : Record) : Record :=
  match r with
  | [] => [(key, v)]
  | (k, w) :: rest =>
      match arrayIndex k with
      | Some j => if j <? i then (k, w) :: insertIndexed i key v rest
                  else (key, v) :: r
      | None => (key, v) :: r
      end
  end.

(** The creation of a data property, and the assignment [r[key] = v] for
    a key that the prototype does not intercept. *)
Definition setProp (r : Record) (key : jsstring) (v : JsValue) : Record :=
  if hasOwn r key then updateProp r key v
  else
    match arrayIndex key with
    | Some i => insertIndexed i key v r
    | None => r ++ [(key, v)]
    end.

(** The spread [{...target, ...source}] onto an object that holds the
    properties of [target]: every own key of [source], in order, is read and
    defined on the result. *)
Definition spreadInto (target source : Record) : Record :=
  foldl (fun acc key => setProp acc key (getProp source key)) target (Object_keys source).

(** The assignment [r[key] = v] on an object that inherits from
    [Object.prototype]: for the key [__proto__], unless the object has a
    property of its own under that name, the inherited setter takes the
    value, and no property is created. *)
Definition assignProp (r : Record) (key : jsstring) (v : JsValue) : Record :=
  if bool_decide (key = js "__proto__") && negb (hasOwn r key) then r
  else setProp r key v.

(** ** config-store.ts: the JSON file and the shell export *)

(** [JSON.parse] and [JSON.stringify(value, null, 2)]. *)
Record JsonHost : Type := mkJsonHost {
  JSON_parse : jsstring -> Result JsValue;
  JSON_stringify : JsValue -> jsstring
}.

Definition ensureRecord (value : JsValue) : Record :=
  if isRecord value then asRecord value else [].

Definition expectedObjectMessage (filePath : jsstring) : jsstring :=
  js "Expected object at " ++ filePath.

Definition readJsonFile (f : FsHost) (j : JsonHost) (filePath : jsstring) : IO Record :=
  fun fs =>
    if negb (fs_existsSync f filePath fs) then (fs, Ok [])
    else
      match fs_readFileSync f filePath fs with
      | Throw message => (fs, Throw message)
      | Ok raw =>
          let trimmed := trim raw in
          match trimmed with
          | [] => (fs, Ok [])
          | _ =>
              match JSON_parse j trimmed with
              | Throw message => (fs, Throw message)
              | Ok parsed =>
                  if negb (isRecord parsed)
                  then (fs, Throw (expectedObjectMessage filePath))
                  else (fs, Ok (asRecord parsed))
              end
          end
      end.

Definition readPluginConfig (f : FsHost) (j : JsonHost) (filePath pluginId : jsstring)
  : IO Record :=
  root <-$ readJsonFile f j filePath;
  let plugins := ensureRecord (getProp root (js "plugins")) in
  let entries := ensureRecord (getProp plugins (js "entries")) in
  let pluginEntry := ensureRecord (getProp entries pluginId) in
  ioRet (ensureRecord (getProp pluginEntry (js "config"))).

(** [existingEntry.enabled !== false] *)
Definition notFalse (v : JsValue) : bool :=
  match v with
  | JsBoolean false => false
  | _ => true
  end.

(** The object written back by [writePluginConfig], from the object read. *)
Definition updatedRoot (root : Record) (pluginId : jsstring) (pluginConfig : Record)
  : Record :=
  let plugins := ensureRecord (getProp root (js "plugins")) in
  let entries := ensureRecord (getProp plugins (js "entries")) in
  let existingEntry := ensureRecord (getProp entries pluginId) in
  let existingConfig := ensureRecord (getProp existingEntry (js "config")) in
  let newEntry :=
    setProp
      (setProp (spreadInto [] existingEntry) (js "enabled")
         (JsBoolean (notFalse (getProp existingEntry (js "enabled")))))
      (js "config") (JsObject (spreadInto (spreadInto [] existingConfig) pluginConfig)) in
  let entries' := assignProp entries pluginId (JsObject newEntry) in
  let plugins' := assignProp plugins (js "entries") (JsObject entries') in
  assignProp root (js "plugins") (JsObject plugins').

(** The text of the file after the update. *)
Definition updatedText (j : JsonHost) (root : Record) (pluginId : jsstring)
  (pluginConfig : Record) : jsstring :=
  JSON_stringify j (JsObject (updatedRoot root pluginId pluginConfig)) ++ [LF].

Definition writePluginConfig (f : FsHost) (h : Host) (j : JsonHost)
  (filePath pluginId : jsstring) (pluginConfig : Record) : IO unit :=
  root <-$ readJsonFile f j filePath;
  _ <-$ fs_mkdirSync f (path_dirname h filePath);
  fs_writeFileSync f filePath (updatedText j root pluginId pluginConfig).

Definition shellEscape (value : jsstring) : jsstring :=
  [SQUOTE]
  ++ replaceAllUnit SQUOTE [SQUOTE; DQUOTE; SQUOTE; DQUOTE; SQUOTE] value
  ++ [SQUOTE].

(** How a POSIX shell reads a word made of quoted parts only: between
    single quotes every character stands for itself; between double quotes
    every character but the backslash, the dollar sign and the backquote
    does; the quotes themselves are removed.  A word outside this fragment
    is not read. *)
Inductive QuoteMode : Type := Unquoted | InSingle | InDouble.

Fixpoint shellReadFrom (mode : QuoteMode) (word : jsstring) : option jsstring :=
  match word with
  | [] => match mode with Unquoted => Some [] | _ => None end
  | c :: rest =>
      match mode with
      | Unquoted =>
          if c =? SQUOTE then shellReadFrom InSingle rest
          else if c =? DQUOTE then shellReadFrom InDouble rest
          else None
      | InSingle =>
          if c =? SQUOTE then shellReadFrom Unquoted rest
          else cons c <$> shellReadFrom InSingle rest
      | InDouble =>
          if c =? DQUOTE then shellReadFrom Unquoted rest
          else if (c =? BACKSLASH) || (c =? DOLLAR) || (c =? 96) then None
          else cons c <$> shellReadFrom InDouble rest
      end
  end.

Definition shellRead (word : jsstring) : option jsstring := shellReadFrom Unquoted word.

(** The revision with one default path. *)
Module Store.

Definition DEFAULT_CONFIG_PATH (h : Host) : jsstring :=
  path_join h [os_homedir h; js ".openclaw"; js "openclaw.json"].

Definition resolveConfigPath (h : Host) (explicitPath : option jsstring) : jsstring :=
  match explicitPath with
  | Some p =>
      match p, trim p with
      | _ :: _, (_ :: _) as trimmed => path_resolve h (process_cwd h) trimmed
      | _, _ => DEFAULT_CONFIG_PATH h
      end
  | None => DEFAULT_CONFIG_PATH h
  end.

End Store.

(** The revision that also looks for the legacy file. *)
Module CandidateStore.

Definition DEFAULT_CONFIG_CANDIDATES (h : Host) : list jsstring :=
  [ path_join h [os_homedir h; js ".openclaw"; js "openclaw.json"];
    path_join h [os_homedir h; js ".clawdbot"; js "clawdbot.json"] ].

(** [candidates.find(existsSync) ?? candidates[0]] *)
Definition resolveConfigPath (h : Host) (existsSync : jsstring -> bool)
  (explicitPath : option jsstring) : jsstring :=
  match explicitPath with
  | Some p =>
      match p, trim p with
      | _ :: _, (_ :: _) as trimmed => path_resolve h (process_cwd h) trimmed
      | _, _ =>
          default (default [] (head (DEFAULT_CONFIG_CANDIDATES h)))
            (find existsSync (DEFAULT_CONFIG_CANDIDATES h))
      end
  | None =>
      default (default [] (head (DEFAULT_CONFIG_CANDIDATES h)))
        (find existsSync (DEFAULT_CONFIG_CANDIDATES h))
  end.

End CandidateStore.

(** ** index.ts: the effective configuration and the credential prompt *)

Definition PLUGIN_ID : jsstring := js "browserbase".

Definition LEGACY_PLUGIN_IDS : list jsstring :=
  [PLUGIN_ID; js "clawd-plugin-browserbase"; js "openclaw-browserbase"].

(** Where a line of output goes: the logger of the host, the console, or
    the question of a prompt. *)
Inductive Channel : Type :=
  | LoggerInfo
  | LoggerWarn
  | ConsoleLog
  | Question.

Abbreviation Output := (list (Channel * jsstring)).

(** A computation that emits output and may throw. *)
Definition Logged (A : Type) : Type := Output * Result A.

Definition logRet {A} (a : A) : Logged A := ([], Ok a).

Definition logBind {A B} (m : Logged A) (k : A -> Logged B) : Logged B :=
  match m with
  | (out, Ok a) => let '(out', r) := k a in (out ++ out', r)
  | (out, Throw message) => (out, Throw message)
  end.

Notation "x <-@ m ; k" := (logBind m (fun x => k))
  (at level 100, m at next level, right associativity, only parsing).

Record PluginApi : Type := mkApi {
  api_pluginConfig : JsValue;
  api_config : JsValue
}.

Definition ignoringInvalidMessage (label message : jsstring) : jsstring :=
  js "browserbase: ignoring invalid " ++ label ++ js " (" ++ message ++ js ")".

Definition parseConfigSafe (env : Env) (raw : JsValue) (label : jsstring)
  : Logged BrowserbaseConfig :=
  match parseConfig env raw with
  | Ok cfg => ([], Ok cfg)
  | Throw message =>
      ([(LoggerWarn, ignoringInvalidMessage label message)],
       parseConfig env (JsObject []))
  end.

(** The [for ... of LEGACY_PLUGIN_IDS] loop with its early return. *)
Fixpoint firstLegacyConfig (entries : Record) (ids : list jsstring) : JsValue :=
  match ids with
  | [] => JsObject []
  | pluginId :: rest =>
      let entry := getProp entries pluginId in
      if isRecord entry && isRecord (getProp (asRecord entry) (js "config"))
      then getProp (asRecord entry) (js "config")
      else firstLegacyConfig entries rest
  end.

Definition readLegacyPluginConfig (api : PluginApi) : JsValue :=
  let root := api_config api in
  if negb (isRecord root) then JsObject []
  else
    let plugins := ensureRecord (getProp (asRecord root) (js "plugins")) in
    let entries := ensureRecord (getProp plugins (js "entries")) in
    firstLegacyConfig entries LEGACY_PLUGIN_IDS.

Definition unableToReadMessage (configPath message : jsstring) : jsstring :=
  js "browserbase: unable to read " ++ configPath ++ js " (" ++ message ++ js ")".

(** [try { rawFileConfig = readPluginConfig(...) } catch { logger.warn(...) }] *)
Definition readFileConfig (f : FsHost) (j : JsonHost) (configPath : jsstring)
  (fs : Files) : Logged Record :=
  match snd (readPluginConfig f j configPath PLUGIN_ID fs) with
  | Ok rawFileConfig => ([], Ok rawFileConfig)
  | Throw message => ([(LoggerWarn, unableToReadMessage configPath message)], Ok [])
  end.

(** The revision that syncs skills: the runtime configuration is the plugin
    configuration of the host. *)
Module Plugin.

Definition runtimeConfig (env : Env) (api : PluginApi) : Logged BrowserbaseConfig :=
  parseConfigSafe env (api_pluginConfig api) (js "pluginConfig").

Definition loadMergedConfig (f : FsHost) (h : Host) (j : JsonHost) (env : Env)
  (api : PluginApi) (fs : Files) (explicitPath : option jsstring)
  : jsstring * Logged BrowserbaseConfig :=
  let configPath := Store.resolveConfigPath h explicitPath in
  (configPath,
   fromRuntime <-@ runtimeConfig env api;
   rawFileConfig <-@ readFileConfig f j configPath fs;
   fromFile <-@ parseConfigSafe env (JsObject rawFileConfig) (js "file " ++ configPath);
   logRet (mergeConfig fromRuntime fromFile)).

End Plugin.

(** The revision with legacy compatibility: the runtime configuration merges
    the plugin configuration over the legacy one. *)
Module LegacyPlugin.

Definition runtimeConfig (env : Env) (api : PluginApi) : Logged BrowserbaseConfig :=
  fromPluginConfig <-@ parseConfigSafe env (api_pluginConfig api) (js "pluginConfig");
  fromLegacyConfig <-@ parseConfigSafe env (readLegacyPluginConfig api) (js "legacy config");
  logRet (mergeConfig fromPluginConfig fromLegacyConfig).

Definition loadMergedConfig (f : FsHost) (h : Host) (j : JsonHost) (env : Env)
  (api : PluginApi) (fs : Files) (explicitPath : option jsstring)
  : jsstring * Logged BrowserbaseConfig :=
  let configPath :=
    CandidateStore.resolveConfigPath h (fun p => fs_existsSync f p fs) explicitPath in
  (configPath,
   fromRuntime <-@ runtimeConfig env api;
   rawFileConfig <-@ readFileConfig f j configPath fs;
   fromFile <-@ parseConfigSafe env (JsObject rawFileConfig) (js "file " ++ configPath);
   logRet (mergeConfig fromRuntime fromFile)).

End LegacyPlugin.

(** [input || fallback] for a string and an optional string. *)
Definition orElse (input : jsstring) (fallback : option jsstring) : option jsstring :=
  match input with
  | [] => fallback
  | _ :: _ => Some input
  end.

Definition setupCancelledMessage : jsstring :=
  LF :: js "Setup cancelled: both API key and project ID are required.".

Definition apiKeyQuestion (defaultApiKey : option jsstring) : jsstring :=
  if isFalsy defaultApiKey then js "Browserbase API key: "
  else js "Browserbase API key [" ++ maskSecret defaultApiKey ++ js "]: ".

Definition projectIdQuestion (defaultProjectId : option jsstring) : jsstring :=
  if isFalsy defaultProjectId then js "Browserbase project ID: "
  else js "Browserbase project ID [" ++ default [] defaultProjectId ++ js "]: ".

(** The prompt for the two credentials; [ask] is the person at the
    terminal, from the question to the line typed. *)
Definition promptAndPersistCredentials (f : FsHost) (h : Host) (j : JsonHost)
  (ask : jsstring -> jsstring) (configPath : jsstring)
  (defaultApiKey defaultProjectId : option jsstring)
  (printHeader : bool) (fs : Files) : Files * Logged bool :=
  let header :=
    if printHeader
    then [(ConsoleLog, LF :: js "Browserbase setup" ++ [LF]);
          (ConsoleLog, js "Get credentials from https://browserbase.com/settings" ++ [LF])]
    else [] in
  let apiKeyInput := trim (ask (apiKeyQuestion defaultApiKey)) in
  let projectIdInput := trim (ask (projectIdQuestion defaultProjectId)) in
  let asked :=
    header ++ [(Question, apiKeyQuestion defaultApiKey);
               (Question, projectIdQuestion defaultProjectId)] in
  let apiKey := orElse apiKeyInput defaultApiKey in
  let projectId := orElse projectIdInput defaultProjectId in
  if isFalsy apiKey || isFalsy projectId
  then (fs, (asked ++ [(ConsoleLog, setupCancelledMessage)], Ok false))
  else
    match writePluginConfig f h j configPath PLUGIN_ID
            [(js "apiKey", JsString (default [] apiKey));
             (js "projectId", JsString (default [] projectId))] fs with
    | (fs', Throw message) => (fs', (asked, Throw message))
    | (fs', Ok _) =>
        (fs',
         (asked ++
            [(ConsoleLog, LF :: js "Saved Browserbase credentials to " ++ configPath);
             (ConsoleLog, js "Restart OpenClaw to apply updated plugin config." ++ [LF])],
          Ok true))
    end.

(** ** skills-sync.ts: the listing of the installed files *)

Module Walk.

(** What lies at a path: something that is not a directory, a directory
    that [readdirSync] refuses to list, or a directory with its entries in
    the order [readdirSync] lists them. *)
Inductive DirTree : Type :=
  | NotDirectory
  | Unreadable
  | Directory (entries : list (jsstring * DirTree)).

(** The recursive [walk]: the paths pushed on [files], in the order pushed.
    A path that cannot be listed contributes nothing. *)
Fixpoint walk (h : Host) (dir : jsstring) (node : DirTree) : list jsstring :=
  match node with
  | Directory entries =>
      (fix each (es : list (jsstring * DirTree)) : list jsstring :=
         match es with
         | [] => []
         | (name, child) :: rest =>
             let full := path_join h [dir; name] in
             match child with
             | NotDirectory => [full]
             | _ => walk h full child
             end ++ each rest
         end) entries
  | _ => []
  end.

(** The order of the default [sort]: strings compared code unit by code
    unit, a proper prefix before its extensions. *)
Fixpoint strLeb (a b : jsstring) : bool :=
  match a, b with
  | [], _ => true
  | _ :: _, [] => false
  | x :: a', y :: b' =>
      if x <? y then true else if y <? x then false else strLeb a' b'
  end.

Fixpoint insertSorted (x : jsstring) (l : list jsstring) : list jsstring :=
  match l with
  | [] => [x]
  | y :: rest => if strLeb x y then x :: l else y :: insertSorted x rest
  end.

(** [files.sort()] *)
Definition sortStrings (l : list jsstring) : list jsstring := foldr insertSorted [] l.

(** [installedSkillFiles(targetRoot)], from what lies at [targetRoot], if
    anything. *)
Definition installedSkillFiles (h : Host) (targetRoot : jsstring)
  (node : option DirTree) : list jsstring :=
  sortStrings (match node with
               | Some tree => walk h targetRoot tree
               | None => []
               end).

(** The paths of the entries beneath a directory that are not directories
    themselves: an entry of the directory, joined to its path, or such a path
    beneath one of its subdirectories. *)
Inductive Listed (h : Host) : jsstring -> DirTree -> jsstring -> Prop :=
  | listed_entry (dir : jsstring) (entries : list (jsstring * DirTree)) (name : jsstring) :
      (name, NotDirectory) ∈ entries ->
      Listed h dir (Directory entries) (path_join h [dir; name])
  | listed_below (dir : jsstring) (entries : list (jsstring * DirTree)) (name : jsstring)
      (child : DirTree) (p : jsstring) :
      (name, child) ∈ entries ->
      Listed h (path_join h [dir; name]) child p ->
      Listed h dir (Directory entries) p.

(** The order of code units, said without the comparison function: [a] is
    a prefix of [b], or where the two first differ the unit of [a] is the
    smaller one. *)
Definition codeUnitLe (a b : jsstring) : Prop :=
  a `prefix_of` b \/
  exists common x y ta tb, a = common ++ x :: ta /\ b = common ++ y :: tb /\ x < y.

(** The entries beneath a node that are not directories. *)
Fixpoint countFiles (node : DirTree) : nat :=
  match node with
  | Directory entries =>
      (fix each (es : list (jsstring * DirTree)) : nat :=
         match es with
         | [] => O
         | (_, child) :: rest =>
             (match child with
              | NotDirectory => 1
              | _ => countFiles child
              end + each rest)%nat
         end) entries
  | _ => O
  end.

End Walk.

(** ** Sample inputs *)

(** A process without environment variables, and one with a single
    variable. *)
Definition noEnv : Env := processEnv (fun _ => None).

Definition envWith (name value : jsstring) : Env :=
  processEnv (fun k => if bool_decide (k = name) then Some value else None).

(** The part of a path before its last slash, if it has one. *)
Fixpoint beforeLastSlash (p : jsstring) : option jsstring :=
  match p with
  | [] => None
  | c :: t =>
      match beforeLastSlash t with
      | Some d => Some (c :: d)
      | None => if c =? 47 then Some [] else None
      end
  end.

Definition posixDirname (p : jsstring) : jsstring :=
  match beforeLastSlash p with
  | Some [] => js "/"
  | Some d => d
  | None => js "."
  end.

(** A host whose [path.join] glues its arguments with slashes. *)
Definition sampleHost : Host :=
  {| path_join := join (js "/");
     path_resolve := fun _ p => p;
     path_dirname := posixDirname;
     os_homedir := js "/home/user";
     os_tmpdir := js "/tmp";
     process_cwd := js "/work";
     process_pid := 4242;
     Date_now := fun n => 1700000000000 + N.of_nat n |}.

(** A remote that serves the first skill file and answers 404 for every
    other URL. *)
Definition firstSkillUrl : jsstring :=
  js "https://raw.githubusercontent.com/browserbase/skills/main/skills/browser-automation/SKILL.md".

Definition secondSkillUrl : jsstring :=
  js "https://raw.githubusercontent.com/browserbase/skills/main/skills/browser-automation/EXAMPLES.md".

Definition secondSkillFile : PerFile.SkillFile :=
  PerFile.mkSkillFile (js "skills/browser-automation/EXAMPLES.md")
    (js "browser-automation/EXAMPLES.md").

Definition flakyFetch (url : jsstring) : Result Response :=
  if bool_decide (url = firstSkillUrl)
  then Ok (mkResponse true 200 (js "# skill content") None)
  else Ok (mkResponse false 404 [] None).

Definition flakyOptions : option SyncOptions :=
  Some (mkOptions (Some (js "/skills")) None (Some (FetchFunction flakyFetch))).

(** A file system in memory.  The root and the current directory always
    exist; a file is written where its parent is a directory; [mkdir]
    creates the missing directories of a path and refuses when a regular file
    is in the way; only regular files are renamed. *)
Fixpoint ancestorsFrom (fuel : nat) (p : jsstring) : list jsstring :=
  match fuel with
  | O => []
  | S fuel' =>
      if bool_decide (p = js "/") || bool_decide (p = js ".") then []
      else p :: ancestorsFrom fuel' (posixDirname p)
  end.

Definition isRegularAt (fs : Files) (p : jsstring) : bool :=
  match fs !! p with
  | Some (RegularFile _) => true
  | _ => false
  end.

Definition isDirectoryAt (fs : Files) (p : jsstring) : bool :=
  bool_decide (p = js "/") || bool_decide (p = js ".")
  || match fs !! p with
     | Some DirectoryNode => true
     | _ => false
     end.

Definition memExists (p : jsstring) (fs : Files) : bool :=
  bool_decide (is_Some (fs !! p)).

Definition memRead (p : jsstring) (fs : Files) : Result jsstring :=
  match fs !! p with
  | Some (RegularFile content) => Ok content
  | Some DirectoryNode => Throw (js "EISDIR: illegal operation on a directory, read")
  | None => Throw (js "ENOENT: no such file or directory, open " ++ p)
  end.

Definition memMkdir (dir : jsstring) : IO unit :=
  fun fs =>
    if existsb (isRegularAt fs) (ancestorsFrom (length dir) dir)
    then (fs, Throw (js "EEXIST: file already exists, mkdir " ++ dir))
    else (foldr (fun a acc => <[a := DirectoryNode]> acc) fs
            (ancestorsFrom (length dir) dir), Ok tt).

Definition memWrite (p content : jsstring) : IO unit :=
  fun fs =>
    match fs !! p with
    | Some DirectoryNode =>
        (fs, Throw (js "EISDIR: illegal operation on a directory, open " ++ p))
    | _ =>
        if isDirectoryAt fs (posixDirname p)
        then (<[p := RegularFile (toWellFormed content)]> fs, Ok tt)
        else (fs, Throw (js "ENOENT: no such file or directory, open " ++ p))
    end.

Definition memRename (from to : jsstring) : IO unit :=
  fun fs =>
    match fs !! from with
    | Some (RegularFile content) =>
        match fs !! to with
        | Some DirectoryNode =>
            (fs, Throw (js "EISDIR: illegal operation on a directory, rename " ++ from))
        | _ =>
            if isDirectoryAt fs (posixDirname to)
            then (<[to := RegularFile content]> (delete from fs), Ok tt)
            else (fs, Throw (js "ENOENT: no such file or directory, rename " ++ from))
        end
    | Some DirectoryNode =>
        (fs, Throw (js "EPERM: operation not permitted, rename " ++ from))
    | None => (fs, Throw (js "ENOENT: no such file or directory, rename " ++ from))
    end.

Definition memFs : FsHost :=
  {| fs_existsSync := memExists;
     fs_readFileSync := memRead;
     fs_mkdirSync := memMkdir;
     fs_writeFileSync := memWrite;
     fsp_mkdir := memMkdir;
     fsp_writeFile := memWrite;
     fsp_rename := memRename |}.

Definition sampleTarHost : Archive.TarHost :=
  {| Archive.fsp_mkdtemp := fun prefix => ioRet (prefix ++ js "abc123");
     Archive.tar_x := fun _ _ _ _ => ioRet tt;
     Archive.listFiles := fun _ _ => [];
     Archive.fsp_rm := fun _ => ioRet tt;
     Archive.fsp_mkdir := fun _ => ioRet tt;
     Archive.fsp_rename := fun _ _ => ioRet tt |}.

(** A source leaves a credential field without a usable string: the field
    is missing or not a string, is blank, or holds an unresolved
    placeholder. *)
Definition credentialAbsent (env : Env) (v : JsValue) : Prop :=
  match v with
  | JsString s => trim s = [] \/ unresolved env s
  | _ => True
  end.

(** A source configures [baseUrl] explicitly: a string that is not blank. *)
Definition baseUrlConfigured (r : Record) : Prop :=
  exists s, getProp r (js "baseUrl") = JsString s /\ trim s <> [].

Definition API_KEY_VAR : jsstring := js "BROWSERBASE_API_KEY".
Definition PROJECT_ID_VAR : jsstring := js "BROWSERBASE_PROJECT_ID".
Definition CONFIG_LABEL : jsstring := js "browserbase config".

Definition typoRecord : Record :=
  [(js "apiKey", JsString (js "bb_key")); (js "nope", JsBoolean true)].

Definition fallbackUrlRecord : Record :=
  [(js "baseUrl", JsString (js "https://fallback.example.com"))].

Definition placeholderKeyRecord : Record :=
  [(js "apiKey", JsString (js "${BROWSERBASE_API_KEY}"))].


(** The configuration of the environment alone: what [parseConfig] makes
    of the empty record. *)
Definition envDefaults (env : Env) : BrowserbaseConfig :=
  {| apiKey := env API_KEY_VAR;
     projectId := env PROJECT_ID_VAR;
     baseUrl := DEFAULT_BASE_URL;
     promptOnStart := None;
     autoSyncSkills := None |}.

(** The configuration that [parseConfigSafe] settles on. *)
Definition parsedOrDefaults (env : Env) (raw : JsValue) : BrowserbaseConfig :=
  match parseConfig env raw with
  | Ok cfg => cfg
  | Throw _ => envDefaults env
  end.

(** The record that [loadMergedConfig] takes from the file. *)
Definition fileRecord (f : FsHost) (j : JsonHost) (configPath : jsstring) (fs : Files)
  : Record :=
  match snd (readPluginConfig f j configPath PLUGIN_ID fs) with
  | Ok r => r
  | Throw _ => []
  end.

(** An entry of the legacy configuration that can be used: an object whose
    [config] is an object. *)
Definition usableEntry (entries : Record) (pluginId : jsstring) (cfg : Record) : Prop :=
  exists entry, getProp entries pluginId = JsObject entry /\
                getProp entry (js "config") = JsObject cfg.

Definition storedRoot : Record :=
  [ (js "gateway", JsObject [(js "url", JsString (js "https://example.com"))]);
    (js "plugins",
     JsObject
       [(js "entries",
         JsObject
           [(PLUGIN_ID,
             JsObject
               [(js "enabled", JsBoolean false);
                (js "config",
                 JsObject
                   [(js "apiKey", JsString (js "bb_key_1"));
                    (js "projectId", JsString (js "proj_1"));
                    (js "baseUrl", JsString (js "https://file.example.com"))])])])]) ].

Definition newCredentials : Record := [(js "apiKey", JsString (js "bb_key_2"))].

(** A host whose parser knows three texts: the stored file, the file after
    [newCredentials] were written, and an array. *)
Definition sampleJson : JsonHost :=
  {| JSON_parse := fun text =>
       if bool_decide (text = js "{stored}") then Ok (JsObject storedRoot)
       else if bool_decide (text = js "{updated}")
            then Ok (JsObject (updatedRoot storedRoot PLUGIN_ID newCredentials))
            else if bool_decide (text = js "[1]") then Ok (JsArray [JsNumber 1])
                 else Throw (js "Unexpected token");
     JSON_stringify := fun _ => js "{updated}" |}.

Definition configFile : jsstring := js "/home/user/.openclaw/openclaw.json".

Definition homeTree : Files :=
  <[js "/home/user/.openclaw" := DirectoryNode]>
    (<[js "/home/user" := DirectoryNode]> (<[js "/home" := DirectoryNode]> ∅)).

Definition storedFiles : Files := <[configFile := RegularFile (js "{stored}")]> homeTree.

Definition arrayFiles : Files := <[configFile := RegularFile (js "[1]")]> homeTree.

(** A regular file stands where a directory of the skills is meant to
    be. *)
Definition blockedSkills : Files :=
  <[js "/skills/browser-automation" := RegularFile (js "not a directory")]>
    (<[js "/skills" := DirectoryNode]> ∅).

(** A regular file stands where the directory of the configuration file is
    meant to be. *)
Definition blockedFiles : Files :=
  <[js "/home/user/.openclaw" := RegularFile (js "not a directory")]>
    (<[js "/home/user" := DirectoryNode]> (<[js "/home" := DirectoryNode]> ∅)).

Definition legacyApi : PluginApi :=
  {| api_pluginConfig := JsUndefined;
     api_config :=
       JsObject
         [(js "plugins",
           JsObject
             [(js "entries",
               JsObject
                 [(js "openclaw-browserbase",
                   JsObject [(js "config", JsObject [(js "apiKey", JsString (js "bb_third"))])]);
                  (js "clawd-plugin-browserbase",
                   JsObject [(js "config", JsObject [(js "apiKey", JsString (js "bb_second"))])]);
                  (PLUGIN_ID, JsObject [(js "config", JsString (js "not an object"))])])])] |}.

(** Someone who types a new API key, with blanks around it, and presses
    enter at the second question. *)
Definition typist (question : jsstring) : jsstring :=
  if bool_decide (question = js "Browserbase API key [********]: ")
  then js "  bb_key_2 "
  else [].

(** A remote that serves every skill file. *)
Definition steadyFetch (url : jsstring) : Result Response :=
  Ok (mkResponse true 200 (js "# skill content") None).

Definition steadyOptions : option SyncOptions :=
  Some (mkOptions (Some (js "/skills")) (Some (js " v1.2.3 ")) (Some (FetchFunction steadyFetch))).

(** A remote that serves the first skill file and a blank page for every
    other URL. *)
Definition blankFetch (url : jsstring) : Result Response :=
  if bool_decide (url = firstSkillUrl)
  then Ok (mkResponse true 200 (js "# skill content") None)
  else Ok (mkResponse true 200 (js "   ") None).

Definition blankOptions : option SyncOptions :=
  Some (mkOptions (Some (js "/skills")) None (Some (FetchFunction blankFetch))).

(** A remote that serves an archive. *)
Definition archiveFetch (url : jsstring) : Result Response :=
  Ok (mkResponse true 200 [] (Some (js "tarball"))).

Definition archiveOptions : option SyncOptions :=
  Some (mkOptions (Some (js "/skills")) None (Some (FetchFunction archiveFetch))).

Definition skillsTree : Walk.DirTree :=
  Walk.Directory
    [(js "functions", Walk.Directory [(js "SKILL.md", Walk.NotDirectory)]);
     (js "empty", Walk.Directory []);
     (js "browser",
      Walk.Directory [(js "SKILL.md", Walk.NotDirectory);
                      (js "EXAMPLES.md", Walk.NotDirectory)])].


(** * Properties *)

(** ** Strings *)

Lemma occursIn_refl (s : jsstring) : occursIn s s.
Proof. exists [], []. by rewrite app_nil_r. Qed.

Lemma occursIn_app_r (k a b : jsstring) : occursIn k b -> occursIn k (a ++ b).
Proof.
  intros (pre & post & ->). exists (a ++ pre), post. by rewrite <- app_assoc.
Qed.

Lemma occursIn_app_l (k a b : jsstring) : occursIn k a -> occursIn k (a ++ b).
Proof.
  intros (pre & post & ->). exists pre, (post ++ b). by rewrite <- !app_assoc.
Qed.

Lemma join_occurs (sep : jsstring) (xs : list jsstring) (k : jsstring) :
  k ∈ xs -> occursIn k (join sep xs).
Proof.
  induction xs as [|x rest IH]; intros Hk.
  - by apply elem_of_nil in Hk.
  - destruct rest as [|y rest'].
    + apply list_elem_of_singleton in Hk as ->. apply occursIn_refl.
    + change (join sep (x :: y :: rest')) with (x ++ sep ++ join sep (y :: rest')).
      apply elem_of_cons in Hk as [-> | Hk].
      * apply occursIn_app_l, occursIn_refl.
      * do 2 apply occursIn_app_r. by apply IH.
Qed.

(** ** Placeholder resolution *)

Lemma spanName_app (s name rest : jsstring) :
  spanName s = (name, rest) -> s = name ++ rest /\ RBRACE ∉ name.
Proof.
  revert name rest. induction s as [|c t IH]; intros name rest; simpl.
  - intros [= <- <-]. split; [done | apply not_elem_of_nil].
  - destruct (N.eqb_spec c RBRACE) as [-> | Hc].
    + intros [= <- <-]. split; [done | apply not_elem_of_nil].
    + destruct (spanName t) as [n r] eqn:E. intros [= <- <-].
      destruct (IH _ _ eq_refl) as [-> Hn]. split; [done |].
      rewrite not_elem_of_cons. split; [congruence | done].
Qed.

Lemma spanName_stop (s name rest : jsstring) (c : N) :
  spanName s = (name, c :: rest) -> c = RBRACE.
Proof.
  revert name. induction s as [|x t IH]; intros name; simpl.
  - intros [=].
  - destruct (N.eqb_spec x RBRACE) as [-> | Hx].
    + by intros [= <- <- <-].
    + destruct (spanName t) as [n r] eqn:E. intros [= <- ->]. by eapply IH.
Qed.

(** A match is the text [${name}] with a non-empty name free of closing
    braces, and leaves a strictly shorter remainder. *)
Lemma matchPlaceholder_shape (s name rest : jsstring) :
  matchPlaceholder s = Some (name, rest) ->
  s = DOLLAR :: LBRACE :: name ++ RBRACE :: rest /\ name <> [] /\ RBRACE ∉ name.
Proof.
  unfold matchPlaceholder. destruct s as [|c1 [|c2 t]]; try done.
  destruct (N.eqb_spec c1 DOLLAR) as [-> | ?]; [| done].
  destruct (N.eqb_spec c2 LBRACE) as [-> | ?]; [| done]. simpl.
  destruct (spanName t) as [[|n0 n] [|c3 r]] eqn:E; try done.
  intros [= <- <-].
  pose proof (spanName_stop _ _ _ _ E) as ->.
  destruct (spanName_app _ _ _ E) as [-> Hn]. split_and!; done.
Qed.

Lemma matchPlaceholder_shorter (s name rest : jsstring) :
  matchPlaceholder s = Some (name, rest) -> (length rest < length s)%nat.
Proof.
  intros H. destruct (matchPlaceholder_shape _ _ _ H) as (-> & _ & _).
  simpl. rewrite length_app. simpl. lia.
Qed.

(** Conversely, the text [${name}] at the head of a string is a match. *)
Lemma spanName_complete (name rest : jsstring) :
  RBRACE ∉ name -> spanName (name ++ RBRACE :: rest) = (name, RBRACE :: rest).
Proof.
  induction name as [|c n IH]; intros Hn; simpl.
  - by rewrite ?N.eqb_refl.
  - apply not_elem_of_cons in Hn as [Hc Hn].
    destruct (N.eqb_spec c RBRACE) as [-> | _]; [done |]. by rewrite IH.
Qed.

Lemma matchPlaceholder_complete (name rest : jsstring) :
  name <> [] -> RBRACE ∉ name ->
  matchPlaceholder (DOLLAR :: LBRACE :: name ++ RBRACE :: rest) = Some (name, rest).
Proof.
  intros Hne Hn. unfold matchPlaceholder. rewrite !N.eqb_refl. simpl.
  rewrite spanName_complete by done. by destruct name.
Qed.

(** Enough fuel: any two budgets of at least [length s] steps agree. *)
Lemma resolveFrom_fuel (env : Env) (f1 f2 : nat) (s : jsstring) :
  (length s <= f1)%nat -> (length s <= f2)%nat ->
  resolveFrom env f1 s = resolveFrom env f2 s.
Proof.
  revert f2 s. induction f1 as [|f1 IH]; intros f2 s H1 H2.
  - destruct s; [| simpl in H1; lia]. by destruct f2.
  - destruct f2 as [|f2].
    + destruct s; [done | simpl in H2; lia].
    + simpl. destruct s as [|c t]; [done |].
      destruct (matchPlaceholder (c :: t)) as [[name rest]|] eqn:E.
      * apply matchPlaceholder_shorter in E. simpl in *.
        rewrite (IH f2 rest) by lia. done.
      * simpl in *. rewrite (IH f2 t) by lia. done.
Qed.

Lemma placeholdersFrom_fuel (f1 f2 : nat) (s : jsstring) :
  (length s <= f1)%nat -> (length s <= f2)%nat ->
  placeholdersFrom f1 s = placeholdersFrom f2 s.
Proof.
  revert f2 s. induction f1 as [|f1 IH]; intros f2 s H1 H2.
  - destruct s; [| simpl in H1; lia]. by destruct f2.
  - destruct f2 as [|f2].
    + destruct s; [done | simpl in H2; lia].
    + simpl. destruct s as [|c t]; [done |].
      destruct (matchPlaceholder (c :: t)) as [[name rest]|] eqn:E.
      * apply matchPlaceholder_shorter in E. simpl in *.
        rewrite (IH f2 rest) by lia. done.
      * simpl in *. rewrite (IH f2 t) by lia. done.
Qed.

(** The equations of the global replace. *)
Lemma resolveEnvVars_nil (env : Env) : resolveEnvVars env [] = Ok [].
Proof. done. Qed.

Lemma resolveEnvVars_match (env : Env) (s name rest : jsstring) :
  matchPlaceholder s = Some (name, rest) ->
  resolveEnvVars env s =
  bindR (lookupEnvVar env name) (fun v => mapR (app v) (resolveEnvVars env rest)).
Proof.
  intros E. unfold resolveEnvVars. pose proof (matchPlaceholder_shorter _ _ _ E) as Hlt.
  destruct s as [|c t]; [done |]. cbn [length resolveFrom]. rewrite E.
  rewrite (resolveFrom_fuel env (length t) (length rest) rest); [done | | done].
  simpl in Hlt. lia.
Qed.

Lemma resolveEnvVars_skip (env : Env) (c : N) (t : jsstring) :
  matchPlaceholder (c :: t) = None ->
  resolveEnvVars env (c :: t) = mapR (cons c) (resolveEnvVars env t).
Proof.
  intros E. unfold resolveEnvVars. cbn [length resolveFrom]. by rewrite E.
Qed.

Lemma placeholders_match (s name rest : jsstring) :
  matchPlaceholder s = Some (name, rest) ->
  placeholders s = name :: placeholders rest.
Proof.
  intros E. unfold placeholders. pose proof (matchPlaceholder_shorter _ _ _ E) as Hlt.
  destruct s as [|c t]; [done |]. cbn [length placeholdersFrom]. rewrite E.
  rewrite (placeholdersFrom_fuel (length t) (length rest) rest); [done | | done].
  simpl in Hlt. lia.
Qed.

Lemma placeholders_skip (c : N) (t : jsstring) :
  matchPlaceholder (c :: t) = None -> placeholders (c :: t) = placeholders t.
Proof.
  intros E. unfold placeholders. cbn [length placeholdersFrom]. by rewrite E.
Qed.

Lemma lookupEnvVar_set (env : Env) (name : jsstring) :
  isSet env name = true -> exists v, env name = Some v /\ v <> [] /\ lookupEnvVar env name = Ok v.
Proof.
  unfold isSet, lookupEnvVar. destruct (env name) as [[|c v]|]; try done.
  intros _. by exists (c :: v).
Qed.

Lemma lookupEnvVar_unset (env : Env) (name : jsstring) :
  isSet env name = false -> lookupEnvVar env name = Throw (envNotSetMessage name).
Proof.
  unfold isSet, lookupEnvVar. by destruct (env name) as [[|c v]|].
Qed.

(** Resolution succeeds exactly when every placeholder names a set,
    non-empty variable; otherwise it throws for the first one that does not. *)
Lemma resolveFrom_ok (env : Env) (fuel : nat) (s : jsstring) :
  Forall (fun n => isSet env n = true) (placeholdersFrom fuel s) ->
  exists v, resolveFrom env fuel s = Ok v.
Proof.
  revert s. induction fuel as [|fuel IH]; intros s Hall; simpl in *; [by eexists |].
  destruct s as [|c t]; [by eexists |].
  destruct (matchPlaceholder (c :: t)) as [[name rest]|].
  - apply Forall_cons in Hall as [Hn Hrest].
    destruct (lookupEnvVar_set _ _ Hn) as (v & _ & _ & ->).
    destruct (IH _ Hrest) as [w ->]. by eexists.
  - destruct (IH _ Hall) as [w ->]. by eexists.
Qed.

Lemma resolveFrom_throw (env : Env) (fuel : nat) (s : jsstring) :
  Exists (fun n => isSet env n = false) (placeholdersFrom fuel s) ->
  exists name, name ∈ placeholdersFrom fuel s /\ isSet env name = false /\
               resolveFrom env fuel s = Throw (envNotSetMessage name).
Proof.
  revert s. induction fuel as [|fuel IH]; intros s Hex; simpl in *.
  - by apply Exists_nil in Hex.
  - destruct s as [|c t]; [by apply Exists_nil in Hex |].
    destruct (matchPlaceholder (c :: t)) as [[name rest]|].
    + destruct (isSet env name) eqn:Hn.
      * apply Exists_cons in Hex as [Hex | Hex]; [congruence |].
        destruct (IH _ Hex) as (n & Hin & Hun & ->).
        destruct (lookupEnvVar_set _ _ Hn) as (v & _ & _ & ->).
        exists n. split; [apply elem_of_cons; by right | done].
      * exists name. split; [apply elem_of_cons; by left |]. split; [done |].
        by rewrite lookupEnvVar_unset.
    + destruct (IH _ Hex) as (n & Hin & Hun & ->). by exists n.
Qed.

Lemma resolveEnvVars_unresolved (env : Env) (s : jsstring) :
  unresolved env s ->
  exists name, name ∈ placeholders s /\ isSet env name = false /\
               resolveEnvVars env s = Throw (envNotSetMessage name).
Proof.
  intros (n & Hin & Hn). apply resolveFrom_throw, Exists_exists. by exists n.
Qed.

Lemma resolveEnvVars_resolved (env : Env) (s : jsstring) :
  ~ unresolved env s -> exists v, resolveEnvVars env s = Ok v.
Proof.
  intros Hno. apply resolveFrom_ok, Forall_forall. intros n Hin.
  destruct (isSet env n) eqn:E; [done |]. exfalso. apply Hno. by exists n.
Qed.

(** Trimming removes white space only, and white space neither starts nor
    ends a placeholder: a string and its trimmed form hold the same
    placeholders. *)
Lemma trimStart_split (s : jsstring) :
  exists lead, s = lead ++ trimStart s /\ blank lead.
Proof.
  induction s as [|c t (lead & Ht & Hlead)]; simpl.
  - exists []. by split; [| constructor].
  - destruct (isWhiteSpace c) eqn:Hc.
    + exists (c :: lead). split; [simpl; by rewrite <- Ht | by constructor].
    + exists []. by split; [| constructor].
Qed.

Lemma trim_split (s : jsstring) :
  exists lead trail, s = lead ++ trim s ++ trail /\ blank lead /\ blank trail.
Proof.
  destruct (trimStart_split s) as (lead & Hs & Hlead).
  destruct (trimStart_split (rev (trimStart s))) as (tail & Hr & Htail).
  exists lead, (rev tail). split_and!; [| done | by apply Forall_rev].
  unfold trim, trimEnd. rewrite <- rev_app_distr, <- Hr, rev_involutive. done.
Qed.

Lemma spanName_blank (trail : jsstring) :
  blank trail -> spanName trail = (trail, []).
Proof.
  induction 1 as [|c trail Hc _ IH]; simpl; [done |].
  destruct (N.eqb_spec c RBRACE) as [-> | _]; [discriminate Hc |]. by rewrite IH.
Qed.

Lemma spanName_app_blank (t trail : jsstring) :
  blank trail ->
  spanName (t ++ trail) =
  match spanName t with
  | (name, []) => (name ++ trail, [])
  | (name, rest) => (name, rest ++ trail)
  end.
Proof.
  intros Hb. induction t as [|c t IH]; simpl; [by apply spanName_blank |].
  destruct (c =? RBRACE); [done |].
  rewrite IH. by destruct (spanName t) as [n [|x r]].
Qed.

Lemma matchPlaceholder_app_blank (c : N) (t trail : jsstring) :
  blank trail ->
  matchPlaceholder (c :: t ++ trail) =
  match matchPlaceholder (c :: t) with
  | Some (name, rest) => Some (name, rest ++ trail)
  | None => None
  end.
Proof.
  intros Hb. destruct t as [|c2 t].
  - destruct Hb as [|w trail Hw _]; [done |]. simpl.
    destruct (N.eqb_spec w LBRACE) as [-> | _]; [discriminate Hw |].
    by rewrite andb_false_r.
  - simpl. destruct ((c =? DOLLAR) && (c2 =? LBRACE)); [| done].
    rewrite spanName_app_blank by done.
    destruct (spanName t) as [[|n0 n] [|x r]]; try done.
    simpl. by destruct trail.
Qed.

Lemma placeholders_skip_prefix (pre s : jsstring) :
  DOLLAR ∉ pre -> placeholders (pre ++ s) = placeholders s.
Proof.
  induction pre as [|c pre IH]; intros Hpre; [done |].
  apply not_elem_of_cons in Hpre as [Hc Hpre].
  rewrite <- app_comm_cons, placeholders_skip; [by apply IH |].
  unfold matchPlaceholder. destruct (pre ++ s); [done |].
  destruct (N.eqb_spec c DOLLAR) as [-> | _]; done.
Qed.

Lemma blank_no_dollar (lead : jsstring) : blank lead -> DOLLAR ∉ lead.
Proof.
  induction 1 as [|c lead Hc _ IH]; [apply not_elem_of_nil |].
  apply not_elem_of_cons. split; [| done]. intros <-. discriminate Hc.
Qed.

Lemma placeholders_blank_suffix (s trail : jsstring) :
  blank trail -> placeholders (s ++ trail) = placeholders s.
Proof.
  intros Hb. remember (length s) as n eqn:Hn.
  revert s Hn. induction (lt_wf n) as [n _ IH]. intros s ->.
  destruct s as [|c t].
  - change ([] ++ trail) with trail. rewrite <- (app_nil_r trail).
    by apply placeholders_skip_prefix, blank_no_dollar.
  - rewrite <- app_comm_cons.
    pose proof (matchPlaceholder_app_blank c t trail Hb) as Hm.
    destruct (matchPlaceholder (c :: t)) as [[name rest]|] eqn:E.
    + rewrite (placeholders_match _ _ _ Hm), (placeholders_match _ _ _ E).
      f_equal. eapply IH; [| done]. by apply matchPlaceholder_shorter in E.
    + rewrite (placeholders_skip _ _ Hm), (placeholders_skip _ _ E).
      eapply IH; [| done]. simpl. lia.
Qed.

Lemma placeholders_trim (s : jsstring) : placeholders (trim s) = placeholders s.
Proof.
  destruct (trim_split s) as (lead & trail & Hs & Hlead & Htrail).
  rewrite Hs at 2.
  rewrite placeholders_skip_prefix by by apply blank_no_dollar.
  by rewrite placeholders_blank_suffix.
Qed.

Lemma unresolved_trim (env : Env) (s : jsstring) :
  unresolved env (trim s) <-> unresolved env s.
Proof. unfold unresolved. by rewrite placeholders_trim. Qed.

(** The text [${name}] after a prefix free of dollar signs is the first
    placeholder. *)
Lemma placeholders_first (pre name post : jsstring) :
  DOLLAR ∉ pre -> name <> [] -> RBRACE ∉ name ->
  placeholders (pre ++ DOLLAR :: LBRACE :: name ++ RBRACE :: post)
  = name :: placeholders post.
Proof.
  intros Hpre Hne Hn. rewrite placeholders_skip_prefix by done.
  apply placeholders_match. by apply matchPlaceholder_complete.
Qed.

Lemma unresolved_first (env : Env) (pre name post : jsstring) :
  DOLLAR ∉ pre -> name <> [] -> RBRACE ∉ name -> isSet env name = false ->
  unresolved env (pre ++ DOLLAR :: LBRACE :: name ++ RBRACE :: post).
Proof.
  intros Hpre Hne Hn Hset. exists name. split; [| done].
  rewrite placeholders_first by done. apply elem_of_cons. by left.
Qed.

(** ** parseConfig *)

Lemma getProp_elem (r : Record) (key : jsstring) (v : JsValue) :
  getProp r key = v -> v <> JsUndefined -> (key, v) ∈ r.
Proof.
  induction r as [|[k w] rest IH]; simpl; intros Hget Hv.
  - congruence.
  - case_bool_decide as Hk.
    + subst. apply elem_of_cons. by left.
    + apply elem_of_cons. right. by apply IH.
Qed.

Lemma unknownKeys_spec (r : Record) (key : jsstring) :
  key ∈ unknownKeys r <-> key ∈ Object_keys r /\ key ∉ ALLOWED_KEYS.
Proof.
  unfold unknownKeys, includes. rewrite list_elem_of_filter.
  rewrite bool_decide_eq_false. tauto.
Qed.

Lemma unknownKeys_nil (r : Record) :
  unknownKeys r = [] <-> (forall key, key ∈ Object_keys r -> key ∈ ALLOWED_KEYS).
Proof.
  split.
  - intros Hnil key Hin. destruct (decide (key ∈ ALLOWED_KEYS)) as [|Hno]; [done |].
    assert (key ∈ unknownKeys r) as Hu by by apply unknownKeys_spec.
    rewrite Hnil in Hu. by apply elem_of_nil in Hu.
  - intros Hall. apply elem_of_nil_inv. intros key Hu.
    apply unknownKeys_spec in Hu as [Hin Hno]. by apply Hno, Hall.
Qed.

(** The guarded key check of [parseConfig]. *)
Lemma keyCheck_eq (r : Record) (label : jsstring) :
  (if (0 <? length (Object_keys r))%nat then assertAllowedKeys r label else Ok tt) =
  match unknownKeys r with
  | [] => Ok tt
  | _ :: _ => Throw (unknownKeysMessage label (unknownKeys r))
  end.
Proof.
  destruct (Object_keys r) as [|k ks] eqn:Hk.
  - unfold unknownKeys. by rewrite Hk.
  - cbn [length Nat.ltb Nat.leb]. unfold assertAllowedKeys.
    by destruct (unknownKeys r).
Qed.

(** What [parseConfig] computes on a record once the key check has passed. *)
Lemma parseConfig_record (env : Env) (props : Record) :
  parseConfig env (JsObject props) =
  match unknownKeys props with
  | [] =>
      mapR (fun url =>
              {| apiKey := credential env (getProp props (js "apiKey")) API_KEY_VAR;
                 projectId := credential env (getProp props (js "projectId")) PROJECT_ID_VAR;
                 baseUrl := url;
                 promptOnStart := asBoolean (getProp props (js "promptOnStart"));
                 autoSyncSkills := asBoolean (getProp props (js "autoSyncSkills")) |})
           (parseBaseUrl env (getProp props (js "baseUrl")))
  | _ :: _ => Throw (unknownKeysMessage CONFIG_LABEL (unknownKeys props))
  end.
Proof.
  unfold parseConfig. change (isRecord (JsObject props)) with true.
  cbn [asRecord]. rewrite keyCheck_eq. by destruct (unknownKeys props).
Qed.

Lemma parseBaseUrl_resolved (env : Env) (v : JsValue) :
  ~ fieldUnresolved env v -> exists url, parseBaseUrl env v = Ok url.
Proof.
  destruct v; simpl; try by eexists.
  intros Hno. destruct (trim s) eqn:E; [by eexists |].
  rewrite <- E. apply resolveEnvVars_resolved. by rewrite unresolved_trim.
Qed.

Lemma parseBaseUrl_unresolved (env : Env) (s : jsstring) :
  unresolved env s ->
  exists name, name ∈ placeholders s /\ isSet env name = false /\
               parseBaseUrl env (JsString s) = Throw (envNotSetMessage name).
Proof.
  intros Hun%unresolved_trim. rewrite <- (placeholders_trim s).
  destruct (resolveEnvVars_unresolved _ _ Hun) as (name & Hin & Hn & Hthrow).
  exists name. split_and!; try done. simpl.
  destruct (trim s) eqn:E; [| done]. by apply elem_of_nil in Hin.
Qed.

Lemma credential_absent (env : Env) (v : JsValue) (name : jsstring) :
  credentialAbsent env v -> credential env v name = env name.
Proof.
  unfold credential.
  destruct v; simpl; try done.
  intros [-> | Hun%unresolved_trim]; [done |].
  destruct (resolveEnvVars_unresolved _ _ Hun) as (n & Hin & _ & ->).
  destruct (trim s); [| done]. by apply elem_of_nil in Hin.
Qed.

(** C1. A record with a key outside the allow-list makes [parseConfig]
    throw an error whose message names every offending key; and when no
    string field of a record holds an unresolved placeholder, the
    unknown-keys error is the only error [parseConfig] can throw. *)
Theorem parseConfig_unknown_keys (env : Env) (props : Record) :
  ((exists key, key ∈ Object_keys props /\ key ∉ ALLOWED_KEYS) ->
   exists message,
     parseConfig env (JsObject props) = Throw message /\
     forall key, key ∈ Object_keys props -> key ∉ ALLOWED_KEYS -> occursIn key message)
  /\
  ((forall key s, (key, JsString s) ∈ props -> ~ unresolved env s) ->
   forall message,
     parseConfig env (JsObject props) = Throw message ->
     message = unknownKeysMessage CONFIG_LABEL (unknownKeys props) /\
     exists key, key ∈ Object_keys props /\ key ∉ ALLOWED_KEYS).
Proof.
  rewrite parseConfig_record. split.
  - intros (key & Hin & Hno).
    assert (key ∈ unknownKeys props) as Hu by by apply unknownKeys_spec.
    destruct (unknownKeys props) as [|u us] eqn:E; [by apply elem_of_nil in Hu |].
    eexists. split; [done |]. intros k Hk Hkno.
    unfold unknownKeysMessage. do 2 apply occursIn_app_r.
    apply join_occurs. rewrite <- E. by apply unknownKeys_spec.
  - intros Hres message.
    destruct (unknownKeys props) as [|u us] eqn:E.
    + destruct (parseBaseUrl_resolved env (getProp props (js "baseUrl"))) as [url ->];
        [| done].
      destruct (getProp props (js "baseUrl")) as [| | | |s| | |] eqn:Hget; simpl; try tauto.
      apply (Hres (js "baseUrl")). by apply getProp_elem.
    + intros [= <-]. split; [done |].
      exists u. apply unknownKeys_spec. rewrite E. apply elem_of_cons. by left.
Qed.

Lemma parseConfig_unknown_keys_witness :
  (exists message,
     parseConfig noEnv (JsObject typoRecord) = Throw message /\
     forall key, key ∈ Object_keys typoRecord -> key ∉ ALLOWED_KEYS -> occursIn key message)
  /\
  (forall message,
     parseConfig noEnv (JsObject typoRecord) = Throw message ->
     message = unknownKeysMessage CONFIG_LABEL (unknownKeys typoRecord) /\
     exists key, key ∈ Object_keys typoRecord /\ key ∉ ALLOWED_KEYS).
Proof.
  split.
  - apply (proj1 (parseConfig_unknown_keys noEnv typoRecord)).
    exists (js "nope"). split.
    + apply (bool_decide_unpack _). vm_compute. exact I.
    + apply (bool_decide_unpack _). vm_compute. exact I.
  - apply (proj2 (parseConfig_unknown_keys noEnv typoRecord)).
    intros key s Hin (name & Hname & _).
    apply elem_of_cons in Hin as [[= -> ->] | Hin].
    + vm_compute in Hname. by apply elem_of_nil in Hname.
    + apply list_elem_of_singleton in Hin. discriminate Hin.
Defined.

(** C9. An input that is not a plain record (null, undefined, a boolean, a
    number, a string, a function, an array) never makes [parseConfig] throw:
    the result is the default configuration, with the fixed base URL, both
    booleans unset and the credentials read straight from the environment. *)
Theorem parseConfig_non_record (env : Env) (raw : JsValue) :
  isRecord raw = false ->
  parseConfig env raw =
  Ok {| apiKey := env API_KEY_VAR;
        projectId := env PROJECT_ID_VAR;
        baseUrl := DEFAULT_BASE_URL;
        promptOnStart := None;
        autoSyncSkills := None |}.
Proof.
  intros Hraw. unfold parseConfig. rewrite Hraw. reflexivity.
Qed.

Lemma parseConfig_non_record_witness :
  parseConfig noEnv JsNull =
  Ok {| apiKey := None; projectId := None; baseUrl := DEFAULT_BASE_URL;
        promptOnStart := None; autoSyncSkills := None |}.
Proof. apply (parseConfig_non_record noEnv JsNull). reflexivity. Defined.

(** The inputs the claim lists are all outside [isRecord]. *)
Lemma isRecord_non_objects :
  isRecord JsNull = false /\ isRecord JsUndefined = false /\
  (forall b, isRecord (JsBoolean b) = false) /\
  (forall n, isRecord (JsNumber n) = false) /\
  (forall s, isRecord (JsString s) = false) /\
  isRecord JsFunction = false /\
  (forall items, isRecord (JsArray items) = false) /\
  (forall props, isRecord (JsObject props) = true).
Proof. by split_and!. Qed.

(** ** mergeConfig *)

(** C4. In the merge each field is the primary's value when the primary
    defines it and the fallback's value otherwise; [baseUrl] is always
    defined in the primary; an explicit [false] of the primary is defined and
    overrides a [true] of the fallback. *)
Theorem mergeConfig_primary_wins (primary fallback : BrowserbaseConfig) :
  let merged := mergeConfig primary fallback in
  (forall v, apiKey primary = Some v -> apiKey merged = Some v) /\
  (apiKey primary = None -> apiKey merged = apiKey fallback) /\
  (forall v, projectId primary = Some v -> projectId merged = Some v) /\
  (projectId primary = None -> projectId merged = projectId fallback) /\
  baseUrl merged = baseUrl primary /\
  (forall b, promptOnStart primary = Some b -> promptOnStart merged = Some b) /\
  (promptOnStart primary = None -> promptOnStart merged = promptOnStart fallback) /\
  (forall b, autoSyncSkills primary = Some b -> autoSyncSkills merged = Some b) /\
  (autoSyncSkills primary = None -> autoSyncSkills merged = autoSyncSkills fallback) /\
  (promptOnStart primary = Some false -> promptOnStart fallback = Some true ->
   promptOnStart merged = Some false) /\
  (autoSyncSkills primary = Some false -> autoSyncSkills fallback = Some true ->
   autoSyncSkills merged = Some false).
Proof.
  destruct primary as [a p u s k]; simpl.
  split_and!; try done; intros; subst; done.
Qed.

Lemma mergeConfig_primary_wins_witness :
  promptOnStart
    (mergeConfig (mkConfig None None DEFAULT_BASE_URL (Some false) None)
                 (mkConfig None None DEFAULT_BASE_URL (Some true) (Some true)))
  = Some false /\
  autoSyncSkills
    (mergeConfig (mkConfig None None DEFAULT_BASE_URL (Some false) None)
                 (mkConfig None None DEFAULT_BASE_URL (Some true) (Some true)))
  = Some true.
Proof.
  pose proof (mergeConfig_primary_wins
                (mkConfig None None DEFAULT_BASE_URL (Some false) None)
                (mkConfig None None DEFAULT_BASE_URL (Some true) (Some true)))
    as (_ & _ & _ & _ & _ & _ & _ & _ & Hauto & Hprompt & _).
  split.
  - apply Hprompt; reflexivity.
  - apply Hauto. reflexivity.
Defined.

(** C10. The direct environment fallback neither trims nor tests for
    emptiness: when a record leaves a credential absent and the variable is
    set to any string at all (empty and blank ones included), that exact
    string is the parsed credential, and being defined it wins in
    [mergeConfig] over whatever the fallback configuration holds. *)
Theorem parseConfig_env_credential_verbatim (env : Env) (props : Record) :
  (forall key, key ∈ Object_keys props -> key ∈ ALLOWED_KEYS) ->
  ~ fieldUnresolved env (getProp props (js "baseUrl")) ->
  exists cfg,
    parseConfig env (JsObject props) = Ok cfg /\
    (forall v, credentialAbsent env (getProp props (js "apiKey")) ->
               env API_KEY_VAR = Some v ->
               apiKey cfg = Some v /\
               forall fallback, apiKey (mergeConfig cfg fallback) = Some v) /\
    (forall v, credentialAbsent env (getProp props (js "projectId")) ->
               env PROJECT_ID_VAR = Some v ->
               projectId cfg = Some v /\
               forall fallback, projectId (mergeConfig cfg fallback) = Some v).
Proof.
  intros Hkeys Hurl. rewrite parseConfig_record.
  apply unknownKeys_nil in Hkeys as ->.
  destruct (parseBaseUrl_resolved _ _ Hurl) as [url ->]. simpl.
  eexists. split; [done |]. split.
  - intros v Habs Henv. cbn [apiKey mergeConfig].
    rewrite (credential_absent _ _ _ Habs), Henv. done.
  - intros v Habs Henv. cbn [projectId mergeConfig].
    rewrite (credential_absent _ _ _ Habs), Henv. done.
Qed.

Lemma parseConfig_env_credential_verbatim_witness :
  exists cfg,
    parseConfig (envWith API_KEY_VAR []) (JsObject []) = Ok cfg /\
    apiKey cfg = Some [] /\
    apiKey (mergeConfig cfg (mkConfig (Some (js "bb_real")) None DEFAULT_BASE_URL None None))
    = Some [].
Proof.
  destruct (parseConfig_env_credential_verbatim (envWith API_KEY_VAR []) [])
    as (cfg & Hparse & Hkey & _).
  - intros key Hin. by apply elem_of_nil in Hin.
  - simpl. tauto.
  - exists cfg. split; [exact Hparse |].
    destruct (Hkey [] I eq_refl) as [Hcfg Hmerge].
    split; [exact Hcfg | apply Hmerge].
Defined.





(** A name fails in the lookup of a process exactly when it is neither a
    variable with a value that is not empty nor, being no variable at all, a
    member of [Object.prototype]. *)
Lemma isSet_processEnv (variables : jsstring -> option jsstring) (name : jsstring) :
  isSet (processEnv variables) name = false <->
  variables name = Some [] \/ (variables name = None /\ inheritedText name = None).
Proof.
  unfold isSet, processEnv. destruct (variables name) as [[|c v]|].
  - split; [by left | done].
  - split; [done | by intros [[=] | [[=] _]]].
  - unfold inheritedText, nativeFunctionText. repeat case_bool_decide; cbn.
    + split; [done | by intros [[=] | [_ [=]]]].
    + split; [done | by intros [[=] | [_ [=]]]].
    + split; [done | by intros [[=] | [_ [=]]]].
    + split; [by right | done].
Qed.


(** C2, as the code has it.  For the two booleans an unset primary lets the
    fallback's value through, and so does an absent credential of the primary
    when its environment variable is unset.  [baseUrl] is always the
    primary's: a primary source that leaves it unconfigured parses to the
    fixed default, and that default is the merged value whatever the fallback
    configures. *)
Theorem mergeConfig_parsed_precedence (env : Env) (primarySrc fallbackSrc : Record)
  (primary fallback : BrowserbaseConfig) :
  parseConfig env (JsObject primarySrc) = Ok primary ->
  parseConfig env (JsObject fallbackSrc) = Ok fallback ->
  let merged := mergeConfig primary fallback in
  (asBoolean (getProp primarySrc (js "promptOnStart")) = None ->
   promptOnStart merged = asBoolean (getProp fallbackSrc (js "promptOnStart"))) /\
  (asBoolean (getProp primarySrc (js "autoSyncSkills")) = None ->
   autoSyncSkills merged = asBoolean (getProp fallbackSrc (js "autoSyncSkills"))) /\
  (credentialAbsent env (getProp primarySrc (js "apiKey")) -> env API_KEY_VAR = None ->
   apiKey merged = apiKey fallback) /\
  (credentialAbsent env (getProp primarySrc (js "projectId")) ->
   env PROJECT_ID_VAR = None ->
   projectId merged = projectId fallback) /\
  baseUrl merged = baseUrl primary /\
  (~ baseUrlConfigured primarySrc -> baseUrl merged = DEFAULT_BASE_URL).
Proof.
  rewrite !parseConfig_record.
  destruct (unknownKeys primarySrc); [| done].
  destruct (unknownKeys fallbackSrc); [| done].
  destruct (parseBaseUrl env (getProp primarySrc (js "baseUrl"))) as [u1|] eqn:E1; [| done].
  destruct (parseBaseUrl env (getProp fallbackSrc (js "baseUrl"))) as [u2|] eqn:E2; [| done].
  simpl. intros [= <-] [= <-]. simpl. split_and!.
  - by intros ->.
  - by intros ->.
  - intros Habs Henv. by rewrite (credential_absent _ _ _ Habs), Henv.
  - intros Habs Henv. by rewrite (credential_absent _ _ _ Habs), Henv.
  - done.
  - intros Hno. destruct (getProp primarySrc (js "baseUrl")) eqn:Hget;
      simpl in E1; try congruence.
    destruct (trim s) eqn:Ht; [congruence |].
    exfalso. apply Hno. exists s. split; [done |]. by rewrite Ht.
Qed.

Lemma mergeConfig_parsed_precedence_witness :
  promptOnStart
    (mergeConfig (mkConfig None None DEFAULT_BASE_URL None None)
                 (mkConfig None None DEFAULT_BASE_URL (Some false) None))
  = Some false.
Proof.
  refine (proj1 (mergeConfig_parsed_precedence noEnv []
                   [(js "promptOnStart", JsBoolean false)]
                   (mkConfig None None DEFAULT_BASE_URL None None)
                   (mkConfig None None DEFAULT_BASE_URL (Some false) None)
                   _ _) _); reflexivity.
Defined.

(** C2 as stated fails on [baseUrl]: the primary source configures no
    [baseUrl], the fallback source configures one explicitly, and the merged
    [baseUrl] is the built-in default, not the fallback's. *)
Lemma mergeConfig_default_baseUrl_masks_fallback :
  ~ baseUrlConfigured [] /\
  baseUrlConfigured fallbackUrlRecord /\
  parseConfig noEnv (JsObject []) =
    Ok (mkConfig None None DEFAULT_BASE_URL None None) /\
  parseConfig noEnv (JsObject fallbackUrlRecord) =
    Ok (mkConfig None None (js "https://fallback.example.com") None None) /\
  baseUrl (mergeConfig (mkConfig None None DEFAULT_BASE_URL None None)
             (mkConfig None None (js "https://fallback.example.com") None None))
    = js "https://api.browserbase.com" /\
  baseUrl (mergeConfig (mkConfig None None DEFAULT_BASE_URL None None)
             (mkConfig None None (js "https://fallback.example.com") None None))
    <> js "https://fallback.example.com".
Proof.
  split_and!.
  - by intros (s & [=] & _).
  - exists (js "https://fallback.example.com"). split; [reflexivity |]. by vm_compute.
  - reflexivity.
  - reflexivity.
  - reflexivity.
  - by vm_compute.
Qed.

(** The environment masks the fallback in the same way: with the variable
    set, a primary source without [apiKey] parses to the variable's value,
    which then wins over the key the fallback source configures. *)
Lemma mergeConfig_env_masks_fallback :
  exists primary fallback,
    parseConfig (envWith API_KEY_VAR (js "bb_env")) (JsObject []) = Ok primary /\
    parseConfig (envWith API_KEY_VAR (js "bb_env"))
      (JsObject [(js "apiKey", JsString (js "bb_file"))]) = Ok fallback /\
    apiKey fallback = Some (js "bb_file") /\
    apiKey (mergeConfig primary fallback) = Some (js "bb_env").
Proof. do 2 eexists. split_and!; reflexivity. Qed.

(** ** maskSecret *)

Lemma repeatStr_unit (c : N) (n : nat) : repeatStr [c] n = replicate n c.
Proof.
  unfold repeatStr. induction n as [|n IH]; simpl; [done | by rewrite IH].
Qed.

Lemma slice_head (s : jsstring) (n : nat) :
  slice s 0 (Some (Z.of_nat n)) = take n s.
Proof.
  unfold slice, sliceIndex. simpl. rewrite drop_0.
  destruct (Z.ltb_spec (Z.of_nat n) 0) as [Hneg | _]; [lia |].
  rewrite Nat2Z.id, Nat.sub_0_r.
  destruct (Nat.min_spec n (length s)) as [[Hlt ->] | [Hge ->]]; [done |].
  rewrite !take_ge; [done | lia | lia].
Qed.

Lemma slice_tail (s : jsstring) (n : nat) :
  (0 < n <= length s)%nat ->
  slice s (- Z.of_nat n) None = drop (length s - n) s.
Proof.
  intros Hn. unfold slice, sliceIndex.
  destruct (Z.ltb_spec (- Z.of_nat n) 0) as [_ | Hpos]; [| lia].
  replace (Z.to_nat (Z.max (Z.of_nat (length s) + - Z.of_nat n) 0))
    with (length s - n)%nat by lia.
  apply take_ge. rewrite length_drop. lia.
Qed.

Lemma maskSecret_nonempty (c : N) (s : jsstring) :
  maskSecret (Some (c :: s)) =
  if (length (c :: s) <=? 8)%nat
  then repeatStr [STAR] (Nat.max 4 (length (c :: s)))
  else slice (c :: s) 0 (Some 4%Z) ++ js "..." ++ slice (c :: s) (-4) None.
Proof. reflexivity. Qed.

(** C6, as the code has it.  [maskSecret] yields the text "not set" for
    an undefined or empty secret; for a non-empty secret of at most 8 code
    units, a run of asterisks that is at least 4 long and at least as long as
    the secret, so every code unit of the output is an asterisk, no code unit
    of the secret other than the asterisk is in the output, and the output
    depends on the length of the secret only; for a longer secret, its first
    four code units, three dots and its last four code units. *)
Theorem maskSecret_contract :
  maskSecret None = js "not set" /\
  maskSecret (Some []) = js "not set" /\
  (forall s, s <> [] -> (length s <= 8)%nat ->
     exists n, maskSecret (Some s) = replicate n STAR /\
               (4 <= n)%nat /\ (length s <= n)%nat /\
               (forall c, c ∈ maskSecret (Some s) -> c = STAR) /\
               (forall c, c ∈ s -> c <> STAR -> c ∉ maskSecret (Some s)) /\
               (forall s', length s' = length s -> maskSecret (Some s') = maskSecret (Some s))) /\
  (forall s, (8 < length s)%nat ->
     exists first middle last,
       s = first ++ middle ++ last /\ length first = 4%nat /\ length last = 4%nat /\
       maskSecret (Some s) = first ++ js "..." ++ last).
Proof.
  split_and!; [done | done | |].
  - intros s Hne Hlen.
    assert (forall s' : jsstring, s' <> [] -> (length s' <= 8)%nat ->
              maskSecret (Some s') = replicate (Nat.max 4 (length s')) STAR) as Hmask.
    { intros s' Hne' Hlen'. destruct s' as [|c s']; [done |].
      rewrite maskSecret_nonempty.
      apply Nat.leb_le in Hlen' as ->. apply repeatStr_unit. }
    exists (Nat.max 4 (length s)). split_and!.
    + by apply Hmask.
    + lia.
    + lia.
    + intros c. rewrite Hmask by done. by intros [-> _]%elem_of_replicate.
    + intros c _ Hc. rewrite Hmask by done. by intros [-> _]%elem_of_replicate.
    + intros s' Heq. rewrite !Hmask; try done; try lia.
      * by rewrite Heq.
      * intros ->. by destruct s.
  - intros s Hlen.
    exists (take 4 s), (take (length s - 8) (drop 4 s)), (drop (length s - 4) s).
    split_and!.
    + rewrite <- (take_drop 4 s) at 1. f_equal.
      rewrite <- (take_drop (length s - 8) (drop 4 s)) at 1. f_equal.
      rewrite drop_drop. f_equal. lia.
    + rewrite length_take. lia.
    + rewrite length_drop. lia.
    + destruct s as [|c s]; [simpl in Hlen; lia |].
      rewrite maskSecret_nonempty.
      destruct (Nat.leb_spec (length (c :: s)) 8) as [Hle | _]; [lia |].
      change 4%Z with (Z.of_nat 4). change (-4)%Z with (- Z.of_nat 4)%Z.
      rewrite (slice_head (c :: s) 4).
      rewrite (slice_tail (c :: s) 4) by lia. done.
Qed.

Lemma maskSecret_contract_witness :
  (exists n, maskSecret (Some (js "short")) = replicate n STAR /\ (4 <= n)%nat) /\
  maskSecret (Some (js "bb_live_abcdefghijklmnop")) = js "bb_l...mnop".
Proof.
  destruct maskSecret_contract as (_ & _ & Hshort & Hlong). split.
  - destruct (Hshort (js "short")) as (n & Hn & H4 & _).
    + discriminate.
    + vm_compute. lia.
    + exists n. split; [exact Hn | exact H4].
  - reflexivity.
Defined.

(** C6 as stated fails for a secret that holds an asterisk: the asterisk
    of the secret is in the output, and a secret of four asterisks is shown
    as it is. *)
Lemma maskSecret_shows_asterisk :
  (length (js "a*b") <= 8)%nat /\
  STAR ∈ js "a*b" /\
  STAR ∈ maskSecret (Some (js "a*b")) /\
  (length (js "****") <= 8)%nat /\
  maskSecret (Some (js "****")) = js "****".
Proof.
  split_and!.
  - vm_compute. lia.
  - apply (bool_decide_unpack _). vm_compute. exact I.
  - apply (bool_decide_unpack _). vm_compute. exact I.
  - vm_compute. lia.
  - reflexivity.
Qed.

(** ** dotenvEscape *)

Lemma replaceAllUnit_app (c : N) (r a b : jsstring) :
  replaceAllUnit c r (a ++ b) = replaceAllUnit c r a ++ replaceAllUnit c r b.
Proof. apply flat_map_app. Qed.

Lemma replaceAllUnit_cons (c : N) (r : jsstring) (x : N) (s : jsstring) :
  replaceAllUnit c r (x :: s) = (if x =? c then r else [x]) ++ replaceAllUnit c r s.
Proof. reflexivity. Qed.

(** The four substitutions, run in the order of the source, escape every
    code unit of the value exactly once. *)
Lemma replace_chain_single_pass (value : jsstring) :
  replaceAllUnit CR [BACKSLASH; 114]
    (replaceAllUnit LF [BACKSLASH; 110]
       (replaceAllUnit DQUOTE [BACKSLASH; DQUOTE]
          (replaceAllUnit BACKSLASH [BACKSLASH; BACKSLASH] value)))
  = flat_map spec_escapeUnit value.
Proof.
  induction value as [|x value IH]; [done |].
  rewrite replaceAllUnit_cons, !replaceAllUnit_app, IH.
  change (flat_map spec_escapeUnit (x :: value))
    with (spec_escapeUnit x ++ flat_map spec_escapeUnit value).
  f_equal. unfold spec_escapeUnit.
  destruct (N.eqb_spec x BACKSLASH) as [-> | Hb]; [done |].
  destruct (N.eqb_spec x DQUOTE) as [-> | Hq]; [done |].
  destruct (N.eqb_spec x LF) as [-> | Hn]; [done |].
  destruct (N.eqb_spec x CR) as [-> | Hr]; [done |].
  cbn [replaceAllUnit flat_map app].
  apply N.eqb_neq in Hb, Hq, Hn, Hr.
  rewrite Hq. cbn [flat_map app]. rewrite Hn. cbn [flat_map app]. by rewrite Hr.
Qed.

Lemma whitespace_covers_line_breaks (c : N) :
  (c =? LF) || (c =? CR) = true -> isWhiteSpace c = true.
Proof.
  intros [->%N.eqb_eq | ->%N.eqb_eq]%orb_true_iff; reflexivity.
Qed.

Lemma quote_test_eq (value : jsstring) :
  hasSpecialUnit value || includesUnit LF value || includesUnit CR value
  = existsb spec_mustQuote value.
Proof.
  unfold hasSpecialUnit, includesUnit.
  induction value as [|c value IH]; [done |].
  cbn [existsb]. rewrite <- IH. unfold spec_mustQuote.
  generalize (existsb
                (fun c0 => isWhiteSpace c0 || (c0 =? DQUOTE) || (c0 =? SQUOTE)
                           || (c0 =? HASH) || (c0 =? EQUALS) || (c0 =? BACKSLASH)) value).
  generalize (existsb (fun x => x =? LF) value).
  generalize (existsb (fun x => x =? CR) value).
  generalize (isWhiteSpace c), (c =? DQUOTE), (c =? SQUOTE), (c =? HASH),
    (c =? EQUALS), (c =? BACKSLASH), (c =? LF), (c =? CR).
  intros [] [] [] [] [] [] [] [] [] [] []; reflexivity.
Qed.

(** C7. [dotenvEscape] returns the value unchanged when none of its code
    units is white space, a quote, a hash, an equals sign, a backslash, a
    line feed or a carriage return; otherwise it returns the value between
    double quotes with every backslash, double quote, line feed and carriage
    return escaped exactly once: the chain of substitutions, backslash
    first, coincides with the single-pass escaping of the specification. *)
Theorem dotenvEscape_contract (value : jsstring) :
  dotenvEscape value = spec_dotenvEscape value /\
  ((forall c, c ∈ value -> spec_mustQuote c = false) -> dotenvEscape value = value) /\
  ((exists c, c ∈ value /\ spec_mustQuote c = true) ->
   dotenvEscape value = [DQUOTE] ++ flat_map spec_escapeUnit value ++ [DQUOTE]).
Proof.
  assert (dotenvEscape value = spec_dotenvEscape value) as Heq.
  { unfold dotenvEscape, spec_dotenvEscape.
    rewrite quote_test_eq, replace_chain_single_pass. done. }
  split; [done |]. rewrite Heq. unfold spec_dotenvEscape. split.
  - intros Hnone.
    destruct (existsb spec_mustQuote value) eqn:E; [| done].
    apply existsb_exists in E as (c & Hin & Hc).
    rewrite Hnone in Hc; [done | by apply list_elem_of_In].
  - intros (c & Hin & Hc).
    destruct (existsb spec_mustQuote value) eqn:E; [done |].
    assert (existsb spec_mustQuote value = true) as Ht; [| congruence].
    apply existsb_exists. exists c. split; [by apply list_elem_of_In | done].
Qed.

Lemma dotenvEscape_contract_witness :
  dotenvEscape (js "bb_live_abc123") = js "bb_live_abc123" /\
  dotenvEscape (js "path\to") = [DQUOTE] ++ js "path\\to" ++ [DQUOTE].
Proof.
  split.
  - apply (proj1 (proj2 (dotenvEscape_contract (js "bb_live_abc123")))).
    apply (Forall_forall (fun c => spec_mustQuote c = false)).
    apply (bool_decide_unpack _). vm_compute. exact I.
  - apply (proj2 (proj2 (dotenvEscape_contract (js "path\to")))).
    exists BACKSLASH. split; [| reflexivity].
    apply (bool_decide_unpack _). vm_compute. exact I.
Defined.

(** Were the backslash substitution run last, the backslash that escapes a
    double quote would be escaped again. *)
Example backslash_last_escapes_twice :
  replaceAllUnit BACKSLASH [BACKSLASH; BACKSLASH]
    (replaceAllUnit DQUOTE [BACKSLASH; DQUOTE] [DQUOTE])
  = [BACKSLASH; BACKSLASH; DQUOTE]
  /\ flat_map spec_escapeUnit [DQUOTE] = [BACKSLASH; DQUOTE].
Proof. split; reflexivity. Qed.

(** ** hasBrowserbaseSkills *)

Lemma forallb_elem_of {A} (f : A -> bool) (l : list A) :
  forallb f l = true <-> (forall x, x ∈ l -> f x = true).
Proof.
  rewrite forallb_forall. split; intros H x Hx; apply H; by apply list_elem_of_In.
Qed.

Lemma forallb_false_elem_of {A} (f : A -> bool) (l : list A) :
  forallb f l = false <-> (exists x, x ∈ l /\ f x = false).
Proof.
  induction l as [|a l IH]; simpl.
  - split; [done | by intros (x & Hx%elem_of_nil & _)].
  - rewrite andb_false_iff, IH. split.
    + intros [Ha | (x & Hx & Hf)].
      * exists a. split; [apply elem_of_cons; by left | done].
      * exists x. split; [apply elem_of_cons; by right | done].
    + intros (x & [-> | Hx]%elem_of_cons & Hf); [by left | right; by exists x].
Qed.

(** C8. [hasBrowserbaseSkills] is true exactly when every expected file
    exists: the five paths of [expectedSkillFiles] in the per-file revision,
    the [SKILL.md] marker of every required directory in the archive
    revision.  It is false as soon as one of them is missing. *)
Theorem hasBrowserbaseSkills_complete (h : Host) (existsSync : jsstring -> bool)
  (root : option jsstring) :
  length (PerFile.expectedSkillFiles h root) = 5%nat /\
  (PerFile.hasBrowserbaseSkills h existsSync root = true <->
   forall p, p ∈ PerFile.expectedSkillFiles h root -> existsSync p = true) /\
  (PerFile.hasBrowserbaseSkills h existsSync root = false <->
   exists p, p ∈ PerFile.expectedSkillFiles h root /\ existsSync p = false) /\
  (Archive.hasBrowserbaseSkills h existsSync root = true <->
   forall dir, dir ∈ Archive.REQUIRED_SKILL_DIRS ->
     existsSync (path_join h [default (defaultSkillsRoot h) root; dir; js "SKILL.md"]) = true) /\
  (Archive.hasBrowserbaseSkills h existsSync root = false <->
   exists dir, dir ∈ Archive.REQUIRED_SKILL_DIRS /\
     existsSync (path_join h [default (defaultSkillsRoot h) root; dir; js "SKILL.md"]) = false).
Proof.
  split_and!.
  - reflexivity.
  - apply forallb_elem_of.
  - apply forallb_false_elem_of.
  - unfold Archive.hasBrowserbaseSkills. apply forallb_elem_of.
  - unfold Archive.hasBrowserbaseSkills. apply forallb_false_elem_of.
Qed.

Lemma hasBrowserbaseSkills_complete_witness :
  PerFile.hasBrowserbaseSkills sampleHost
    (fun p => bool_decide (p ∈ take 4 (PerFile.expectedSkillFiles sampleHost None))) None
  = false.
Proof.
  apply (proj2 (proj1 (proj2 (proj2
           (hasBrowserbaseSkills_complete sampleHost
              (fun p => bool_decide
                          (p ∈ take 4 (PerFile.expectedSkillFiles sampleHost None)))
              None))))).
  exists (js "/home/user/.openclaw/skills/functions/SKILL.md"). split.
  - apply (bool_decide_unpack _). vm_compute. exact I.
  - vm_compute. reflexivity.
Defined.

(** ** syncBrowserbaseSkills *)

Lemma downloadText_ok (call : jsstring -> Result Response) (url : jsstring)
  (resp : Response) :
  call url = Ok resp -> ok resp = true ->
  PerFile.downloadText call url = Ok (text resp).
Proof. intros Hcall Hok. unfold PerFile.downloadText. by rewrite Hcall; simpl; rewrite Hok. Qed.


Lemma downloadText_inv (call : jsstring -> Result Response) (url content : jsstring) :
  PerFile.downloadText call url = Ok content ->
  exists resp, call url = Ok resp /\ ok resp = true /\ content = text resp.
Proof.
  unfold PerFile.downloadText. destruct (call url) as [resp|]; [| done]. simpl.
  destruct (ok resp) eqn:Hok; [| done]. intros [= <-]. by exists resp.
Qed.

Lemma tempPathOf_extends (h : Host) (tick : nat) (filePath : jsstring) :
  filePath `prefix_of` PerFile.tempPathOf h tick filePath.
Proof. unfold PerFile.tempPathOf. by eexists. Qed.

(** The three steps of [writeFileAtomic] change the text of no file but
    the destination and its temporary file, whether they succeed or not. *)
Lemma writeFileAtomic_keeps (f : FsHost) (h : Host) (tick : nat)
  (filePath content : jsstring) (fs : Files) (q : jsstring) :
  FsLaws f -> ~ filePath `prefix_of` q ->
  fileText f (fst (PerFile.writeFileAtomic f h tick filePath content fs)) q
  = fileText f fs q.
Proof.
  intros Hlaws Hq.
  assert (q <> filePath) as Hdest by (intros ->; by apply Hq).
  assert (q <> PerFile.tempPathOf h tick filePath) as Htemp
    by (intros ->; apply Hq, tempPathOf_extends).
  unfold PerFile.writeFileAtomic, ioBind.
  pose proof (mkdir_keeps f Hlaws (path_dirname h filePath) fs q) as Hmk.
  destruct (fsp_mkdir f (path_dirname h filePath) fs) as [fs1 [[]|m1]]; [| done].
  cbn [fst] in Hmk.
  pose proof (writeFile_keeps f Hlaws (PerFile.tempPathOf h tick filePath) content fs1 q
                Htemp) as Hwr.
  destruct (fsp_writeFile f (PerFile.tempPathOf h tick filePath) content fs1)
    as [fs2 [[]|m2]] eqn:Ewr; cbn [fst] in Hwr |- *; [| congruence].
  rewrite (rename_keeps f Hlaws _ _ fs2 q); [congruence | | done | done].
  rewrite (writeFile_writes f Hlaws _ _ _ _ Ewr). by eexists.
Qed.

(** When the three steps succeed, the destination reads as the text
    written. *)
Lemma writeFileAtomic_writes (f : FsHost) (h : Host) (tick : nat)
  (filePath content : jsstring) (fs fs' : Files) :
  FsLaws f ->
  PerFile.writeFileAtomic f h tick filePath content fs = (fs', Ok tt) ->
  fileText f fs' filePath = Some (toWellFormed content).
Proof.
  intros Hlaws. unfold PerFile.writeFileAtomic, ioBind.
  destruct (fsp_mkdir f (path_dirname h filePath) fs) as [fs1 [[]|m1]]; [| done].
  destruct (fsp_writeFile f (PerFile.tempPathOf h tick filePath) content fs1)
    as [fs2 [[]|m2]] eqn:Ewr; [| done].
  intros Hmv. rewrite (rename_moves f Hlaws _ _ _ _ Hmv).
  by apply (writeFile_writes f Hlaws _ _ _ _ Ewr).
Qed.

(** One turn of the loop. *)
Lemma syncEntries_cons (f : FsHost) (h : Host) (call : jsstring -> Result Response)
  (root r : jsstring) (e : PerFile.SkillFile) (rest : list PerFile.SkillFile)
  (written : list jsstring) (fs : Files) :
  PerFile.syncEntries f h call root r (e :: rest) written fs =
  match PerFile.downloadText call (PerFile.sourceUrlOf r e) with
  | Throw message => (fs, Throw message)
  | Ok content =>
      match trim content with
      | [] => (fs, Throw (PerFile.emptyContentMessage (PerFile.sourceUrlOf r e)))
      | _ :: _ =>
          match PerFile.writeFileAtomic f h (length written)
                  (PerFile.destinationOf h root e) content fs with
          | (fs1, Ok _) =>
              PerFile.syncEntries f h call root r rest
                (written ++ [PerFile.destinationOf h root e]) fs1
          | (fs1, Throw message) => (fs1, Throw message)
          end
      end
  end.
Proof.
  cbn [PerFile.syncEntries]. unfold ioBind at 1, ioLift.
  destruct (PerFile.downloadText call (PerFile.sourceUrlOf r e)) as [content|]; [| done].
  by destruct (trim content).
Qed.

(** The loop over a concatenation: the second part starts from the state the
    first part leaves, and nothing is undone when a part throws. *)
Lemma syncEntries_app (f : FsHost) (h : Host) (call : jsstring -> Result Response)
  (root r : jsstring) (finished rest : list PerFile.SkillFile) (written : list jsstring)
  (fs : Files) :
  PerFile.syncEntries f h call root r (finished ++ rest) written fs =
  match PerFile.syncEntries f h call root r finished written fs with
  | (fs1, Ok w) => PerFile.syncEntries f h call root r rest w fs1
  | (fs1, Throw message) => (fs1, Throw message)
  end.
Proof.
  revert written fs. induction finished as [|e finished IH]; intros written fs; [done |].
  rewrite <- app_comm_cons, !syncEntries_cons.
  destruct (PerFile.downloadText call (PerFile.sourceUrlOf r e)) as [content|]; [| done].
  destruct (trim content); [done |].
  destruct (PerFile.writeFileAtomic f h (length written)
              (PerFile.destinationOf h root e) content fs) as [fs1 [[]|m]]; [| done].
  apply IH.
Qed.

(** Whatever the remote answers and whichever step fails, the loop changes
    the text of no file whose path does not continue the destination of one
    of its entries. *)
Lemma syncEntries_keeps (f : FsHost) (h : Host) (call : jsstring -> Result Response)
  (root r : jsstring) (entries : list PerFile.SkillFile) (written : list jsstring)
  (fs : Files) (q : jsstring) :
  FsLaws f ->
  (forall e, e ∈ entries -> ~ PerFile.destinationOf h root e `prefix_of` q) ->
  fileText f (fst (PerFile.syncEntries f h call root r entries written fs)) q
  = fileText f fs q.
Proof.
  intros Hlaws. revert written fs.
  induction entries as [|e entries IH]; intros written fs Hq; [done |].
  rewrite syncEntries_cons.
  destruct (PerFile.downloadText call (PerFile.sourceUrlOf r e)) as [content|]; [| done].
  destruct (trim content); [done |].
  pose proof (writeFileAtomic_keeps f h (length written) (PerFile.destinationOf h root e)
                content fs q Hlaws) as Hstep.
  destruct (PerFile.writeFileAtomic f h (length written)
              (PerFile.destinationOf h root e) content fs) as [fs1 [[]|m]];
    cbn [fst] in Hstep.
  - rewrite IH by (intros e' He'; apply Hq, elem_of_cons; by right).
    apply Hstep, Hq, elem_of_cons. by left.
  - apply Hstep, Hq, elem_of_cons. by left.
Qed.

(** A loop that comes to its end has fetched every entry and has left the
    text fetched in the file of every entry. *)
Lemma syncEntries_installed (f : FsHost) (h : Host) (call : jsstring -> Result Response)
  (root r : jsstring) (entries : list PerFile.SkillFile) (written w : list jsstring)
  (fs fs' : Files) :
  FsLaws f -> NoDup entries ->
  (forall a b, a ∈ entries -> b ∈ entries -> a <> b ->
     ~ PerFile.destinationOf h root b `prefix_of` PerFile.destinationOf h root a) ->
  PerFile.syncEntries f h call root r entries written fs = (fs', Ok w) ->
  w = written ++ (PerFile.destinationOf h root <$> entries) /\
  forall e, e ∈ entries -> PerFile.installed f h call root r fs' e.
Proof.
  intros Hlaws. revert written fs.
  induction entries as [|a entries IH]; intros written fs Hnd Hsep.
  - cbn. intros [= <- <-]. split; [by rewrite app_nil_r |].
    intros e He. by apply elem_of_nil in He.
  - rewrite syncEntries_cons.
    destruct (PerFile.downloadText call (PerFile.sourceUrlOf r a)) as [content|] eqn:Edl;
      [| done].
    destruct (trim content) eqn:Etrim; [done |].
    destruct (PerFile.writeFileAtomic f h (length written)
                (PerFile.destinationOf h root a) content fs) as [fs1 [[]|m]] eqn:Ewr;
      [| done].
    intros Hrest. apply NoDup_cons in Hnd as [Hnotin Hnd].
    destruct (IH _ _ Hnd (fun x y Hx Hy =>
                            Hsep x y (proj2 (elem_of_cons _ _ _) (or_intror Hx))
                                     (proj2 (elem_of_cons _ _ _) (or_intror Hy)))
                Hrest) as [-> Hinst].
    split; [by rewrite <- app_assoc |].
    intros e [-> | He]%elem_of_cons; [| by apply Hinst].
    apply downloadText_inv in Edl as (resp & Hcall & Hok & ->).
    exists resp. split_and!; [done | done | by rewrite Etrim |].
    replace fs' with
      (fst (PerFile.syncEntries f h call root r entries
              (written ++ [PerFile.destinationOf h root a]) fs1)) by (by rewrite Hrest).
    rewrite syncEntries_keeps; [by eapply writeFileAtomic_writes | done |].
    intros b Hb. apply Hsep; [apply elem_of_cons; by left | apply elem_of_cons; by right |].
    intros ->. by apply Hnotin.
Qed.


Lemma SKILL_FILE_MAP_NoDup (h : Host) : NoDup (PerFile.SKILL_FILE_MAP h).
Proof.
  apply (NoDup_fmap_1 PerFile.sourcePath). cbn.
  apply (bool_decide_unpack _). vm_compute. exact I.
Qed.

Lemma separate_sublist (h : Host) (root : jsstring) (entries : list PerFile.SkillFile) :
  PerFile.separateDestinations h root ->
  (forall e, e ∈ entries -> e ∈ PerFile.SKILL_FILE_MAP h) ->
  forall a b, a ∈ entries -> b ∈ entries -> a <> b ->
    ~ PerFile.destinationOf h root b `prefix_of` PerFile.destinationOf h root a.
Proof. intros Hsep Hsub a b Ha Hb. apply Hsep; by apply Hsub. Qed.


(** The file system in memory is a lawful host. *)
Lemma memFs_fileText (fs : Files) (p : jsstring) :
  fileText memFs fs p =
  match fs !! p with
  | Some (RegularFile content) => Some content
  | _ => None
  end.
Proof. unfold fileText. cbn. unfold memRead. by destruct (fs !! p) as [[]|]. Qed.

Lemma directories_keep_texts (dirs : list jsstring) (fs : Files) (p : jsstring) :
  (forall a, a ∈ dirs -> isRegularAt fs a = false) ->
  fileText memFs (foldr (fun a acc => <[a := DirectoryNode]> acc) fs dirs) p
  = fileText memFs fs p.
Proof.
  intros Hdirs. induction dirs as [|a dirs IH]; [done |]. cbn [foldr].
  rewrite memFs_fileText. destruct (decide (a = p)) as [-> | Hne].
  - rewrite lookup_insert_eq, memFs_fileText.
    specialize (Hdirs p (proj2 (elem_of_cons _ _ _) (or_introl eq_refl))).
    unfold isRegularAt in Hdirs. by destruct (fs !! p) as [[]|].
  - rewrite lookup_insert_ne by done. rewrite <- memFs_fileText. apply IH.
    intros b Hb. apply Hdirs, elem_of_cons. by right.
Qed.

Lemma memFs_laws : FsLaws memFs.
Proof.
  split.
  - intros dir fs p. cbn [fsp_mkdir memFs]. unfold memMkdir.
    destruct (existsb (isRegularAt fs) (ancestorsFrom (length dir) dir)) eqn:E; [done |].
    cbn [fst]. apply directories_keep_texts. intros a Ha.
    destruct (isRegularAt fs a) eqn:Ea; [| done].
    assert (existsb (isRegularAt fs) (ancestorsFrom (length dir) dir) = true) as Htrue
      by (apply existsb_exists; exists a; split; [by apply list_elem_of_In | done]).
    congruence.
  - intros p content fs fs'. cbn [fsp_writeFile memFs]. unfold memWrite.
    rewrite memFs_fileText.
    destruct (fs !! p) as [[c|]|]; try done;
      (destruct (isDirectoryAt fs (posixDirname p)); [| done]);
      intros [= <-]; by rewrite lookup_insert_eq.
  - intros p content fs q Hq. cbn [fsp_writeFile memFs]. unfold memWrite.
    destruct (fs !! p) as [[c|]|]; try done;
      (destruct (isDirectoryAt fs (posixDirname p)); [| done]);
      cbn [fst]; by rewrite !memFs_fileText, lookup_insert_ne.
  - intros from to fs fs'. cbn [fsp_rename memFs]. unfold memRename.
    rewrite !memFs_fileText.
    destruct (fs !! from) as [[c|]|] eqn:Efrom; try done.
    destruct (fs !! to) as [[c'|]|]; try done;
      (destruct (isDirectoryAt fs (posixDirname to)); [| done]);
      intros [= <-]; by rewrite lookup_insert_eq.
  - intros from to fs q _ Hfrom Hto. cbn [fsp_rename memFs]. unfold memRename.
    destruct (fs !! from) as [[c|]|]; try done.
    destruct (fs !! to) as [[c'|]|]; try done;
      (destruct (isDirectoryAt fs (posixDirname to)); [| done]);
      cbn [fst]; rewrite !memFs_fileText, lookup_insert_ne by done;
      by rewrite lookup_delete_ne.
  - intros p fs content. cbn [fs_readFileSync fs_existsSync memFs].
    unfold memRead, memExists. by destruct (fs !! p) as [[c|]|].
Qed.

Lemma sampleHost_separate : PerFile.separateDestinations sampleHost (js "/skills").
Proof.
  intros a b Ha Hb Hne.
  repeat (apply elem_of_cons in Ha as [-> | Ha]);
    try (by apply elem_of_nil in Ha);
    repeat (apply elem_of_cons in Hb as [-> | Hb]);
    try (by apply elem_of_nil in Hb);
    try done;
    apply (bool_decide_unpack _); vm_compute; exact I.
Qed.


Lemma pair_snd {A B} (p : A * B) (b : B) : snd p = b -> p = (fst p, b).
Proof. destruct p. simpl. by intros ->. Qed.



(** ** More on placeholder resolution *)

Lemma resolveFrom_plain (env : Env) (fuel : nat) (s : jsstring) :
  placeholdersFrom fuel s = [] -> resolveFrom env fuel s = Ok s.
Proof.
  revert s. induction fuel as [|fuel IH]; intros s Hnone; [reflexivity |].
  destruct s as [|c t]; [reflexivity |].
  cbn [resolveFrom placeholdersFrom] in *.
  destruct (matchPlaceholder (c :: t)) as [[name rest]|]; [done |].
  by rewrite IH.
Qed.

Lemma placeholders_no_dollar (s : jsstring) : DOLLAR ∉ s -> placeholders s = [].
Proof.
  intros Hs. rewrite <- (app_nil_r s). by rewrite placeholders_skip_prefix.
Qed.

(** X1. A value that holds no placeholder, in particular a value without a
    dollar sign, is returned as it is, whatever the environment. *)
Theorem resolveEnvVars_plain (env : Env) (s : jsstring) :
  (placeholders s = [] -> resolveEnvVars env s = Ok s) /\
  (DOLLAR ∉ s -> resolveEnvVars env s = Ok s).
Proof.
  split.
  - apply resolveFrom_plain.
  - intros Hs. by apply resolveFrom_plain, placeholders_no_dollar.
Qed.

Lemma resolveEnvVars_plain_witness :
  resolveEnvVars noEnv (js "https://custom.browserbase.com")
  = Ok (js "https://custom.browserbase.com").
Proof.
  apply (proj2 (resolveEnvVars_plain noEnv (js "https://custom.browserbase.com"))).
  apply (bool_decide_unpack _). vm_compute. exact I.
Defined.

Lemma mapR_mapR {A B C} (f : A -> B) (g : B -> C) (r : Result A) :
  mapR g (mapR f r) = mapR (fun a => g (f a)) r.
Proof. by destruct r. Qed.

Lemma resolveEnvVars_skip_prefix (env : Env) (pre s : jsstring) :
  DOLLAR ∉ pre ->
  resolveEnvVars env (pre ++ s) = mapR (app pre) (resolveEnvVars env s).
Proof.
  induction pre as [|c pre IH]; intros Hpre.
  - change ([] ++ s) with s. by destruct (resolveEnvVars env s).
  - apply not_elem_of_cons in Hpre as [Hc Hpre].
    rewrite <- app_comm_cons, resolveEnvVars_skip.
    + rewrite IH by done. by destruct (resolveEnvVars env s).
    + unfold matchPlaceholder. destruct (pre ++ s); [done |].
      destruct (N.eqb_spec c DOLLAR) as [-> | _]; done.
Qed.

(** X2. Substitution is done once, left to right: the first placeholder is
    replaced by the value of its variable exactly as that value is, the text
    before it is kept, and only the text after it is resolved further; the
    inserted value is not scanned again. *)
Theorem resolveEnvVars_first (env : Env) (pre name post v : jsstring) :
  DOLLAR ∉ pre -> name <> [] -> RBRACE ∉ name ->
  env name = Some v -> v <> [] ->
  resolveEnvVars env (pre ++ DOLLAR :: LBRACE :: name ++ RBRACE :: post)
  = mapR (fun rest => pre ++ v ++ rest) (resolveEnvVars env post).
Proof.
  intros Hpre Hne Hn Henv Hv. rewrite resolveEnvVars_skip_prefix by done.
  rewrite (resolveEnvVars_match env _ name post) by by apply matchPlaceholder_complete.
  unfold lookupEnvVar. rewrite Henv. destruct v as [|c v]; [done |].
  cbn [bindR]. by destruct (resolveEnvVars env post).
Qed.

Lemma resolveEnvVars_first_witness :
  resolveEnvVars (envWith (js "A") (js "${B}")) (js "x-${A}-y") = Ok (js "x-${B}-y").
Proof.
  apply (resolveEnvVars_first (envWith (js "A") (js "${B}"))
           (js "x-") (js "A") (js "-y") (js "${B}")).
  - apply (bool_decide_unpack _). vm_compute. exact I.
  - discriminate.
  - apply (bool_decide_unpack _). vm_compute. exact I.
  - reflexivity.
  - discriminate.
Defined.

Lemma resolveFrom_nonempty (env : Env) (fuel : nat) (s v : jsstring) :
  resolveFrom env fuel s = Ok v -> s <> [] -> v <> [].
Proof.
  destruct fuel as [|fuel]; cbn [resolveFrom]; [by intros [= ->] |].
  destruct s as [|c t]; [done |].
  destruct (matchPlaceholder (c :: t)) as [[name rest]|].
  - unfold lookupEnvVar. destruct (env name) as [[|e ev]|]; try done.
    cbn [bindR]. destruct (resolveFrom env fuel rest); [| done].
    by intros [= <-].
  - destruct (resolveFrom env fuel t); [| done]. by intros [= <-].
Qed.

Lemma parseBaseUrl_nonempty (env : Env) (v : JsValue) (url : jsstring) :
  parseBaseUrl env v = Ok url -> url <> [].
Proof.
  destruct v; simpl; try by intros [= <-].
  destruct (trim s) eqn:E; [by intros [= <-] |].
  intros H. by eapply resolveFrom_nonempty.
Qed.

Lemma credential_empty (env : Env) (v : JsValue) (name : jsstring) :
  credential env v name = Some [] -> env name = Some [].
Proof.
  unfold credential, parseOptionalString.
  destruct v; simpl; try done.
  destruct (trim s) eqn:E; [done |].
  destruct (resolveEnvVars env (n :: l)) as [w|] eqn:R; [| done].
  simpl. intros [= ->]. by apply resolveFrom_nonempty in R.
Qed.

Lemma parseConfig_shape (env : Env) (raw : JsValue) (cfg : BrowserbaseConfig) :
  parseConfig env raw = Ok cfg ->
  exists props url,
    parseBaseUrl env (getProp props (js "baseUrl")) = Ok url /\
    cfg = {| apiKey := credential env (getProp props (js "apiKey")) API_KEY_VAR;
             projectId := credential env (getProp props (js "projectId")) PROJECT_ID_VAR;
             baseUrl := url;
             promptOnStart := asBoolean (getProp props (js "promptOnStart"));
             autoSyncSkills := asBoolean (getProp props (js "autoSyncSkills")) |}.
Proof.
  destruct (isRecord raw) eqn:Hrec.
  - destruct raw; try done. rewrite parseConfig_record.
    destruct (unknownKeys props); [| done].
    destruct (parseBaseUrl env (getProp props (js "baseUrl"))) as [url|] eqn:E; [| done].
    intros [= <-]. by exists props, url.
  - unfold parseConfig. rewrite Hrec. intros [= <-].
    by exists [], DEFAULT_BASE_URL.
Qed.

(** X3. Whatever the input, a configuration that [parseConfig] returns has
    a non-empty [baseUrl]; and an empty [apiKey] or [projectId] in it can only
    be the value of the environment variable, never a value of the source. *)
Theorem parseConfig_nonempty_fields (env : Env) (raw : JsValue) (cfg : BrowserbaseConfig) :
  parseConfig env raw = Ok cfg ->
  baseUrl cfg <> [] /\
  (apiKey cfg = Some [] -> env API_KEY_VAR = Some []) /\
  (projectId cfg = Some [] -> env PROJECT_ID_VAR = Some []).
Proof.
  intros (props & url & Hurl & ->)%parseConfig_shape. simpl. split_and!.
  - by eapply parseBaseUrl_nonempty.
  - apply credential_empty.
  - apply credential_empty.
Qed.

Lemma parseConfig_nonempty_fields_witness :
  baseUrl (mkConfig None None DEFAULT_BASE_URL None None) <> [].
Proof.
  apply (parseConfig_nonempty_fields noEnv (JsObject [(js "baseUrl", JsString (js "   "))])
           (mkConfig None None DEFAULT_BASE_URL None None)).
  reflexivity.
Defined.

(** X4. On a record, [parseConfig] succeeds exactly when every key is in
    the allow-list and [baseUrl] holds no placeholder that fails, that is, no
    placeholder whose lookup in [process.env] gives nothing or the empty
    string. *)
Theorem parseConfig_succeeds_iff (env : Env) (props : Record) :
  (exists cfg, parseConfig env (JsObject props) = Ok cfg) <->
  (forall key, key ∈ Object_keys props -> key ∈ ALLOWED_KEYS) /\
  ~ fieldUnresolved env (getProp props (js "baseUrl")).
Proof.
  rewrite parseConfig_record, <- unknownKeys_nil. split.
  - intros [cfg Hcfg]. destruct (unknownKeys props); [| done]. split; [done |].
    intros Hun. destruct (getProp props (js "baseUrl")); try done.
    destruct (parseBaseUrl_unresolved env s Hun) as (name & _ & _ & Hthrow).
    by rewrite Hthrow in Hcfg.
  - intros [-> Hurl]. destruct (parseBaseUrl_resolved _ _ Hurl) as [url ->].
    by eexists.
Qed.

Lemma parseConfig_succeeds_iff_witness :
  exists cfg, parseConfig noEnv (JsObject placeholderKeyRecord) = Ok cfg.
Proof.
  apply (proj2 (parseConfig_succeeds_iff noEnv placeholderKeyRecord)). split.
  - apply Forall_forall. apply (bool_decide_unpack _). vm_compute. exact I.
  - simpl. tauto.
Defined.

(** X5. The two flags are read only from values that are booleans: in a
    parsed configuration a flag holds [b] exactly when the source holds the
    boolean [b] under that key; any other value (a string, a number, null)
    leaves the flag unset and raises no error. *)
Theorem parseConfig_flags (env : Env) (props : Record) (cfg : BrowserbaseConfig) :
  parseConfig env (JsObject props) = Ok cfg ->
  forall b,
    (promptOnStart cfg = Some b <-> getProp props (js "promptOnStart") = JsBoolean b) /\
    (autoSyncSkills cfg = Some b <-> getProp props (js "autoSyncSkills") = JsBoolean b).
Proof.
  rewrite parseConfig_record. destruct (unknownKeys props); [| done].
  destruct (parseBaseUrl env (getProp props (js "baseUrl"))); [| done].
  intros [= <-] b. simpl. split.
  - destruct (getProp props (js "promptOnStart")); simpl; split; congruence.
  - destruct (getProp props (js "autoSyncSkills")); simpl; split; congruence.
Qed.

Lemma parseConfig_flags_witness :
  promptOnStart (mkConfig None None DEFAULT_BASE_URL None None) = Some false <->
  getProp [(js "promptOnStart", JsString (js "false"))] (js "promptOnStart")
  = JsBoolean false.
Proof.
  refine (proj1 (parseConfig_flags noEnv [(js "promptOnStart", JsString (js "false"))]
                   (mkConfig None None DEFAULT_BASE_URL None None) _ false)).
  reflexivity.
Defined.

(** X6. [parseConfig] reads a record of allowed keys through its five
    fields only: two such records that hold the same value under every
    allowed key, whatever the order of their properties, parse alike. *)
Theorem parseConfig_same_fields (env : Env) (a b : Record) :
  (forall key, key ∈ Object_keys a -> key ∈ ALLOWED_KEYS) ->
  (forall key, key ∈ Object_keys b -> key ∈ ALLOWED_KEYS) ->
  (forall key, key ∈ ALLOWED_KEYS -> getProp a key = getProp b key) ->
  parseConfig env (JsObject a) = parseConfig env (JsObject b).
Proof.
  intros Ha%unknownKeys_nil Hb%unknownKeys_nil Hsame.
  rewrite !parseConfig_record, Ha, Hb.
  rewrite !Hsame; [done | | | | |];
    apply (bool_decide_unpack _); vm_compute; exact I.
Qed.

Lemma parseConfig_same_fields_witness :
  parseConfig noEnv
    (JsObject [(js "apiKey", JsString (js "k")); (js "projectId", JsString (js "p"))])
  = parseConfig noEnv
      (JsObject [(js "projectId", JsString (js "p")); (js "apiKey", JsString (js "k"))]).
Proof.
  apply parseConfig_same_fields.
  - apply Forall_forall. apply (bool_decide_unpack _). vm_compute. exact I.
  - apply Forall_forall. apply (bool_decide_unpack _). vm_compute. exact I.
  - intros key Hkey.
    repeat (apply elem_of_cons in Hkey as [-> | Hkey]; [reflexivity |]).
    by apply elem_of_nil in Hkey.
Defined.

Lemma nullish_assoc {A} (a b c : option A) :
  nullish (nullish a b) c = nullish a (nullish b c).
Proof. by destruct a. Qed.

(** X7. [mergeConfig] is associative and idempotent, so a chain of sources
    has one meaning however the merges are nested; a fallback that sets no
    optional field changes nothing; and an optional field is defined in the
    merge exactly when one of the two configurations defines it. *)
Theorem mergeConfig_laws (a b c : BrowserbaseConfig) :
  mergeConfig (mergeConfig a b) c = mergeConfig a (mergeConfig b c) /\
  mergeConfig a a = a /\
  (apiKey b = None -> projectId b = None -> promptOnStart b = None ->
   autoSyncSkills b = None -> mergeConfig a b = a) /\
  (is_Some (apiKey (mergeConfig a b)) <-> is_Some (apiKey a) \/ is_Some (apiKey b)) /\
  (is_Some (projectId (mergeConfig a b)) <->
   is_Some (projectId a) \/ is_Some (projectId b)).
Proof.
  destruct a as [a1 a2 a3 a4 a5], b as [b1 b2 b3 b4 b5], c as [c1 c2 c3 c4 c5].
  unfold mergeConfig; simpl. split_and!.
  - by rewrite !nullish_assoc.
  - by destruct a1, a2, a4, a5.
  - intros -> -> -> ->. by destruct a1, a2, a4, a5.
  - destruct a1, b1; simpl; split; eauto; intros [[? [=]] | [? [=]]].
  - destruct a2, b2; simpl; split; eauto; intros [[? [=]] | [? [=]]].
Qed.

Lemma mergeConfig_laws_witness :
  mergeConfig (mkConfig (Some (js "k")) None DEFAULT_BASE_URL None (Some false))
              (mkConfig None None (js "https://other.example.com") None None)
  = mkConfig (Some (js "k")) None DEFAULT_BASE_URL None (Some false).
Proof.
  apply (proj1 (proj2 (proj2
           (mergeConfig_laws
              (mkConfig (Some (js "k")) None DEFAULT_BASE_URL None (Some false))
              (mkConfig None None (js "https://other.example.com") None None)
              (mkConfig None None DEFAULT_BASE_URL None None)))));
    reflexivity.
Defined.

(** ** shellEscape *)

Lemma replace_quote_inj (a b : jsstring) :
  replaceAllUnit SQUOTE [SQUOTE; DQUOTE; SQUOTE; DQUOTE; SQUOTE] a
  = replaceAllUnit SQUOTE [SQUOTE; DQUOTE; SQUOTE; DQUOTE; SQUOTE] b ->
  a = b.
Proof.
  revert b. induction a as [|x a IH]; intros [|y b]; rewrite ?replaceAllUnit_cons.
  - done.
  - by destruct (y =? SQUOTE).
  - by destruct (x =? SQUOTE).
  - destruct (N.eqb_spec x SQUOTE) as [-> | Hx], (N.eqb_spec y SQUOTE) as [-> | Hy].
    + intros H. f_equal. apply IH. by simplify_list_eq.
    + intros [= <- _]. done.
    + intros [= -> _]. done.
    + intros [= -> H]. f_equal. by apply IH.
Qed.

(** X8. [shellEscape] loses nothing: two different values never have the
    same escaped text; and a value without a single quote is the value itself
    between single quotes. *)
Theorem shellEscape_injective (a b : jsstring) :
  (shellEscape a = shellEscape b -> a = b) /\
  (SQUOTE ∉ a -> shellEscape a = [SQUOTE] ++ a ++ [SQUOTE]).
Proof.
  unfold shellEscape. split.
  - intros H. apply replace_quote_inj. by simplify_list_eq.
  - intros Ha. do 2 f_equal. induction a as [|x a IH]; [done |].
    apply not_elem_of_cons in Ha as [Hx Ha].
    rewrite replaceAllUnit_cons, IH by done.
    by destruct (N.eqb_spec x SQUOTE) as [-> | _].
Qed.

Lemma shellEscape_injective_witness :
  shellEscape (js "hello world") = [SQUOTE] ++ js "hello world" ++ [SQUOTE].
Proof.
  apply (proj2 (shellEscape_injective (js "hello world") [])).
  apply (bool_decide_unpack _). vm_compute. exact I.
Defined.

Lemma shellReadFrom_single (v rest : jsstring) :
  shellReadFrom InSingle
    (replaceAllUnit SQUOTE [SQUOTE; DQUOTE; SQUOTE; DQUOTE; SQUOTE] v ++ rest)
  = app v <$> shellReadFrom InSingle rest.
Proof.
  induction v as [|x v IH].
  - simpl. by destruct (shellReadFrom InSingle rest).
  - rewrite replaceAllUnit_cons.
    destruct (N.eqb_spec x SQUOTE) as [-> | Hx].
    + cbn -[replaceAllUnit]. rewrite IH.
      by destruct (shellReadFrom InSingle rest).
    + cbn -[replaceAllUnit]. apply N.eqb_neq in Hx as ->. rewrite IH.
      by destruct (shellReadFrom InSingle rest).
Qed.

(** X9. A shell that reads the text of [shellEscape] as one word gets the
    value back, code unit for code unit. *)
Theorem shellRead_shellEscape (v : jsstring) : shellRead (shellEscape v) = Some v.
Proof.
  unfold shellRead, shellEscape. cbn -[replaceAllUnit].
  rewrite shellReadFrom_single. simpl. by rewrite app_nil_r.
Qed.

(** ** dotenvEscape, continued *)

Lemma dotenvEscape_unfold (value : jsstring) :
  dotenvEscape value =
  if existsb spec_mustQuote value
  then [DQUOTE] ++ flat_map spec_escapeUnit value ++ [DQUOTE]
  else value.
Proof.
  unfold dotenvEscape. by rewrite quote_test_eq, replace_chain_single_pass.
Qed.

Lemma escapeUnit_inj (a b : jsstring) :
  flat_map spec_escapeUnit a = flat_map spec_escapeUnit b -> a = b.
Proof.
  revert b. induction a as [|x a IH]; intros [|y b]; cbn [flat_map].
  - done.
  - unfold spec_escapeUnit. by repeat case_match.
  - unfold spec_escapeUnit. by repeat case_match.
  - unfold spec_escapeUnit.
    destruct (N.eqb_spec x BACKSLASH) as [-> | ?];
      [| destruct (N.eqb_spec x DQUOTE) as [-> | ?];
         [| destruct (N.eqb_spec x LF) as [-> | ?];
            [| destruct (N.eqb_spec x CR) as [-> | ?]]]];
    (destruct (N.eqb_spec y BACKSLASH) as [-> | ?];
      [| destruct (N.eqb_spec y DQUOTE) as [-> | ?];
         [| destruct (N.eqb_spec y LF) as [-> | ?];
            [| destruct (N.eqb_spec y CR) as [-> | ?]]]]);
    cbn [app]; intros H; simplify_eq; try done; f_equal; apply IH; assumption.
Qed.

(** X10. [dotenvEscape] loses nothing either: two different values never
    have the same escaped text. *)
Theorem dotenvEscape_injective (a b : jsstring) :
  dotenvEscape a = dotenvEscape b -> a = b.
Proof.
  rewrite !dotenvEscape_unfold.
  destruct (existsb spec_mustQuote a) eqn:Ea, (existsb spec_mustQuote b) eqn:Eb.
  - intros H. apply escapeUnit_inj. by simplify_list_eq.
  - intros <-. simpl in Eb. done.
  - intros ->. simpl in Ea. done.
  - done.
Qed.

Lemma dotenvEscape_injective_witness : js "a b" = js "a b".
Proof. apply (dotenvEscape_injective (js "a b") (js "a b")). reflexivity. Defined.

Ltac elem_cases H :=
  repeat (apply elem_of_cons in H as [-> | H]; [done |]); by apply elem_of_nil in H.

(** X11. The text of [dotenvEscape] is one line: it holds neither a line
    feed nor a carriage return, whatever the value. *)
Theorem dotenvEscape_one_line (value : jsstring) (c : N) :
  c ∈ dotenvEscape value -> c <> LF /\ c <> CR.
Proof.
  rewrite dotenvEscape_unfold.
  destruct (existsb spec_mustQuote value) eqn:E.
  - rewrite !elem_of_app, !list_elem_of_singleton, list_elem_of_In, in_flat_map.
    intros [-> | [(x & _ & Hx) | ->]]; [done | | done].
    apply list_elem_of_In in Hx. unfold spec_escapeUnit in Hx.
    destruct (N.eqb_spec x BACKSLASH); [elem_cases Hx |].
    destruct (N.eqb_spec x DQUOTE); [elem_cases Hx |].
    destruct (N.eqb_spec x LF); [elem_cases Hx |].
    destruct (N.eqb_spec x CR); [elem_cases Hx |].
    apply list_elem_of_singleton in Hx as ->. done.
  - intros Hc. split; intros ->.
    + assert (existsb spec_mustQuote value = true); [| congruence].
      apply existsb_exists. exists LF. by rewrite <- list_elem_of_In.
    + assert (existsb spec_mustQuote value = true); [| congruence].
      apply existsb_exists. exists CR. by rewrite <- list_elem_of_In.
Qed.

Lemma dotenvEscape_one_line_witness : 92 <> LF /\ 92 <> CR.
Proof.
  apply (dotenvEscape_one_line [LF] 92).
  apply (bool_decide_unpack _). vm_compute. exact I.
Defined.

(** ** maskSecret, continued *)

Lemma maskSecret_cases (s : jsstring) :
  s <> [] ->
  maskSecret (Some s) =
  if (length s <=? 8)%nat then replicate (Nat.max 4 (length s)) STAR
  else take 4 s ++ js "..." ++ drop (length s - 4) s.
Proof.
  destruct s as [|c s]; [done |]. intros _. rewrite maskSecret_nonempty.
  destruct (Nat.leb_spec (length (c :: s)) 8) as [Hle | Hgt].
  - apply repeatStr_unit.
  - change 4%Z with (Z.of_nat 4). change (-4)%Z with (- Z.of_nat 4)%Z.
    rewrite (slice_head (c :: s) 4), (slice_tail (c :: s) 4) by lia. done.
Qed.

(** X12. The mask of a secret is the secret itself in exactly two cases: the
    secret is a run of four to eight asterisks, or it is eleven code units
    long with three dots in the middle.  With every other secret the text
    shown differs from the secret. *)
Theorem maskSecret_fixed_points (s : jsstring) :
  maskSecret (Some s) = s <->
  (exists n, (4 <= n <= 8)%nat /\ s = replicate n STAR) \/
  (length s = 11%nat /\ take 3 (drop 4 s) = js "...").
Proof.
  destruct (decide (s = [])) as [-> | Hne].
  { split; [done |]. intros [(n & Hn & Hs) | [Hlen _]]; [| done].
    destruct n; [lia | done]. }
  rewrite maskSecret_cases by done.
  destruct (Nat.leb_spec (length s) 8) as [Hle | Hgt]; split.
  - intros Hs. left. exists (length s).
    assert (length s = Nat.max 4 (length s)) as Hlen.
    { rewrite <- Hs at 1. by rewrite length_replicate. }
    split; [| by rewrite Hlen at 1].
    destruct s; [done | simpl in *; lia].
  - intros [(n & Hn & ->) | [Hlen _]]; [| lia].
    rewrite length_replicate. f_equal. lia.
  - intros Hs. right.
    assert (length s = 11%nat) as Hlen.
    { rewrite <- Hs at 1. rewrite !length_app, length_take, length_drop.
      change (length (js "...")) with 3%nat. lia. }
    split; [done |]. rewrite <- Hs at 1.
    rewrite drop_app_length'; [done |]. rewrite length_take. lia.
  - intros [(n & Hn & ->) | [Hlen Hdots]].
    { rewrite length_replicate in Hgt. lia. }
    rewrite <- Hdots, Hlen.
    rewrite <- (take_drop 4 s) at 4. f_equal.
    rewrite <- (take_drop 3 (drop 4 s)) at 2. f_equal.
    by rewrite drop_drop.
Qed.

Lemma maskSecret_fixed_points_witness :
  maskSecret (Some (js "abcd...wxyz")) = js "abcd...wxyz".
Proof.
  apply (proj2 (maskSecret_fixed_points (js "abcd...wxyz"))).
  right. split; reflexivity.
Defined.

Example maskSecret_shows_all :
  maskSecret (Some (js "abcd...wxyz")) = js "abcd...wxyz" /\
  maskSecret (Some (js "****")) = js "****".
Proof. split; reflexivity. Qed.

(** ** Records that are updated *)

Lemma getProp_absent (r : Record) (key : jsstring) :
  key ∉ Object_keys r -> getProp r key = JsUndefined.
Proof.
  induction r as [|[k w] rest IH]; [done |]. simpl.
  intros [Hk Hrest]%not_elem_of_cons. rewrite bool_decide_eq_false_2 by done.
  by apply IH.
Qed.

Lemma getProp_updateProp (r : Record) (key k' : jsstring) (v : JsValue) :
  key ∈ Object_keys r ->
  getProp (updateProp r key v) k' = if bool_decide (key = k') then v else getProp r k'.
Proof.
  induction r as [|[k w] rest IH]; simpl; [by intros ?%elem_of_nil |].
  intros Hin. destruct (decide (k = key)) as [-> | Hk].
  - rewrite (bool_decide_eq_true_2 (key = key)) by done. simpl. by case_bool_decide.
  - rewrite (bool_decide_eq_false_2 (k = key)) by done. simpl.
    apply elem_of_cons in Hin as [-> | Hin]; [done |].
    rewrite IH by done. repeat case_bool_decide; congruence.
Qed.

Lemma getProp_insertIndexed (i : N) (r : Record) (key k' : jsstring) (v : JsValue) :
  key ∉ Object_keys r ->
  getProp (insertIndexed i key v r) k' = if bool_decide (key = k') then v else getProp r k'.
Proof.
  induction r as [|[k w] rest IH]; simpl; [done |].
  intros [Hk Hrest]%not_elem_of_cons.
  destruct (arrayIndex k) as [jx|]; [destruct (jx <? i) |]; simpl; try done.
  rewrite IH by done. repeat case_bool_decide; congruence.
Qed.

Lemma getProp_app_new (r : Record) (key k' : jsstring) (v : JsValue) :
  key ∉ Object_keys r ->
  getProp (r ++ [(key, v)]) k' = if bool_decide (key = k') then v else getProp r k'.
Proof.
  induction r as [|[k w] rest IH]; simpl; [done |].
  intros [Hk Hrest]%not_elem_of_cons.
  rewrite IH by done. repeat case_bool_decide; congruence.
Qed.

(** Reading after an assignment. *)
Lemma getProp_setProp (r : Record) (key k' : jsstring) (v : JsValue) :
  getProp (setProp r key v) k' = if bool_decide (key = k') then v else getProp r k'.
Proof.
  unfold setProp, hasOwn. case_bool_decide as Hin.
  - by apply getProp_updateProp.
  - destruct (arrayIndex key).
    + by apply getProp_insertIndexed.
    + by apply getProp_app_new.
Qed.

Lemma getProp_setProp_same (r : Record) (key : jsstring) (v : JsValue) :
  getProp (setProp r key v) key = v.
Proof. by rewrite getProp_setProp, bool_decide_eq_true_2. Qed.

Lemma getProp_setProp_other (r : Record) (key k' : jsstring) (v : JsValue) :
  key <> k' -> getProp (setProp r key v) k' = getProp r k'.
Proof. intros H. by rewrite getProp_setProp, bool_decide_eq_false_2. Qed.

Lemma getProp_foldl_set (source : Record) (keys : list jsstring) (target : Record)
  (k : jsstring) :
  getProp (foldl (fun acc key => setProp acc key (getProp source key)) target keys) k
  = if bool_decide (k ∈ keys) then getProp source k else getProp target k.
Proof.
  revert target. induction keys as [|key keys IH]; intros target; [done |].
  cbn [foldl]. rewrite IH, getProp_setProp.
  destruct (decide (k ∈ keys)) as [Hin | Hout].
  - rewrite !bool_decide_eq_true_2; [done | | done]. apply elem_of_cons. by right.
  - rewrite (bool_decide_eq_false_2 (k ∈ keys)) by done.
    destruct (decide (key = k)) as [-> | Hk].
    + rewrite (bool_decide_eq_true_2 (k = k)) by done.
      rewrite bool_decide_eq_true_2; [done |]. apply elem_of_cons. by left.
    + rewrite (bool_decide_eq_false_2 (key = k)) by done.
      rewrite bool_decide_eq_false_2; [done |].
      intros [-> | ?]%elem_of_cons; done.
Qed.

(** Reading after a spread: the source wins on its own keys. *)
Lemma getProp_spreadInto (target source : Record) (k : jsstring) :
  getProp (spreadInto target source) k =
  if bool_decide (k ∈ Object_keys source) then getProp source k else getProp target k.
Proof. apply getProp_foldl_set. Qed.

Lemma ensureRecord_object (r : Record) : ensureRecord (JsObject r) = r.
Proof. reflexivity. Qed.

Lemma ensureRecord_non_record (v : JsValue) : isRecord v = false -> ensureRecord v = [].
Proof. unfold ensureRecord. by intros ->. Qed.

(** ** The plugin section of the configuration file *)

(** Reading after an assignment: the key [__proto__] is lost unless the
    object has it as a property of its own. *)
Lemma assignProp_plain (r : Record) (key : jsstring) (v : JsValue) :
  (key = js "__proto__" -> hasOwn r key = true) -> assignProp r key v = setProp r key v.
Proof.
  intros Hown. unfold assignProp. case_bool_decide as Hkey; [| done].
  by rewrite (Hown Hkey).
Qed.

Lemma assignProp_lost (r : Record) (v : JsValue) :
  hasOwn r (js "__proto__") = false -> assignProp r (js "__proto__") v = r.
Proof. intros Hown. unfold assignProp. by rewrite Hown. Qed.

Lemma getProp_assignProp_other (r : Record) (key k' : jsstring) (v : JsValue) :
  key <> k' -> getProp (assignProp r key v) k' = getProp r k'.
Proof.
  intros Hne. unfold assignProp.
  destruct (bool_decide (key = js "__proto__") && negb (hasOwn r key)); [done |].
  by apply getProp_setProp_other.
Qed.

Lemma getProp_assignProp_same (r : Record) (key : jsstring) (v : JsValue) :
  (key = js "__proto__" -> hasOwn r key = true) -> getProp (assignProp r key v) key = v.
Proof. intros Hown. rewrite assignProp_plain by done. apply getProp_setProp_same. Qed.

Lemma Ok_inj {A} (a b : A) : Ok a = Ok b -> a = b.
Proof. by intros [= ->]. Qed.

(** Reading never changes the tree, and its result is this one. *)
Lemma readJsonFile_eq (f : FsHost) (j : JsonHost) (path : jsstring) (fs : Files) :
  readJsonFile f j path fs =
  (fs,
   if fs_existsSync f path fs then
     raw <-! fs_readFileSync f path fs;
     match trim raw with
     | [] => Ok []
     | _ :: _ =>
         parsed <-! JSON_parse j (trim raw);
         if isRecord parsed then Ok (asRecord parsed)
         else Throw (expectedObjectMessage path)
     end
   else Ok []).
Proof.
  unfold readJsonFile. destruct (fs_existsSync f path fs); [| done]. cbn [negb].
  destruct (fs_readFileSync f path fs) as [raw|]; [| done]. cbn [bindR].
  destruct (trim raw); [done |].
  destruct (JSON_parse j (n :: l)) as [parsed|]; [| done]. cbn [bindR].
  by destruct (isRecord parsed).
Qed.

Lemma readJsonFile_state (f : FsHost) (j : JsonHost) (path : jsstring) (fs : Files) :
  fst (readJsonFile f j path fs) = fs.
Proof. by rewrite readJsonFile_eq. Qed.

Lemma readJsonFile_missing (f : FsHost) (j : JsonHost) (path : jsstring) (fs : Files) :
  fs_existsSync f path fs = false -> readJsonFile f j path fs = (fs, Ok []).
Proof. intros H. by rewrite readJsonFile_eq, H. Qed.


Lemma readPluginConfig_eq (f : FsHost) (j : JsonHost) (path pluginId : jsstring)
  (fs : Files) :
  readPluginConfig f j path pluginId fs =
  match readJsonFile f j path fs with
  | (fs', Ok root) =>
      (fs', Ok (ensureRecord
                  (getProp
                     (ensureRecord
                        (getProp
                           (ensureRecord
                              (getProp (ensureRecord (getProp root (js "plugins")))
                                 (js "entries")))
                           pluginId))
                     (js "config"))))
  | (fs', Throw message) => (fs', Throw message)
  end.
Proof.
  unfold readPluginConfig, ioBind.
  by destruct (readJsonFile f j path fs) as [fs' [root|]].
Qed.

(** X13. [readPluginConfig] never changes the file system.  A file that
    does not exist and a blank file read as the empty record.  The call
    throws in three cases only, all of them on a path that exists: the file
    cannot be read (the error of the read, as for a directory or a file
    without permission), its text is not JSON (the error of the parser), or
    it is JSON but not an object (the "Expected object" error, with the
    path). *)
Theorem readPluginConfig_outcomes (f : FsHost) (j : JsonHost) (path pluginId : jsstring)
  (fs : Files) :
  fst (readPluginConfig f j path pluginId fs) = fs /\
  (fs_existsSync f path fs = false -> readPluginConfig f j path pluginId fs = (fs, Ok [])) /\
  (forall raw, fs_existsSync f path fs = true -> fs_readFileSync f path fs = Ok raw ->
               trim raw = [] ->
               readPluginConfig f j path pluginId fs = (fs, Ok [])) /\
  (forall message,
     snd (readPluginConfig f j path pluginId fs) = Throw message <->
     fs_existsSync f path fs = true /\
     (fs_readFileSync f path fs = Throw message \/
      exists raw,
        fs_readFileSync f path fs = Ok raw /\ trim raw <> [] /\
        (JSON_parse j (trim raw) = Throw message \/
         exists parsed, JSON_parse j (trim raw) = Ok parsed /\ isRecord parsed = false /\
                        message = expectedObjectMessage path))).
Proof.
  rewrite readPluginConfig_eq, readJsonFile_eq. split_and!.
  - by destruct (if fs_existsSync f path fs then _ else _).
  - by intros ->.
  - intros raw -> -> Hblank. cbn [bindR]. by rewrite Hblank.
  - intros message. destruct (fs_existsSync f path fs).
    + destruct (fs_readFileSync f path fs) as [raw|m] eqn:Eraw; cbn [bindR].
      * split.
        -- intros H. split; [done |]. right. exists raw. split; [done |].
           destruct (trim raw) eqn:Et; [done |]. split; [done |].
           destruct (JSON_parse j (n :: l)) as [parsed|] eqn:Ep; cbn [bindR] in H.
           ++ right. exists parsed. destruct (isRecord parsed); [done |].
              simpl in H. by injection H as <-.
           ++ left. simpl in H. by injection H as <-.
        -- intros [_ [[=] | (raw' & [= <-] & Hne & Hcase)]].
           revert Hcase. destruct (trim raw) eqn:Et; [done |].
           intros [-> | (parsed & -> & Hrec & ->)]; cbn [bindR];
             [done | by rewrite Hrec].
      * split.
        -- intros [= <-]. split; [done | by left].
        -- by intros [_ [[= <-] | (raw & [=] & _)]].
    + split; [done |]. by intros [[=] _].
Qed.

Lemma readPluginConfig_outcomes_witness :
  readPluginConfig memFs (mkJsonHost (fun _ => Ok JsNull) (fun _ => [])) (js "/cfg.json")
    PLUGIN_ID ∅ = (∅, Ok []).
Proof.
  apply (proj1 (proj2 (readPluginConfig_outcomes memFs
                         (mkJsonHost (fun _ => Ok JsNull) (fun _ => []))
                         (js "/cfg.json") PLUGIN_ID ∅))).
  reflexivity.
Defined.

Lemma ensureRecord_nonempty (v : JsValue) :
  ensureRecord v <> [] -> v = JsObject (ensureRecord v).
Proof. destruct v; try done. Qed.

(** X14. [readPluginConfig] returns a record that is not empty only when
    the file exists and holds a JSON object in which [plugins],
    [plugins.entries], the entry of the plugin and its [config] are all
    objects; the record is then that [config].  A level that is missing or is
    not an object gives the empty record, without an error. *)
Theorem readPluginConfig_nonempty (f : FsHost) (j : JsonHost) (path pluginId : jsstring)
  (fs : Files) (saved : Record) :
  snd (readPluginConfig f j path pluginId fs) = Ok saved -> saved <> [] ->
  exists raw root plugins entries entry,
    fs_existsSync f path fs = true /\
    fs_readFileSync f path fs = Ok raw /\
    JSON_parse j (trim raw) = Ok (JsObject root) /\
    getProp root (js "plugins") = JsObject plugins /\
    getProp plugins (js "entries") = JsObject entries /\
    getProp entries pluginId = JsObject entry /\
    getProp entry (js "config") = JsObject saved.
Proof.
  rewrite readPluginConfig_eq, readJsonFile_eq.
  destruct (fs_existsSync f path fs); [| by intros [= <-]].
  destruct (fs_readFileSync f path fs) as [raw|]; [| done]. cbn [bindR].
  destruct (trim raw) eqn:Et; [by intros [= <-] |]. rewrite <- Et.
  destruct (JSON_parse j (trim raw)) as [parsed|] eqn:Ep; [| done]. cbn [bindR].
  destruct (isRecord parsed) eqn:Hrec; [| done].
  destruct parsed as [| | | | | | |root]; try done. cbn [snd asRecord].
  intros Hsaved%Ok_inj Hne. subst saved.
  pose proof (ensureRecord_nonempty _ Hne) as Hcfg.
  set (entry := ensureRecord _) in Hcfg.
  assert (entry <> []) as Hentry.
  { intros Hn. rewrite Hn in Hcfg. done. }
  pose proof (ensureRecord_nonempty _ Hentry) as He. fold entry in He.
  set (entries := ensureRecord _) in He.
  assert (entries <> []) as Hentries.
  { intros Hn. rewrite Hn in He. done. }
  pose proof (ensureRecord_nonempty _ Hentries) as Hes. fold entries in Hes.
  set (plugins := ensureRecord _) in Hes.
  assert (plugins <> []) as Hplugins.
  { intros Hn. rewrite Hn in Hes. done. }
  pose proof (ensureRecord_nonempty _ Hplugins) as Hp. fold plugins in Hp.
  exists raw, root, plugins, entries, entry. split_and!; done.
Qed.

Lemma readPluginConfig_nonempty_witness :
  exists raw root plugins entries entry,
    fs_existsSync memFs configFile storedFiles = true /\
    fs_readFileSync memFs configFile storedFiles = Ok raw /\
    JSON_parse sampleJson (trim raw) = Ok (JsObject root) /\
    getProp root (js "plugins") = JsObject plugins /\
    getProp plugins (js "entries") = JsObject entries /\
    getProp entries PLUGIN_ID = JsObject entry /\
    getProp entry (js "config") =
      JsObject [(js "apiKey", JsString (js "bb_key_1"));
                (js "projectId", JsString (js "proj_1"));
                (js "baseUrl", JsString (js "https://file.example.com"))].
Proof.
  apply (readPluginConfig_nonempty memFs sampleJson configFile PLUGIN_ID storedFiles).
  - vm_compute. reflexivity.
  - discriminate.
Defined.

(** After the read, the write is two calls: the directory, then the file. *)
Lemma writePluginConfig_eq (f : FsHost) (h : Host) (j : JsonHost)
  (path pluginId : jsstring) (cfg : Record) (fs : Files) :
  writePluginConfig f h j path pluginId cfg fs =
  match readJsonFile f j path fs with
  | (fs', Ok root) =>
      (_ <-$ fs_mkdirSync f (path_dirname h path);
       fs_writeFileSync f path (updatedText j root pluginId cfg)) fs'
  | (fs', Throw message) => (fs', Throw message)
  end.
Proof.
  unfold writePluginConfig. unfold ioBind at 1.
  by destruct (readJsonFile f j path fs) as [fs' [root|]].
Qed.

Lemma writePluginConfig_read (f : FsHost) (h : Host) (j : JsonHost)
  (path pluginId : jsstring) (cfg : Record) (fs : Files) (root : Record) :
  snd (readJsonFile f j path fs) = Ok root ->
  writePluginConfig f h j path pluginId cfg fs =
  (_ <-$ fs_mkdirSync f (path_dirname h path);
   fs_writeFileSync f path (updatedText j root pluginId cfg)) fs.
Proof.
  intros Hread. pose proof (readJsonFile_state f j path fs) as Hstate.
  rewrite writePluginConfig_eq.
  destruct (readJsonFile f j path fs) as [fs' [root0|]]; [| done].
  cbn [fst snd] in Hread, Hstate. by injection Hread as ->; subst fs'.
Qed.

(** X15. A file that cannot be read as a JSON object is never overwritten:
    when its text is not JSON, or is JSON but not an object,
    [writePluginConfig] throws the error of the read and leaves the file
    system as it was. *)
Theorem writePluginConfig_bad_file (f : FsHost) (h : Host) (j : JsonHost)
  (path pluginId : jsstring) (cfg : Record) (fs : Files) (raw message : jsstring) :
  fs_existsSync f path fs = true -> fs_readFileSync f path fs = Ok raw ->
  trim raw <> [] ->
  (JSON_parse j (trim raw) = Throw message \/
   exists parsed, JSON_parse j (trim raw) = Ok parsed /\ isRecord parsed = false /\
                  message = expectedObjectMessage path) ->
  writePluginConfig f h j path pluginId cfg fs = (fs, Throw message).
Proof.
  intros Hex Hraw Hne Hcase.
  rewrite writePluginConfig_eq, readJsonFile_eq, Hex, Hraw. cbn [bindR].
  revert Hcase. destruct (trim raw); [done |].
  intros [-> | (parsed & -> & Hrec & ->)]; cbn [bindR];
             [done | by rewrite Hrec].
Qed.

Lemma writePluginConfig_bad_file_witness :
  writePluginConfig memFs sampleHost sampleJson configFile PLUGIN_ID newCredentials
    arrayFiles
  = (arrayFiles, Throw (expectedObjectMessage configFile)).
Proof.
  apply (writePluginConfig_bad_file memFs sampleHost sampleJson configFile PLUGIN_ID
           newCredentials arrayFiles (js "[1]")).
  - vm_compute. reflexivity.
  - vm_compute. reflexivity.
  - by vm_compute.
  - right. exists (JsArray [JsNumber 1]). split_and!; [by vm_compute | done | done].
Defined.

(** X16. Once the file is read, [writePluginConfig] makes two calls on the
    file system and no other: the directory of the path is created, then the
    one file is written; it returns when both succeed and throws the error of
    the one that fails.  In the object written, every top-level section but
    [plugins], every key of [plugins] but [entries] and the entry of every
    other plugin hold what they held in the object read. *)
Theorem writePluginConfig_preserves (f : FsHost) (h : Host) (j : JsonHost)
  (path pluginId : jsstring) (cfg : Record) (fs : Files) (root : Record) :
  snd (readJsonFile f j path fs) = Ok root ->
  exists root' plugins' entries',
    writePluginConfig f h j path pluginId cfg fs =
      (_ <-$ fs_mkdirSync f (path_dirname h path);
       fs_writeFileSync f path (JSON_stringify j (JsObject root') ++ [LF])) fs /\
    getProp root' (js "plugins") = JsObject plugins' /\
    getProp plugins' (js "entries") = JsObject entries' /\
    (forall key, key <> js "plugins" -> getProp root' key = getProp root key) /\
    (forall key, key <> js "entries" ->
       getProp plugins' key = getProp (ensureRecord (getProp root (js "plugins"))) key) /\
    (forall other, other <> pluginId ->
       getProp entries' other =
       getProp (ensureRecord
                  (getProp (ensureRecord (getProp root (js "plugins"))) (js "entries")))
               other).
Proof.
  intros Hread. rewrite (writePluginConfig_read f h j path pluginId cfg fs root Hread).
  eexists (updatedRoot root pluginId cfg), _, _. split; [done |].
  unfold updatedRoot. rewrite getProp_assignProp_same by done.
  split; [done |].
  rewrite getProp_assignProp_same by done.
  split; [done |]. split_and!.
  - intros key Hkey. by rewrite getProp_assignProp_other.
  - intros key Hkey. by rewrite getProp_assignProp_other.
  - intros other Hother. by rewrite getProp_assignProp_other.
Qed.

Lemma writePluginConfig_preserves_witness :
  exists root' plugins' entries',
    writePluginConfig memFs sampleHost sampleJson configFile PLUGIN_ID newCredentials
      storedFiles =
      (_ <-$ fs_mkdirSync memFs (path_dirname sampleHost configFile);
       fs_writeFileSync memFs configFile
         (JSON_stringify sampleJson (JsObject root') ++ [LF])) storedFiles /\
    getProp root' (js "plugins") = JsObject plugins' /\
    getProp plugins' (js "entries") = JsObject entries' /\
    getProp root' (js "gateway") = getProp storedRoot (js "gateway").
Proof.
  destruct (writePluginConfig_preserves memFs sampleHost sampleJson configFile PLUGIN_ID
              newCredentials storedFiles storedRoot)
    as (root' & plugins' & entries' & Hw & Hp & He & Htop & _).
  - vm_compute. reflexivity.
  - exists root', plugins', entries'.
    split; [exact Hw |]. split; [exact Hp |]. split; [exact He |].
    apply Htop. by vm_compute.
Defined.

(** A regular file where the directory of the configuration file is meant
    to be: the directory cannot be created, the call throws, and the file is
    not written. *)
Example writePluginConfig_blocked :
  snd (writePluginConfig memFs sampleHost sampleJson configFile PLUGIN_ID newCredentials
         blockedFiles)
    = Throw (js "EEXIST: file already exists, mkdir /home/user/.openclaw") /\
  fs_existsSync memFs configFile
    (fst (writePluginConfig memFs sampleHost sampleJson configFile PLUGIN_ID
            newCredentials blockedFiles)) = false.
Proof. split; vm_compute; reflexivity. Qed.

Lemma updatedRoot_entry (root : Record) (pluginId : jsstring) (cfg : Record) :
  let entries :=
    ensureRecord (getProp (ensureRecord (getProp root (js "plugins"))) (js "entries")) in
  let oldEntry := ensureRecord (getProp entries pluginId) in
  let oldConfig := ensureRecord (getProp oldEntry (js "config")) in
  (pluginId = js "__proto__" -> hasOwn entries pluginId = true) ->
  exists plugins' entries' entry' config',
    getProp (updatedRoot root pluginId cfg) (js "plugins") = JsObject plugins' /\
    getProp plugins' (js "entries") = JsObject entries' /\
    getProp entries' pluginId = JsObject entry' /\
    getProp entry' (js "config") = JsObject config' /\
    (forall key, getProp config' key =
                 if bool_decide (key ∈ Object_keys cfg) then getProp cfg key
                 else getProp oldConfig key) /\
    (getProp oldEntry (js "enabled") = JsBoolean false ->
     getProp entry' (js "enabled") = JsBoolean false) /\
    (getProp oldEntry (js "enabled") <> JsBoolean false ->
     getProp entry' (js "enabled") = JsBoolean true) /\
    (forall key, key <> js "enabled" -> key <> js "config" ->
                 getProp entry' key = getProp oldEntry key).
Proof.
  intros entries oldEntry oldConfig Hown. eexists _, _, _, _.
  unfold updatedRoot. fold entries. fold oldEntry. fold oldConfig.
  rewrite getProp_assignProp_same by done. split; [done |].
  rewrite getProp_assignProp_same by done. split; [done |].
  rewrite getProp_assignProp_same by done. split; [done |].
  rewrite getProp_setProp_same. split; [done |].
  split_and!.
  - intros key. rewrite !getProp_spreadInto.
    case_bool_decide; [done |]. cbn [getProp].
    case_bool_decide; [done |]. symmetry. by apply getProp_absent.
  - intros Hold. rewrite getProp_setProp_other by done.
    rewrite getProp_setProp_same. by rewrite Hold.
  - intros Hold. rewrite getProp_setProp_other by done.
    rewrite getProp_setProp_same.
    f_equal. by destruct (getProp oldEntry (js "enabled")) as [| |[]| | | | |].
  - intros key He Hc.
    rewrite getProp_setProp_other by done.
    rewrite getProp_setProp_other by done.
    rewrite getProp_spreadInto. case_bool_decide as Hin; [done |].
    cbn [getProp]. symmetry. by apply getProp_absent.
Qed.


(** X17. The entry that [writePluginConfig] puts into the object it
    writes: its [config] holds the new value under every key of the new
    configuration and the old value under every other key; [enabled] is false
    when the old entry had [enabled: false] and true otherwise; every other
    property of the old entry is kept.  The one identifier for which no entry
    is written is [__proto__], when the entries read have no property of
    their own under that name: the assignment then goes to the prototype, and
    the entries written are the entries read. *)
Theorem writePluginConfig_entry (f : FsHost) (h : Host) (j : JsonHost)
  (path pluginId : jsstring) (cfg : Record) (fs : Files) (root : Record) :
  snd (readJsonFile f j path fs) = Ok root ->
  let entries :=
    ensureRecord (getProp (ensureRecord (getProp root (js "plugins"))) (js "entries")) in
  let oldEntry := ensureRecord (getProp entries pluginId) in
  let oldConfig := ensureRecord (getProp oldEntry (js "config")) in
  exists root' plugins' entries',
    writePluginConfig f h j path pluginId cfg fs =
      (_ <-$ fs_mkdirSync f (path_dirname h path);
       fs_writeFileSync f path (JSON_stringify j (JsObject root') ++ [LF])) fs /\
    getProp root' (js "plugins") = JsObject plugins' /\
    getProp plugins' (js "entries") = JsObject entries' /\
    (pluginId = js "__proto__" -> hasOwn entries pluginId = false -> entries' = entries) /\
    ((pluginId = js "__proto__" -> hasOwn entries pluginId = true) ->
     exists entry' config',
       getProp entries' pluginId = JsObject entry' /\
       getProp entry' (js "config") = JsObject config' /\
       (forall key, getProp config' key =
                    if bool_decide (key ∈ Object_keys cfg) then getProp cfg key
                    else getProp oldConfig key) /\
       (getProp oldEntry (js "enabled") = JsBoolean false ->
        getProp entry' (js "enabled") = JsBoolean false) /\
       (getProp oldEntry (js "enabled") <> JsBoolean false ->
        getProp entry' (js "enabled") = JsBoolean true) /\
       (forall key, key <> js "enabled" -> key <> js "config" ->
                    getProp entry' key = getProp oldEntry key)).
Proof.
  intros Hread entries oldEntry oldConfig.
  rewrite (writePluginConfig_read f h j path pluginId cfg fs root Hread).
  assert (exists plugins' entries',
            getProp (updatedRoot root pluginId cfg) (js "plugins") = JsObject plugins' /\
            getProp plugins' (js "entries") = JsObject entries' /\
            entries' = assignProp entries pluginId
                         (JsObject
                            (setProp
                               (setProp (spreadInto [] oldEntry) (js "enabled")
                                  (JsBoolean (notFalse (getProp oldEntry (js "enabled")))))
                               (js "config")
                               (JsObject (spreadInto (spreadInto [] oldConfig) cfg)))))
    as (plugins' & entries' & Hp & He & Hentries).
  { eexists _, _. unfold updatedRoot. fold entries. fold oldEntry. fold oldConfig.
    rewrite getProp_assignProp_same by done. split; [done |].
    rewrite getProp_assignProp_same by done. done. }
  exists (updatedRoot root pluginId cfg), plugins', entries'.
  split; [done |]. split; [done |]. split; [done |]. split.
  - intros -> Hown. rewrite Hentries. by apply assignProp_lost.
  - intros Hown.
    destruct (updatedRoot_entry root pluginId cfg Hown)
      as (plugins2 & entries2 & entry' & config' & Hp2 & He2 & H).
    assert (plugins2 = plugins') as -> by congruence.
    assert (entries2 = entries') as -> by congruence.
    by exists entry', config'.
Qed.

Lemma writePluginConfig_entry_witness :
  exists root' plugins' entries' entry' config',
    writePluginConfig memFs sampleHost sampleJson configFile PLUGIN_ID newCredentials
      storedFiles =
      (_ <-$ fs_mkdirSync memFs (path_dirname sampleHost configFile);
       fs_writeFileSync memFs configFile
         (JSON_stringify sampleJson (JsObject root') ++ [LF])) storedFiles /\
    getProp root' (js "plugins") = JsObject plugins' /\
    getProp plugins' (js "entries") = JsObject entries' /\
    getProp entries' PLUGIN_ID = JsObject entry' /\
    getProp entry' (js "config") = JsObject config' /\
    getProp entry' (js "enabled") = JsBoolean false.
Proof.
  destruct (writePluginConfig_entry memFs sampleHost sampleJson configFile PLUGIN_ID
              newCredentials storedFiles storedRoot)
    as (root' & plugins' & entries' & Hw & Hp & He & _ & Hentry).
  - vm_compute. reflexivity.
  - destruct Hentry as (entry' & config' & Hen & Hc & _ & Hfalse & _);
      [by vm_compute |].
    exists root', plugins', entries', entry', config'.
    split; [exact Hw |]. split; [exact Hp |]. split; [exact He |].
    split; [exact Hen |]. split; [exact Hc |].
    apply Hfalse. reflexivity.
Defined.



(** ** parseConfigSafe and the legacy configuration *)

Lemma parseConfig_empty (env : Env) : parseConfig env (JsObject []) = Ok (envDefaults env).
Proof. reflexivity. Qed.

(** X19. [parseConfigSafe] never throws.  A source that [parseConfig]
    accepts is returned as parsed, without output.  A source that
    [parseConfig] rejects is dropped as a whole, the valid fields it holds
    included: the result is the configuration of the environment alone, and
    one warning that holds the message of the error is logged. *)
Theorem parseConfigSafe_outcomes (env : Env) (raw : JsValue) (label : jsstring) :
  (exists cfg, snd (parseConfigSafe env raw label) = Ok cfg) /\
  (forall cfg, parseConfig env raw = Ok cfg ->
               parseConfigSafe env raw label = ([], Ok cfg)) /\
  (forall message,
     parseConfig env raw = Throw message ->
     parseConfigSafe env raw label =
       ([(LoggerWarn, ignoringInvalidMessage label message)], Ok (envDefaults env)) /\
     occursIn message (ignoringInvalidMessage label message)).
Proof.
  unfold parseConfigSafe. split_and!.
  - destruct (parseConfig env raw); [by eexists |]. rewrite parseConfig_empty. by eexists.
  - by intros cfg ->.
  - intros message ->. rewrite parseConfig_empty. split; [done |].
    unfold ignoringInvalidMessage. do 3 apply occursIn_app_r.
    apply occursIn_app_l, occursIn_refl.
Qed.

Lemma parseConfigSafe_outcomes_witness :
  parseConfigSafe noEnv (JsObject typoRecord) (js "pluginConfig") =
  ([(LoggerWarn,
     ignoringInvalidMessage (js "pluginConfig")
       (unknownKeysMessage CONFIG_LABEL [js "nope"]))],
   Ok (envDefaults noEnv)).
Proof.
  apply (proj1 (proj2 (proj2 (parseConfigSafe_outcomes noEnv (JsObject typoRecord)
                                (js "pluginConfig"))) _ eq_refl)).
Defined.

Lemma firstLegacyConfig_record (entries : Record) (ids : list jsstring) :
  isRecord (firstLegacyConfig entries ids) = true.
Proof.
  induction ids as [|pluginId ids IH]; [done |]. cbn [firstLegacyConfig].
  destruct (isRecord (getProp entries pluginId)
            && isRecord (getProp (asRecord (getProp entries pluginId)) (js "config")))
    eqn:E; [| done].
  by apply andb_true_iff in E as [_ ?].
Qed.

Lemma usableEntry_test (entries : Record) (pluginId : jsstring) :
  isRecord (getProp entries pluginId)
  && isRecord (getProp (asRecord (getProp entries pluginId)) (js "config")) = true
  <-> exists cfg, usableEntry entries pluginId cfg.
Proof.
  unfold usableEntry. split.
  - intros [H1 H2]%andb_true_iff.
    destruct (getProp entries pluginId) as [| | | | | | |entry]; try done.
    cbn [asRecord] in H2.
    destruct (getProp entry (js "config")) as [| | | | | | |cfg] eqn:Ec; try done.
    by exists cfg, entry.
  - intros (cfg & entry & -> & Hc). cbn [asRecord]. by rewrite Hc.
Qed.

Lemma firstLegacyConfig_first (entries : Record) (skipped : list jsstring)
  (pluginId : jsstring) (later : list jsstring) (cfg : Record) :
  (forall other, other ∈ skipped -> forall c, ~ usableEntry entries other c) ->
  usableEntry entries pluginId cfg ->
  firstLegacyConfig entries (skipped ++ pluginId :: later) = JsObject cfg.
Proof.
  intros Hskip Huse. induction skipped as [|s skipped IH]; cbn [app firstLegacyConfig].
  - destruct Huse as (entry & -> & Hc). cbn [asRecord]. by rewrite Hc.
  - destruct (isRecord (getProp entries s)
              && isRecord (getProp (asRecord (getProp entries s)) (js "config"))) eqn:E.
    + apply usableEntry_test in E as [c Hc]. exfalso.
      refine (Hskip s _ c Hc). apply elem_of_cons. by left.
    + apply IH. intros other Hin. apply Hskip. apply elem_of_cons. by right.
Qed.

(** X20. [readLegacyPluginConfig] always returns a record.  From a host
    configuration whose [plugins.entries] is an object, it returns the
    [config] of the first identifier, in the order of [LEGACY_PLUGIN_IDS],
    whose entry is an object with an object [config]; entries under later
    identifiers are not looked at. *)
Theorem readLegacyPluginConfig_first (api : PluginApi) :
  isRecord (readLegacyPluginConfig api) = true /\
  forall root plugins entries skipped pluginId later cfg,
    api_config api = JsObject root ->
    getProp root (js "plugins") = JsObject plugins ->
    getProp plugins (js "entries") = JsObject entries ->
    LEGACY_PLUGIN_IDS = skipped ++ pluginId :: later ->
    (forall other, other ∈ skipped -> forall c, ~ usableEntry entries other c) ->
    usableEntry entries pluginId cfg ->
    readLegacyPluginConfig api = JsObject cfg.
Proof.
  unfold readLegacyPluginConfig. split.
  - destruct (isRecord (api_config api)); [| done]. apply firstLegacyConfig_record.
  - intros root plugins entries skipped pluginId later cfg -> Hp He -> Hskip Huse.
    cbn [isRecord typeof isNull Array_isArray negb asRecord].
    change (bool_decide (TyObject = TyObject)) with true. cbn [andb negb].
    rewrite Hp, ensureRecord_object, He, ensureRecord_object.
    by apply firstLegacyConfig_first.
Qed.

(** ** loadMergedConfig *)

Lemma parseConfigSafe_value (env : Env) (raw : JsValue) (label : jsstring) :
  snd (parseConfigSafe env raw label) = Ok (parsedOrDefaults env raw).
Proof.
  unfold parseConfigSafe, parsedOrDefaults.
  destruct (parseConfig env raw); [done |]. apply parseConfig_empty.
Qed.

Lemma readFileConfig_value (f : FsHost) (j : JsonHost) (configPath : jsstring)
  (fs : Files) :
  snd (readFileConfig f j configPath fs) = Ok (fileRecord f j configPath fs).
Proof.
  unfold readFileConfig, fileRecord.
  by destruct (snd (readPluginConfig f j configPath PLUGIN_ID fs)).
Qed.

Lemma logBind_value {A B} (m : Logged A) (k : A -> Logged B) (a : A) :
  snd m = Ok a -> snd (logBind m k) = snd (k a).
Proof.
  destruct m as [out [a'|]]; simpl; [| done]. intros [= ->]. by destruct (k a).
Qed.

Lemma Plugin_loadMergedConfig_value (f : FsHost) (h : Host) (j : JsonHost) (env : Env)
  (api : PluginApi) (fs : Files) (explicitPath : option jsstring) :
  snd (snd (Plugin.loadMergedConfig f h j env api fs explicitPath)) =
  Ok (mergeConfig
        (parsedOrDefaults env (api_pluginConfig api))
        (parsedOrDefaults env
           (JsObject (fileRecord f j (Store.resolveConfigPath h explicitPath) fs)))).
Proof.
  unfold Plugin.loadMergedConfig, Plugin.runtimeConfig. cbn [snd].
  rewrite (logBind_value _ _ _ (parseConfigSafe_value _ _ _)).
  rewrite (logBind_value _ _ _ (readFileConfig_value _ _ _ _)).
  by rewrite (logBind_value _ _ _ (parseConfigSafe_value _ _ _)).
Qed.

Lemma LegacyPlugin_runtimeConfig_value (env : Env) (api : PluginApi) :
  snd (LegacyPlugin.runtimeConfig env api) =
  Ok (mergeConfig (parsedOrDefaults env (api_pluginConfig api))
        (parsedOrDefaults env (readLegacyPluginConfig api))).
Proof.
  unfold LegacyPlugin.runtimeConfig.
  rewrite (logBind_value _ _ _ (parseConfigSafe_value _ _ _)).
  by rewrite (logBind_value _ _ _ (parseConfigSafe_value _ _ _)).
Qed.

Lemma LegacyPlugin_loadMergedConfig_value (f : FsHost) (h : Host) (j : JsonHost)
  (env : Env) (api : PluginApi) (fs : Files) (explicitPath : option jsstring) :
  snd (snd (LegacyPlugin.loadMergedConfig f h j env api fs explicitPath)) =
  Ok (mergeConfig
        (mergeConfig (parsedOrDefaults env (api_pluginConfig api))
           (parsedOrDefaults env (readLegacyPluginConfig api)))
        (parsedOrDefaults env
           (JsObject
              (fileRecord f j
                 (CandidateStore.resolveConfigPath h (fun p => fs_existsSync f p fs)
                    explicitPath)
                 fs)))).
Proof.
  unfold LegacyPlugin.loadMergedConfig. cbn [snd].
  rewrite (logBind_value _ _ _ (LegacyPlugin_runtimeConfig_value _ _)).
  rewrite (logBind_value _ _ _ (readFileConfig_value _ _ _ _)).
  by rewrite (logBind_value _ _ _ (parseConfigSafe_value _ _ _)).
Qed.


Lemma credential_from_env (env : Env) (v : JsValue) (name value : jsstring) :
  env name = Some value -> is_Some (credential env v name).
Proof.
  intros Henv. unfold credential.
  destruct (parseOptionalString env v) as [[w|]|]; simpl; rewrite ?Henv; by eexists.
Qed.

Lemma parsedOrDefaults_apiKey (env : Env) (raw : JsValue) (value : jsstring) :
  env API_KEY_VAR = Some value -> is_Some (apiKey (parsedOrDefaults env raw)).
Proof.
  intros Henv. unfold parsedOrDefaults.
  destruct (parseConfig env raw) as [cfg|] eqn:E.
  - apply parseConfig_shape in E as (props & url & _ & ->). simpl.
    by eapply credential_from_env.
  - simpl. rewrite Henv. by eexists.
Qed.

Lemma parsedOrDefaults_projectId (env : Env) (raw : JsValue) (value : jsstring) :
  env PROJECT_ID_VAR = Some value -> is_Some (projectId (parsedOrDefaults env raw)).
Proof.
  intros Henv. unfold parsedOrDefaults.
  destruct (parseConfig env raw) as [cfg|] eqn:E.
  - apply parseConfig_shape in E as (props & url & _ & ->). simpl.
    by eapply credential_from_env.
  - simpl. rewrite Henv. by eexists.
Qed.

Lemma mergeConfig_apiKey_defined (a b : BrowserbaseConfig) :
  is_Some (apiKey a) -> apiKey (mergeConfig a b) = apiKey a.
Proof. intros [v Hv]. simpl. by rewrite Hv. Qed.

Lemma mergeConfig_projectId_defined (a b : BrowserbaseConfig) :
  is_Some (projectId a) -> projectId (mergeConfig a b) = projectId a.
Proof. intros [v Hv]. simpl. by rewrite Hv. Qed.

(** X22. A credential variable of the environment that is set, to whatever
    string, shuts out the configuration file and the legacy configuration:
    the credential that [loadMergedConfig] returns is then the one parsed
    from the plugin configuration of the host, which is defined. *)
Theorem loadMergedConfig_env_shadows_file (f : FsHost) (h : Host) (j : JsonHost)
  (env : Env) (api : PluginApi) (fs : Files) (explicitPath : option jsstring) :
  (forall value, env API_KEY_VAR = Some value ->
     exists cfg legacyCfg,
       snd (snd (Plugin.loadMergedConfig f h j env api fs explicitPath)) = Ok cfg /\
       snd (snd (LegacyPlugin.loadMergedConfig f h j env api fs explicitPath))
         = Ok legacyCfg /\
       apiKey cfg = apiKey (parsedOrDefaults env (api_pluginConfig api)) /\
       apiKey legacyCfg = apiKey (parsedOrDefaults env (api_pluginConfig api)) /\
       is_Some (apiKey cfg)) /\
  (forall value, env PROJECT_ID_VAR = Some value ->
     exists cfg legacyCfg,
       snd (snd (Plugin.loadMergedConfig f h j env api fs explicitPath)) = Ok cfg /\
       snd (snd (LegacyPlugin.loadMergedConfig f h j env api fs explicitPath))
         = Ok legacyCfg /\
       projectId cfg = projectId (parsedOrDefaults env (api_pluginConfig api)) /\
       projectId legacyCfg = projectId (parsedOrDefaults env (api_pluginConfig api)) /\
       is_Some (projectId cfg)).
Proof.
  rewrite Plugin_loadMergedConfig_value, LegacyPlugin_loadMergedConfig_value.
  split; intros value Henv; eexists _, _; (split; [done |]); (split; [done |]).
  - pose proof (parsedOrDefaults_apiKey env (api_pluginConfig api) value Henv) as Hs.
    rewrite !mergeConfig_apiKey_defined; try done.
    by rewrite mergeConfig_apiKey_defined.
  - pose proof (parsedOrDefaults_projectId env (api_pluginConfig api) value Henv) as Hs.
    rewrite !mergeConfig_projectId_defined; try done.
    by rewrite mergeConfig_projectId_defined.
Qed.

Lemma loadMergedConfig_env_shadows_file_witness :
  exists cfg legacyCfg,
    snd (snd (Plugin.loadMergedConfig memFs sampleHost sampleJson
                (envWith API_KEY_VAR (js "bb_env")) legacyApi storedFiles None)) = Ok cfg /\
    snd (snd (LegacyPlugin.loadMergedConfig memFs sampleHost sampleJson
                (envWith API_KEY_VAR (js "bb_env")) legacyApi storedFiles None))
      = Ok legacyCfg /\
    apiKey cfg
      = apiKey (parsedOrDefaults (envWith API_KEY_VAR (js "bb_env"))
                  (api_pluginConfig legacyApi)) /\
    apiKey legacyCfg
      = apiKey (parsedOrDefaults (envWith API_KEY_VAR (js "bb_env"))
                  (api_pluginConfig legacyApi)) /\
    is_Some (apiKey cfg).
Proof.
  apply (proj1 (loadMergedConfig_env_shadows_file memFs sampleHost sampleJson
                  (envWith API_KEY_VAR (js "bb_env")) legacyApi storedFiles None)
           (js "bb_env")).
  reflexivity.
Defined.

Lemma readLegacyPluginConfig_first_witness :
  readLegacyPluginConfig legacyApi = JsObject [(js "apiKey", JsString (js "bb_second"))].
Proof.
  refine (proj2 (readLegacyPluginConfig_first legacyApi) _ _ _
            [PLUGIN_ID] (js "clawd-plugin-browserbase") [js "openclaw-browserbase"]
            _ eq_refl eq_refl eq_refl eq_refl _ _).
  - intros other ->%list_elem_of_singleton c (entry & Hentry & Hc).
    vm_compute in Hentry. injection Hentry as <-. discriminate Hc.
  - eexists. split; reflexivity.
Defined.

(** ** The credential prompt *)

(** X23. The credential prompt.  An answer is trimmed, and an empty answer
    keeps the default.  When a credential is still missing, the prompt
    returns false and calls nothing on the file system.  When both are there,
    the prompt is as good as its one call of [writePluginConfig] with these
    two values: it leaves the file system that call leaves, returns true when
    the call returns and rejects with the error of the call when it throws.
    When the configuration file can be read, the [config] of the plugin in
    the object handed to the write holds exactly these two values under
    [apiKey] and [projectId]. *)
Theorem promptAndPersistCredentials_outcomes (f : FsHost) (h : Host) (j : JsonHost)
  (ask : jsstring -> jsstring) (path : jsstring)
  (defaultApiKey defaultProjectId : option jsstring) (printHeader : bool) (fs : Files) :
  let apiKey := orElse (trim (ask (apiKeyQuestion defaultApiKey))) defaultApiKey in
  let projectId :=
    orElse (trim (ask (projectIdQuestion defaultProjectId))) defaultProjectId in
  let prompted :=
    promptAndPersistCredentials f h j ask path defaultApiKey defaultProjectId
      printHeader fs in
  let saved :=
    writePluginConfig f h j path PLUGIN_ID
      [(js "apiKey", JsString (default [] apiKey));
       (js "projectId", JsString (default [] projectId))] fs in
  (isFalsy apiKey = true \/ isFalsy projectId = true ->
   exists out, prompted = (fs, (out, Ok false))) /\
  (isFalsy apiKey = false -> isFalsy projectId = false ->
   fst prompted = fst saved /\
   snd (snd prompted) = mapR (fun _ => true) (snd saved) /\
   forall root, snd (readJsonFile f j path fs) = Ok root ->
   exists root' plugins' entries' entry' config',
     saved =
       (_ <-$ fs_mkdirSync f (path_dirname h path);
        fs_writeFileSync f path (JSON_stringify j (JsObject root') ++ [LF])) fs /\
     getProp root' (js "plugins") = JsObject plugins' /\
     getProp plugins' (js "entries") = JsObject entries' /\
     getProp entries' PLUGIN_ID = JsObject entry' /\
     getProp entry' (js "config") = JsObject config' /\
     getProp config' (js "apiKey") = JsString (default [] apiKey) /\
     getProp config' (js "projectId") = JsString (default [] projectId)).
Proof.
  intros apiKey projectId prompted saved. subst prompted.
  unfold promptAndPersistCredentials. fold apiKey. fold projectId. fold saved. split.
  - intros Hmissing.
    assert (isFalsy apiKey || isFalsy projectId = true) as ->
      by (apply orb_true_iff; tauto).
    by eexists.
  - intros Ha Hp. rewrite Ha, Hp. cbn [orb]. split_and!.
    + by destruct saved as [fs' [[]|m]].
    + by destruct saved as [fs' [[]|m]].
    + intros root Hread. subst saved.
      rewrite (writePluginConfig_read f h j path PLUGIN_ID _ fs root Hread).
      destruct (updatedRoot_entry root PLUGIN_ID
                  [(js "apiKey", JsString (default [] apiKey));
                   (js "projectId", JsString (default [] projectId))])
        as (plugins' & entries' & entry' & config' & H1 & H2 & H3 & H4 & Hkeys & _);
        [done |].
      exists (updatedRoot root PLUGIN_ID
                [(js "apiKey", JsString (default [] apiKey));
                 (js "projectId", JsString (default [] projectId))]),
        plugins', entries', entry', config'.
      split; [done |]. split; [exact H1 |]. split; [exact H2 |]. split; [exact H3 |].
      split; [exact H4 |]. split; apply Hkeys.
Qed.

Lemma promptAndPersistCredentials_outcomes_witness :
  snd (snd (promptAndPersistCredentials memFs sampleHost sampleJson typist configFile
              (Some (js "bb_key_1")) (Some (js "proj_1")) false storedFiles))
  = Ok true.
Proof.
  destruct (promptAndPersistCredentials_outcomes memFs sampleHost sampleJson typist
              configFile (Some (js "bb_key_1")) (Some (js "proj_1")) false storedFiles)
    as [_ Hsaved].
  destruct Hsaved as (_ & -> & _); [reflexivity | reflexivity |].
  vm_compute. reflexivity.
Defined.

(** ** syncBrowserbaseSkills, continued *)

(** X24. A sync that resolves has fetched every one of the five files with
    a success status and content that is not blank.  It returns the five
    expected paths beneath the resolved target directory, in the order of the
    table, with the normalized ref; the file of every entry reads as the text
    fetched for it, and [hasBrowserbaseSkills] is true on the tree that the
    sync leaves. *)
Theorem sync_installs_all (f : FsHost) (h : Host) (globalFetch : FetchImpl)
  (options : option SyncOptions) (call : jsstring -> Result Response)
  (fs fs' : Files) (result : SkillSyncResult) :
  FsLaws f ->
  selectFetch globalFetch options = Ok call ->
  let root := resolveSkillsRoot h (options ≫= targetRoot) in
  let r := normalizeRef (options ≫= ref) in
  PerFile.separateDestinations h root ->
  PerFile.syncBrowserbaseSkills f h globalFetch options fs = (fs', Ok result) ->
  result = mkSyncResult root r (PerFile.expectedSkillFiles h (Some root)) /\
  (forall e, e ∈ PerFile.SKILL_FILE_MAP h -> PerFile.installed f h call root r fs' e) /\
  PerFile.hasBrowserbaseSkills h (fun p => fs_existsSync f p fs') (Some root) = true.
Proof.
  intros Hlaws Hsel root r Hsep.
  unfold PerFile.syncBrowserbaseSkills. rewrite Hsel.
  unfold ioBind at 1, ioLift. unfold ioBind. fold root. fold r.
  destruct (PerFile.syncEntries f h call root r (PerFile.SKILL_FILE_MAP h) [] fs)
    as [fs1 [written|m]] eqn:Erun; [| done].
  unfold ioRet. intros [= <- <-].
  destruct (syncEntries_installed f h call root r (PerFile.SKILL_FILE_MAP h) [] written
              fs fs1 Hlaws (SKILL_FILE_MAP_NoDup h)
              (separate_sublist h root _ Hsep (fun e He => He)) Erun)
    as [-> Hinst].
  split_and!; [done | done |].
  unfold PerFile.hasBrowserbaseSkills. apply forallb_elem_of.
  intros p Hp. unfold PerFile.expectedSkillFiles in Hp.
  apply list_elem_of_fmap in Hp as (e & -> & He).
  destruct (Hinst e He) as (resp & _ & _ & _ & Htext).
  unfold fileText in Htext.
  destruct (fs_readFileSync f (PerFile.destinationOf h root e) fs1) as [content|] eqn:Er;
    [| done].
  by apply (read_exists f Hlaws _ _ _ Er).
Qed.

Lemma sync_installs_all_witness :
  let fs' :=
    fst (PerFile.syncBrowserbaseSkills memFs sampleHost NotAFunction steadyOptions ∅) in
  (forall e, e ∈ PerFile.SKILL_FILE_MAP sampleHost ->
     PerFile.installed memFs sampleHost steadyFetch (js "/skills") (js "v1.2.3") fs' e) /\
  PerFile.hasBrowserbaseSkills sampleHost (fun p => fs_existsSync memFs p fs')
    (Some (js "/skills")) = true.
Proof.
  intros fs'.
  destruct (sync_installs_all memFs sampleHost NotAFunction steadyOptions steadyFetch ∅ fs'
              (mkSyncResult (js "/skills") (js "v1.2.3")
                 (PerFile.expectedSkillFiles sampleHost (Some (js "/skills"))))
              memFs_laws eq_refl sampleHost_separate)
    as (_ & Hinst & Hhas).
  - apply pair_snd. vm_compute. reflexivity.
  - split; [exact Hinst | exact Hhas].
Defined.

(** A regular file where a directory of the skills is meant to be: every
    fetch succeeds, yet the sync rejects with the error of [mkdir], and the
    skills are not installed. *)
Example sync_blocked :
  snd (PerFile.syncBrowserbaseSkills memFs sampleHost NotAFunction steadyOptions
         blockedSkills)
    = Throw (js "EEXIST: file already exists, mkdir /skills/browser-automation") /\
  PerFile.hasBrowserbaseSkills sampleHost
    (fun p =>
       fs_existsSync memFs p
         (fst (PerFile.syncBrowserbaseSkills memFs sampleHost NotAFunction steadyOptions
                 blockedSkills)))
    (Some (js "/skills")) = false.
Proof. split; vm_compute; reflexivity. Qed.

(** X25. Whether it succeeds or fails, whatever the remote answers and
    whichever call on the file system throws, the per-file sync changes the
    text of no file whose path does not continue one of the five destination
    paths: such a file reads after the call as it read before.  (Directories
    are created on the way to the destinations.) *)
Theorem sync_touches_destinations_only (f : FsHost) (h : Host) (globalFetch : FetchImpl)
  (options : option SyncOptions) (fs : Files) (p : jsstring) :
  FsLaws f ->
  let root := resolveSkillsRoot h (options ≫= targetRoot) in
  (forall e, e ∈ PerFile.SKILL_FILE_MAP h ->
     ~ PerFile.destinationOf h root e `prefix_of` p) ->
  fileText f (fst (PerFile.syncBrowserbaseSkills f h globalFetch options fs)) p
  = fileText f fs p.
Proof.
  intros Hlaws root Hp. unfold PerFile.syncBrowserbaseSkills.
  unfold ioBind at 1, ioLift.
  destruct (selectFetch globalFetch options) as [call|]; [| done].
  unfold ioBind. fold root.
  pose proof (syncEntries_keeps f h call root
                (normalizeRef (options ≫= ref)) (PerFile.SKILL_FILE_MAP h) [] fs p
                Hlaws Hp) as Hun.
  by destruct (PerFile.syncEntries f h call root (normalizeRef (options ≫= ref))
                 (PerFile.SKILL_FILE_MAP h) [] fs) as [fs' [w|]].
Qed.

Lemma sync_touches_destinations_only_witness :
  fileText memFs
    (fst (PerFile.syncBrowserbaseSkills memFs sampleHost NotAFunction flakyOptions
            storedFiles)) configFile
  = fileText memFs storedFiles configFile.
Proof.
  apply (sync_touches_destinations_only memFs sampleHost NotAFunction flakyOptions
           storedFiles configFile memFs_laws).
  apply Forall_forall. apply (bool_decide_unpack _). vm_compute. exact I.
Defined.

Lemma emptyContentMessage_url (url : jsstring) :
  occursIn url (PerFile.emptyContentMessage url).
Proof. unfold PerFile.emptyContentMessage. apply occursIn_app_r, occursIn_refl. Qed.

(** X26. A body that is blank fails the sync even when the status is a
    success.  When the entries before it were written without an error, the
    call rejects with the "empty content" message, which names the URL; the
    file of that entry reads as it read before the call; and as with a
    failed status the file of every entry before it reads as the text
    fetched. *)
Theorem sync_blank_content (f : FsHost) (h : Host) (globalFetch : FetchImpl)
  (options : option SyncOptions) (call : jsstring -> Result Response) (fs fs1 : Files)
  (finished : list PerFile.SkillFile) (blankEntry : PerFile.SkillFile)
  (rest : list PerFile.SkillFile) (resp : Response) (written : list jsstring) :
  FsLaws f ->
  selectFetch globalFetch options = Ok call ->
  let root := resolveSkillsRoot h (options ≫= targetRoot) in
  let r := normalizeRef (options ≫= ref) in
  PerFile.separateDestinations h root ->
  PerFile.SKILL_FILE_MAP h = finished ++ blankEntry :: rest ->
  PerFile.syncEntries f h call root r finished [] fs = (fs1, Ok written) ->
  call (PerFile.sourceUrlOf r blankEntry) = Ok resp -> ok resp = true ->
  trim (text resp) = [] ->
  let message := PerFile.emptyContentMessage (PerFile.sourceUrlOf r blankEntry) in
  PerFile.syncBrowserbaseSkills f h globalFetch options fs = (fs1, Throw message) /\
  occursIn (PerFile.sourceUrlOf r blankEntry) message /\
  fileText f fs1 (PerFile.destinationOf h root blankEntry)
    = fileText f fs (PerFile.destinationOf h root blankEntry) /\
  (forall e, e ∈ finished -> PerFile.installed f h call root r fs1 e) /\
  (finished = [] -> fs1 = fs).
Proof.
  intros Hlaws Hsel root r Hsep Hmap Hfin Hcall Hresp Hblank message.
  pose proof (SKILL_FILE_MAP_NoDup h) as Hnd. rewrite Hmap in Hnd.
  apply NoDup_app in Hnd as (Hnd & Hdisjoint & _).
  assert (forall e, e ∈ finished -> e ∈ PerFile.SKILL_FILE_MAP h) as Hsub
    by (intros e He; rewrite Hmap; apply elem_of_app; by left).
  assert (blankEntry ∈ PerFile.SKILL_FILE_MAP h) as Hblankin
    by (rewrite Hmap; apply elem_of_app; right; apply elem_of_cons; by left).
  split_and!.
  - unfold PerFile.syncBrowserbaseSkills. rewrite Hsel.
    unfold ioBind at 1, ioLift. unfold ioBind. fold root. fold r.
    rewrite Hmap, syncEntries_app, Hfin, syncEntries_cons.
    rewrite (downloadText_ok _ _ _ Hcall Hresp). by rewrite Hblank.
  - apply emptyContentMessage_url.
  - replace fs1 with (fst (PerFile.syncEntries f h call root r finished [] fs))
      by (by rewrite Hfin).
    apply syncEntries_keeps; [done |].
    intros e He. apply Hsep; [done | by apply Hsub |].
    intros Heq. apply (Hdisjoint e He). rewrite <- Heq. apply elem_of_cons. by left.
  - by eapply (syncEntries_installed f h call root r finished [] written fs fs1 Hlaws Hnd
                 (separate_sublist h root _ Hsep Hsub)).
  - intros ->. cbn in Hfin. by injection Hfin as <-.
Qed.

Lemma sync_blank_content_witness :
  let fs1 :=
    fst (PerFile.syncEntries memFs sampleHost blankFetch (js "/skills") (js "main")
           (take 1 (PerFile.SKILL_FILE_MAP sampleHost)) [] ∅) in
  PerFile.syncBrowserbaseSkills memFs sampleHost NotAFunction blankOptions ∅ =
    (fs1, Throw (PerFile.emptyContentMessage secondSkillUrl)) /\
  fileText memFs fs1 (js "/skills/browser-automation/EXAMPLES.md") = None.
Proof.
  intros fs1.
  destruct (sync_blank_content memFs sampleHost NotAFunction blankOptions blankFetch ∅ fs1
              (take 1 (PerFile.SKILL_FILE_MAP sampleHost)) secondSkillFile
              (drop 2 (PerFile.SKILL_FILE_MAP sampleHost))
              (mkResponse true 200 (js "   ") None)
              [js "/skills/browser-automation/SKILL.md"]
              memFs_laws eq_refl sampleHost_separate eq_refl)
    as (Hsync & _ & Hsame & _).
  - apply pair_snd. vm_compute. reflexivity.
  - reflexivity.
  - reflexivity.
  - reflexivity.
  - split; [exact Hsync |]. etrans; [exact Hsame |]. reflexivity.
Defined.

(** ** normalizeRef and the archive filter *)

Lemma trimStart_head (s : jsstring) (c : N) (t : jsstring) :
  trimStart s = c :: t -> isWhiteSpace c = false.
Proof.
  induction s as [|x s IH]; simpl; [done |].
  destruct (isWhiteSpace x) eqn:Hx; [done |]. by intros [= <- _].
Qed.

Lemma trimStart_fixed (s : jsstring) :
  match s with [] => True | c :: _ => isWhiteSpace c = false end -> trimStart s = s.
Proof. destruct s as [|c t]; simpl; [done |]. by intros ->. Qed.

(** Trimming twice is trimming once. *)
Lemma trim_idempotent (s : jsstring) : trim (trim s) = trim s.
Proof.
  unfold trim, trimEnd.
  set (t := trimStart s). set (u := trimStart (rev t)).
  assert (trimStart (rev u) = rev u) as ->.
  { apply trimStart_fixed. destruct (rev u) as [|x rest] eqn:Eu; [done |].
    destruct (trimStart_split (rev t)) as (lead & Hlead & _). fold u in Hlead.
    assert (t = rev u ++ rev lead) as Ht.
    { rewrite <- rev_app_distr, <- Hlead. by rewrite rev_involutive. }
    rewrite Eu in Ht. by apply (trimStart_head s x (rest ++ rev lead)). }
  rewrite rev_involutive. f_equal. apply trimStart_fixed.
  destruct u as [|x rest] eqn:Eu; [done |]. by apply (trimStart_head (rev t) x rest).
Qed.

(** X27. The ref that goes into the URLs is never empty and has no white
    space around it; a ref that is missing or blank is the default "main";
    any other ref is its trimmed text; and normalizing a normalized ref
    changes nothing. *)
Theorem normalizeRef_clean (r : option jsstring) :
  normalizeRef r <> [] /\
  trim (normalizeRef r) = normalizeRef r /\
  normalizeRef (Some (normalizeRef r)) = normalizeRef r /\
  (forall s, r = Some s -> trim s <> [] -> normalizeRef r = trim s) /\
  (forall s, r = Some s -> trim s = [] -> normalizeRef r = js "main") /\
  (r = None -> normalizeRef r = js "main").
Proof.
  assert (forall s, normalizeRef (Some s) = match trim s with [] => js "main" | _ => trim s end)
    as Hsome by (intros s; unfold normalizeRef; by destruct (trim s)).
  assert (normalizeRef r <> [] /\ trim (normalizeRef r) = normalizeRef r) as [Hne Htrim].
  { destruct r as [s|]; [| by split].
    rewrite Hsome. destruct (trim s) eqn:Et; [by split |].
    rewrite <- Et. split; [by rewrite Et | apply trim_idempotent]. }
  split_and!; try done.
  - rewrite Hsome, Htrim. by destruct (normalizeRef r).
  - intros s -> Hs. rewrite Hsome. by destruct (trim s).
  - intros s -> Hs. by rewrite Hsome, Hs.
  - by intros ->.
Qed.

Lemma normalizeRef_clean_witness : normalizeRef (Some (js "  v1.2.3 ")) = js "v1.2.3".
Proof.
  refine (proj1 (proj2 (proj2 (proj2 (normalizeRef_clean (Some (js "  v1.2.3 "))))))
            (js "  v1.2.3 ") eq_refl _).
  by vm_compute.
Defined.

Lemma spanSegment_app (s seg after : jsstring) :
  Archive.spanSegment s = (seg, after) ->
  s = seg ++ after /\ (Archive.SLASH ∉ seg) /\
  (match after with [] => True | c :: _ => c = Archive.SLASH end).
Proof.
  revert seg after. induction s as [|c t IH]; intros seg after; simpl.
  - intros [= <- <-]. split_and!; [done | apply not_elem_of_nil | done].
  - destruct (N.eqb_spec c Archive.SLASH) as [-> | Hc].
    + intros [= <- <-]. split_and!; [done | apply not_elem_of_nil | done].
    + destruct (Archive.spanSegment t) as [n r] eqn:E. intros [= <- <-].
      destruct (IH _ _ eq_refl) as (-> & Hn & Hr). split_and!; [done | | done].
      rewrite not_elem_of_cons. split; [congruence | done].
Qed.

Lemma spanSegment_complete (seg rest : jsstring) :
  Archive.SLASH ∉ seg ->
  Archive.spanSegment (seg ++ Archive.SLASH :: rest) = (seg, Archive.SLASH :: rest).
Proof.
  induction seg as [|c n IH]; intros Hn; simpl.
  - by rewrite ?N.eqb_refl.
  - apply not_elem_of_cons in Hn as [Hc Hn].
    destruct (N.eqb_spec c Archive.SLASH) as [-> | _]; [done |]. by rewrite IH.
Qed.

Lemma startsWith_spec (s prefix : jsstring) :
  Archive.startsWith s prefix = true <-> exists rest, s = prefix ++ rest.
Proof.
  revert s. induction prefix as [|p prefix IH]; intros s.
  - split; [intros _; by exists s | intros _; by destruct s].
  - destruct s as [|c s]; [split; [done | by intros [? [=]]] |].
    cbn [Archive.startsWith]. rewrite andb_true_iff, IH, N.eqb_eq. split.
    + intros [-> [rest ->]]. by exists rest.
    + intros [rest [= -> ->]]. split; [done | by exists rest].
Qed.

(** X28. The filter of the extraction keeps exactly the entries whose path
    is a first segment that is not empty, a slash, and then a path that
    starts with [skills/]: files at the top of the archive, a path without
    its root segment such as [skills/x], and any other subtree are left
    out. *)
Theorem entryFilter_spec (entryPath : jsstring) :
  Archive.entryFilter entryPath = true <->
  exists top rest,
    top <> [] /\ (Archive.SLASH ∉ top) /\
    entryPath = top ++ [Archive.SLASH] ++ Archive.SKILLS_SOURCE_PREFIX ++ rest.
Proof.
  unfold Archive.entryFilter, Archive.dropRootSegment. split.
  - destruct (Archive.spanSegment entryPath) as [seg after] eqn:E.
    pose proof (spanSegment_app _ _ _ E) as (Hp & Hseg & Hafter).
    destruct seg as [|c seg]; [| destruct after as [|x after]].
    + intros [rest ->]%startsWith_spec. by vm_compute in E.
    + intros [rest ->]%startsWith_spec.
      change (Archive.SKILLS_SOURCE_PREFIX ++ rest)
        with (js "skills" ++ Archive.SLASH :: rest) in E.
      rewrite spanSegment_complete in E; [done |].
      apply (bool_decide_unpack _). vm_compute. exact I.
    + intros [rest ->]%startsWith_spec. subst x.
      exists (c :: seg), rest. split_and!; [done | done |]. by rewrite Hp.
  - intros (top & rest & Hne & Htop & ->).
    change ([Archive.SLASH] ++ Archive.SKILLS_SOURCE_PREFIX ++ rest)
      with (Archive.SLASH :: (Archive.SKILLS_SOURCE_PREFIX ++ rest)).
    rewrite spanSegment_complete by done.
    destruct top; [done |]. apply startsWith_spec. by exists rest.
Qed.

Lemma entryFilter_spec_witness :
  Archive.entryFilter (js "skills-abc123/skills/browser/SKILL.md") = true.
Proof.
  apply (proj2 (entryFilter_spec (js "skills-abc123/skills/browser/SKILL.md"))).
  exists (js "skills-abc123"), (js "browser/SKILL.md"). split_and!.
  - discriminate.
  - apply (bool_decide_unpack _). vm_compute. exact I.
  - reflexivity.
Defined.

Example entryFilter_samples :
  Archive.entryFilter (js "skills-abc123/skills/browser/SKILL.md") = true /\
  Archive.entryFilter (js "skills-abc123/README.md") = false /\
  Archive.entryFilter (js "skills/browser/SKILL.md") = false /\
  Archive.entryFilter (js "/skills/browser/SKILL.md") = false.
Proof. by vm_compute. Qed.

(** ** The archive revision: failure after the download *)

(** X29. In the archive revision nothing is swapped before the extraction
    is verified.  When the extraction throws, or when it leaves no file in
    the scratch directory, the call rejects (with the error of the
    extraction, or with the "extracted zero files" message) and the only
    thing done afterwards is the removal of the scratch directory: the
    removal, creation and rename that replace the target never run. *)
Theorem archive_sync_failure_before_swap (h : Host) (t : Archive.TarHost)
  (globalFetch : FetchImpl) (options : option SyncOptions)
  (call : jsstring -> Result Response) (resp : Response) (archive tmpDir : jsstring)
  (fs fs1 : Files) :
  selectFetch globalFetch options = Ok call ->
  let r := normalizeRef (options ≫= ref) in
  call (Archive.TARBALL_BASE ++ js "/" ++ r) = Ok resp ->
  ok resp = true -> body resp = Some archive ->
  Archive.fsp_mkdtemp t (path_join h [os_tmpdir h; js "bb-skills-sync-"]) fs
    = (fs1, Ok tmpDir) ->
  (forall fs2 message,
     Archive.tar_x t tmpDir 2 Archive.entryFilter archive fs1 = (fs2, Throw message) ->
     Archive.syncBrowserbaseSkills h t globalFetch options fs =
       (fst (Archive.fsp_rm t tmpDir fs2), Throw message)) /\
  (forall fs2,
     Archive.tar_x t tmpDir 2 Archive.entryFilter archive fs1 = (fs2, Ok tt) ->
     Archive.listFiles t tmpDir fs2 = [] ->
     Archive.syncBrowserbaseSkills h t globalFetch options fs =
       (fst (Archive.fsp_rm t tmpDir fs2), Throw Archive.nothingExtractedMessage)).
Proof.
  intros Hsel r Hcall Hok Hbody Htmp.
  assert (forall outcome,
            Archive.extractAndSwap h t (resolveSkillsRoot h (options ≫= targetRoot)) r
              tmpDir archive fs1 = outcome ->
            Archive.syncBrowserbaseSkills h t globalFetch options fs =
            match outcome with
            | (fs', Ok a) => (fs', Ok a)
            | (fs', Throw message) => (fst (Archive.fsp_rm t tmpDir fs'), Throw message)
            end) as Hrun.
  { intros outcome <-. unfold Archive.syncBrowserbaseSkills. rewrite Hsel.
    unfold ioBind at 1, ioLift. unfold ioBind at 1. fold r.
    rewrite Hcall, Hok, Hbody. cbn [negb]. unfold ioBind at 1. rewrite Htmp.
    reflexivity. }
  split.
  - intros fs2 message Hx. rewrite (Hrun _ eq_refl).
    unfold Archive.extractAndSwap, ioBind at 1. by rewrite Hx.
  - intros fs2 Hx Hlist. rewrite (Hrun _ eq_refl).
    unfold Archive.extractAndSwap, ioBind at 1. rewrite Hx.
    unfold ioBind at 1, Archive.installedSkillFiles. by rewrite Hlist.
Qed.

Lemma archive_sync_failure_before_swap_witness :
  Archive.syncBrowserbaseSkills sampleHost sampleTarHost NotAFunction archiveOptions
    storedFiles
  = (storedFiles, Throw Archive.nothingExtractedMessage).
Proof.
  refine (proj2 (archive_sync_failure_before_swap sampleHost sampleTarHost NotAFunction
                   archiveOptions archiveFetch
                   (mkResponse true 200 [] (Some (js "tarball"))) (js "tarball")
                   (js "/tmp/bb-skills-sync-abc123") storedFiles storedFiles
                   eq_refl eq_refl eq_refl eq_refl eq_refl) storedFiles eq_refl eq_refl).
Defined.

(** ** The listing of the installed files *)

Lemma strLeb_total (a b : jsstring) : Walk.strLeb a b = false -> Walk.strLeb b a = true.
Proof.
  revert b. induction a as [|x a IH]; intros [|y b]; simpl; try done.
  destruct (N.ltb_spec x y), (N.ltb_spec y x); try done; try lia. apply IH.
Qed.

Lemma strLeb_trans (a b c : jsstring) :
  Walk.strLeb a b = true -> Walk.strLeb b c = true -> Walk.strLeb a c = true.
Proof.
  revert b c. induction a as [|x a IH]; intros [|y b] [|z c]; simpl; try done.
  destruct (N.ltb_spec x y), (N.ltb_spec y x), (N.ltb_spec y z), (N.ltb_spec z y),
    (N.ltb_spec x z), (N.ltb_spec z x); try done; try lia.
  apply IH.
Qed.

Lemma strLeb_antisym (a b : jsstring) :
  Walk.strLeb a b = true -> Walk.strLeb b a = true -> a = b.
Proof.
  revert b. induction a as [|x a IH]; intros [|y b]; simpl; try done.
  destruct (N.ltb_spec x y), (N.ltb_spec y x); try done; try lia.
  intros H1 H2. f_equal; [lia | by apply IH].
Qed.

Lemma insertSorted_perm (x : jsstring) (l : list jsstring) :
  Walk.insertSorted x l ≡ₚ x :: l.
Proof.
  induction l as [|y l IH]; simpl; [done |].
  destruct (Walk.strLeb x y); [done |]. rewrite IH. apply Permutation_swap.
Qed.

Lemma sortStrings_perm (l : list jsstring) : Walk.sortStrings l ≡ₚ l.
Proof.
  induction l as [|x l IH]; simpl; [done |].
  rewrite insertSorted_perm. by constructor.
Qed.

Lemma insertSorted_sorted (x : jsstring) (l : list jsstring) :
  StronglySorted (fun a b => Walk.strLeb a b = true) l ->
  StronglySorted (fun a b => Walk.strLeb a b = true) (Walk.insertSorted x l).
Proof.
  induction 1 as [|y l Hl IH Hy]; simpl; [repeat constructor |].
  destruct (Walk.strLeb x y) eqn:E.
  - constructor; [by constructor |]. constructor; [done |].
    eapply Forall_impl; [exact Hy |]. intros z Hz. by eapply strLeb_trans.
  - constructor; [done |].
    rewrite insertSorted_perm. constructor; [by apply strLeb_total | done].
Qed.

Lemma sortStrings_sorted (l : list jsstring) :
  StronglySorted (fun a b => Walk.strLeb a b = true) (Walk.sortStrings l).
Proof.
  induction l as [|x l IH]; simpl; [constructor | by apply insertSorted_sorted].
Qed.

Lemma walk_length (h : Host) :
  forall (node : Walk.DirTree) (dir : jsstring),
    length (Walk.walk h dir node) = Walk.countFiles node.
Proof.
  fix IH 1. intros node dir. destruct node as [| |entries]; [done | done |].
  cbn [Walk.walk Walk.countFiles]. revert entries.
  fix IHrest 1. intros [|[name child] rest]; [done |].
  rewrite length_app, IHrest. f_equal.
  pose proof (IH child (path_join h [dir; name])) as Hchild.
  destruct child; [done | done | exact Hchild].
Qed.

Lemma strLeb_codeUnitLe (a b : jsstring) :
  Walk.strLeb a b = true -> Walk.codeUnitLe a b.
Proof.
  revert b. induction a as [|x a IH]; intros [|y b]; simpl; try done.
  - intros _. left. apply prefix_nil.
  - intros _. left. apply prefix_nil.
  - destruct (N.ltb_spec x y) as [Hlt | Hge].
    + intros _. right. by exists [], x, y, a, b.
    + destruct (N.ltb_spec y x) as [Hgt | Hle]; [done |].
      assert (x = y) as -> by lia. intros Hrest.
      destruct (IH b Hrest) as [Hpre | (common & u & v & ta & tb & -> & -> & Huv)].
      * left. by apply prefix_cons.
      * right. by exists (y :: common), u, v, ta, tb.
Qed.

Lemma StronglySorted_weaken {A} (R R' : A -> A -> Prop) (l : list A) :
  (forall a b, R a b -> R' a b) -> StronglySorted R l -> StronglySorted R' l.
Proof.
  intros Himpl. induction 1 as [|a l Hl IH Ha]; constructor; [done |].
  eapply Forall_impl; [exact Ha | by intros b; apply Himpl].
Qed.

Lemma listed_inv (h : Host) (dir : jsstring) (entries : list (jsstring * Walk.DirTree))
  (p : jsstring) :
  Walk.Listed h dir (Walk.Directory entries) p <->
  exists name child,
    (name, child) ∈ entries /\
    ((child = Walk.NotDirectory /\ p = path_join h [dir; name]) \/
     Walk.Listed h (path_join h [dir; name]) child p).
Proof.
  split.
  - inversion 1 as [d es name Hin | d es name child q Hin Hbelow]; subst.
    + exists name, Walk.NotDirectory. split; [done |]. by left.
    + exists name, child. split; [done |]. by right.
  - intros (name & child & Hin & [[-> ->] | Hbelow]).
    + by apply Walk.listed_entry.
    + by eapply Walk.listed_below.
Qed.

(** The walk pushes exactly the listed paths. *)
Lemma walk_listed (h : Host) :
  forall (node : Walk.DirTree) (dir p : jsstring),
    p ∈ Walk.walk h dir node <-> Walk.Listed h dir node p.
Proof.
  fix IH 1. intros node dir p. destruct node as [| |entries].
  - split; [by intros ?%elem_of_nil | inversion 1].
  - split; [by intros ?%elem_of_nil | inversion 1].
  - rewrite listed_inv. cbn [Walk.walk]. revert entries.
    fix IHrest 1. intros [|[name child] rest].
    + split; [by intros ?%elem_of_nil |].
      by intros (name & child & Hin%elem_of_nil & _).
    + pose proof (IHrest rest) as Hrest.
      pose proof (IH child (path_join h [dir; name]) p) as Hchild.
      clear IH IHrest. rewrite elem_of_app. split.
      * intros [Hhere | Hthere].
        -- exists name, child. split; [apply elem_of_cons; by left |].
           destruct child; [| by apply elem_of_nil in Hhere | right; by apply Hchild].
           left. split; [done |]. by apply list_elem_of_singleton in Hhere.
        -- apply Hrest in Hthere as (name' & child' & Hin & Hcase).
           exists name', child'. split; [apply elem_of_cons; by right | done].
      * intros (name' & child' & [[= -> ->] | Hin]%elem_of_cons & Hcase).
        -- left. destruct Hcase as [[-> ->] | Hbelow].
           ++ by apply list_elem_of_singleton.
           ++ destruct child; [inversion Hbelow | inversion Hbelow | by apply Hchild].
        -- right. apply Hrest. by exists name', child'.
Qed.

(** X30. The listing of the installed files holds exactly the paths of
    the entries beneath the root that are not directories, each joined to the
    path of its directory, one for every such entry; it is in the order of
    code units; and it is empty when the root is missing, is not a directory
    or cannot be listed. *)
Theorem installedSkillFiles_listing (h : Host) (root : jsstring)
  (node : option Walk.DirTree) :
  (forall p, p ∈ Walk.installedSkillFiles h root node <->
             exists tree, node = Some tree /\ Walk.Listed h root tree p) /\
  StronglySorted Walk.codeUnitLe (Walk.installedSkillFiles h root node) /\
  length (Walk.installedSkillFiles h root node)
    = match node with Some tree => Walk.countFiles tree | None => O end /\
  (node = None \/ node = Some Walk.NotDirectory \/ node = Some Walk.Unreadable ->
   Walk.installedSkillFiles h root node = []).
Proof.
  unfold Walk.installedSkillFiles. split_and!.
  - intros p. rewrite sortStrings_perm. destruct node as [tree|].
    + rewrite walk_listed. split; [by exists tree |]. by intros (tree' & [= <-] & H).
    + split; [by intros ?%elem_of_nil | by intros (tree & [=] & _)].
  - eapply StronglySorted_weaken; [apply strLeb_codeUnitLe | apply sortStrings_sorted].
  - rewrite sortStrings_perm. destruct node; [apply walk_length | done].
  - by intros [-> | [-> | ->]].
Qed.

Lemma installedSkillFiles_listing_witness :
  Walk.installedSkillFiles sampleHost (js "/skills") (Some Walk.Unreadable) = [].
Proof.
  apply (installedSkillFiles_listing sampleHost (js "/skills") (Some Walk.Unreadable)).
  right. by right.
Defined.

Example installedSkillFiles_sample :
  Walk.installedSkillFiles sampleHost (js "/skills") (Some skillsTree) =
  [js "/skills/browser/EXAMPLES.md"; js "/skills/browser/SKILL.md";
   js "/skills/functions/SKILL.md"].
Proof. reflexivity. Qed.
